(** * claude-code-proxy: a shallow embedding of the gateway core

    The development follows the Python sources file by file:

    - [KeyManager]   : [src/core/api_key_manager.py]  (class [APIKeyManager])
    - [Dispatch]     : [src/core/client.py]           (class [OpenAIClient])
    - [Request]      : [src/conversion/request_converter.py]
    - [Response]     : [src/conversion/response_converter.py], non-streaming part
    - [Streaming]    : [src/conversion/response_converter.py], the two generators
    - [Settings]     : [src/core/config.py]           (class [Config])

    Conventions.  Python [dict]s that are used as records are Rocq records whose
    optional keys have type [option]; [None] means that the key is absent, and,
    where the source tests a value with [is not None] or by truthiness, it also
    stands for a JSON [null].  Integers are [Z].  [time.time()] readings are
    passed in explicitly as [Z] values (seconds); the code only subtracts and
    compares them.  A generator is modelled by the list of values it yields
    together with the way it ends. *)

From Stdlib Require Import ZArith Lia Ascii String.
From stdpp Require Import base strings list gmap.

(** Exceptions of the Python runtime that the embedded code can run into. *)
Inductive pyerr :=
| IndexError
| ZeroDivisionError.

(** Result of a call that either returns or raises. *)
Inductive outcome (E A : Type) :=
| Returned (a : A)
| Raised (e : E).
Arguments Returned {E A} a.
Arguments Raised {E A} e.

(** [fastapi.HTTPException(status_code, detail)] *)
Record HTTPException := mkHTTP { status_code : Z; detail : string }.

(* ===================================================================== *)
(** * Key manager ([src/core/api_key_manager.py]) *)
(* ===================================================================== *)

Module KeyManager.

(** The fields of [APIKeyManager] (the lock is not modelled: every method
    body runs under it, so each method is one atomic state transformer). *)
Record APIKeyManager := mkManager {
  api_keys : list string;
  cooldown_period : Z;
  current_index : nat;
  failed_keys : gmap string Z;   (* key -> timestamp of failure *)
}.

(** [__init__] *)
Definition init (keys : list string) (cooldown : Z) : APIKeyManager :=
  mkManager keys cooldown 0 ∅.

Definition set_failed (f : gmap string Z) (m : APIKeyManager) : APIKeyManager :=
  mkManager (api_keys m) (cooldown_period m) (current_index m) f.

(** [current_time - fail_time > self.cooldown_period] *)
Definition cooldown_over (now cooldown fail_time : Z) : Prop :=
  (now - fail_time > cooldown)%Z.

Global Instance cooldown_over_dec now cooldown t : Decision (cooldown_over now cooldown t).
Proof. unfold cooldown_over. apply _. Defined.

(** "Clean up expired cooldowns": the entries collected in [expired_keys]
    are deleted, the others stay. *)
Definition evict (now cooldown : Z) (failed : gmap string Z) : gmap string Z :=
  filter (λ kv : string * Z, ¬ cooldown_over now cooldown kv.2) failed.

(** The [while attempts < len(self.api_keys)] loop.  [fuel] is the number of
    iterations still allowed, [len(self.api_keys) - attempts].  Indexing and
    the modulo are written with the errors Python would raise. *)
Fixpoint scan (keys : list string) (failed : gmap string Z)
    (idx : nat) (fuel : nat) : outcome pyerr (option string) * nat :=
  match fuel with
  | O => (Returned None, idx)
  | S fuel' =>
      match keys !! idx with
      | None => (Raised IndexError, idx)
      | Some key =>
          match length keys with
          | O => (Raised ZeroDivisionError, idx)
          | S _ =>
              let idx' := (idx + 1) mod length keys in
              if bool_decide (failed !! key = None)
              then (Returned (Some key), idx')
              else scan keys failed idx' fuel'
          end
      end
  end.

(** [get_next_key], at clock reading [now]. *)
Definition get_next_key (now : Z) (m : APIKeyManager)
    : outcome pyerr (option string) * APIKeyManager :=
  let failed := evict now (cooldown_period m) (failed_keys m) in
  let '(r, idx) := scan (api_keys m) failed (current_index m) (length (api_keys m)) in
  (r, mkManager (api_keys m) (cooldown_period m) idx failed).

(** [mark_key_failed], at clock reading [now]. *)
Definition mark_key_failed (now : Z) (api_key : string) (m : APIKeyManager) : APIKeyManager :=
  set_failed (<[api_key := now]> (failed_keys m)) m.

(** One iteration of the counting loop of [get_available_key_count]. *)
Definition key_available (now : Z) (m : APIKeyManager) (key : string) : bool :=
  match failed_keys m !! key with
  | None => true
  | Some t => bool_decide (cooldown_over now (cooldown_period m) t)
  end.

(** [get_available_key_count] *)
Definition get_available_key_count (now : Z) (m : APIKeyManager) : nat :=
  length (filter (λ k, key_available now m k = true) (api_keys m)).

(** [reset_all_failures] *)
Definition reset_all_failures (m : APIKeyManager) : APIKeyManager :=
  set_failed ∅ m.

(** The number [f] of credentials that are marked failed and still inside
    their cooldown period at [now]. *)
Definition failed_count (now : Z) (m : APIKeyManager) : nat :=
  length (filter (λ k, key_available now m k = false) (api_keys m)).

(** A credential is in cooldown at [now] when it has a recorded failure
    whose cooldown period has not elapsed. *)
Definition in_cooldown (now : Z) (m : APIKeyManager) (key : string) : Prop :=
  ∃ t, failed_keys m !! key = Some t ∧ ¬ cooldown_over now (cooldown_period m) t.

(** The cursor stays inside the credential list (or the list is empty). *)
Definition cursor_ok (m : APIKeyManager) : Prop :=
  api_keys m = [] ∨ current_index m < length (api_keys m).

(** The candidate looked at in iteration [j] of a scan that starts at [idx]. *)
Definition candidate (keys : list string) (idx j : nat) : option string :=
  keys !! ((idx + j) mod length keys).

(** A pool of two credentials, the first one failed at clock reading 100. *)
Definition demo_manager : APIKeyManager :=
  mark_key_failed 100 "sk-a" (init ["sk-a"; "sk-b"] 300).

(** ** [get_status] *)

(** An element of [status["keys_status"]]; ["cooldown_remaining"] is set
    only for a key in cooldown. *)
Record key_status := mkKeyStatus {
  ks_index : nat;
  ks_key_prefix : string;
  ks_status : string;
  ks_cooldown_remaining : option Z;
}.

(** The dict returned by [get_status]. *)
Record status := mkStatus {
  total_keys : nat;
  available_keys : nat;
  status_failed_keys : nat;
  keys_status : list key_status;
}.

(** [key[:10] + "..." if len(key) > 10 else key] *)
Definition key_prefix (key : string) : string :=
  if (10 <? String.length key)%nat then String.substring 0 10 key +:+ "..." else key.

(** The body of [for i, key in enumerate(self.api_keys)].  On the integer
    clock readings of the model [int(...)] is the identity. *)
Definition status_step (now : Z) (m : APIKeyManager) (st : status) (i : nat) (key : string)
    : status :=
  match failed_keys m !! key with
  | Some fail_time =>
      let time_since_failure := (now - fail_time)%Z in
      if bool_decide (time_since_failure > cooldown_period m)%Z
      then mkStatus (total_keys st) (S (available_keys st)) (status_failed_keys st)
                    (keys_status st ++ [mkKeyStatus i (key_prefix key) "available" None])
      else mkStatus (total_keys st) (available_keys st) (S (status_failed_keys st))
                    (keys_status st
                     ++ [mkKeyStatus i (key_prefix key) "cooldown"
                           (Some (cooldown_period m - time_since_failure)%Z)])
  | None =>
      mkStatus (total_keys st) (S (available_keys st)) (status_failed_keys st)
               (keys_status st ++ [mkKeyStatus i (key_prefix key) "available" None])
  end.

Fixpoint status_loop (now : Z) (m : APIKeyManager) (st : status) (i : nat)
    (keys : list string) : status :=
  match keys with
  | [] => st
  | key :: rest => status_loop now m (status_step now m st i key) (S i) rest
  end.

(** [get_status], at clock reading [now]. *)
Definition get_status (now : Z) (m : APIKeyManager) : status :=
  status_loop now m (mkStatus (length (api_keys m)) 0 0 []) 0 (api_keys m).

(** The entry that [get_status] is expected to report for the key at
    position [i]: "cooldown" with the time left for a key in cooldown,
    "available" otherwise. *)
Definition status_entry (now : Z) (m : APIKeyManager) (i : nat) (key : string) : key_status :=
  if key_available now m key
  then mkKeyStatus i (key_prefix key) "available" None
  else mkKeyStatus i (key_prefix key) "cooldown"
         (Some (cooldown_period m - (now - default 0%Z (failed_keys m !! key)))%Z).

(** ** Sequences of calls *)

(** [get_next_key] called once at each of the clock readings [nows]; the
    results, in order, and the manager left behind. *)
Fixpoint get_next_keys (nows : list Z) (m : APIKeyManager)
    : list (outcome pyerr (option string)) * APIKeyManager :=
  match nows with
  | [] => ([], m)
  | now :: rest =>
      let '(r, m') := get_next_key now m in
      let '(rs, m'') := get_next_keys rest m' in
      (r :: rs, m'')
  end.

End KeyManager.

(* ===================================================================== *)
(** * Dispatch client ([src/core/client.py]) *)
(* ===================================================================== *)

Module Dispatch.
Import KeyManager.

(** ** Text helpers used by [classify_openai_error] *)

(** [str.lower()], on the ASCII letters. *)
Definition lower_ascii (c : ascii) : ascii :=
  let n := Ascii.nat_of_ascii c in
  if (65 <=? n)%nat && (n <=? 90)%nat then Ascii.ascii_of_nat (n + 32) else c.

Fixpoint lower (s : string) : string :=
  match s with
  | EmptyString => EmptyString
  | String c t => String (lower_ascii c) (lower t)
  end.

(** [needle in hay] on strings. *)
Fixpoint contains (needle hay : string) : bool :=
  if String.prefix needle hay then true
  else match hay with
       | EmptyString => false
       | String _ t => contains needle t
       end.

(** [classify_openai_error] *)
Definition classify_openai_error (error_detail : string) : string :=
  let error_str := lower error_detail in
  if contains "unsupported_country_region_territory" error_str
     || contains "country, region, or territory not supported" error_str
  then "OpenAI API is not available in your region. Consider using a VPN or Azure OpenAI service."
  else if contains "invalid_api_key" error_str || contains "unauthorized" error_str
  then "Invalid API key. Please check your OPENAI_API_KEY configuration."
  else if contains "rate_limit" error_str || contains "quota" error_str
  then "Rate limit exceeded. Please wait and try again, or upgrade your API plan."
  else if contains "model" error_str
          && (contains "not found" error_str || contains "does not exist" error_str)
  then "Model not found. Please check your BIG_MODEL and SMALL_MODEL configuration."
  else if contains "billing" error_str || contains "payment" error_str
  then "Billing issue. Please check your OpenAI account billing status."
  else error_detail.

(** ** Exceptions *)

(** What can be raised inside the [try] block of the retry loop: the
    exception classes of the OpenAI SDK that the [except] clauses tell
    apart, each with its [str(e)], and the [HTTPException] 499 that the
    cancellation check raises there. *)
Inductive exn :=
| AuthenticationError (msg : string)
| RateLimitError (msg : string)
| BadRequestError (msg : string)
| APIError (status : option Z) (msg : string)  (* another APIError; [status_code] may be missing *)
| OtherException (msg : string)                (* any other Exception *)
| Cancelled.                                   (* the HTTPException with status 499 *)

(** [str(e)]; for the HTTPException it is Starlette's "status: detail". *)
Definition exn_str (e : exn) : string :=
  match e with
  | AuthenticationError msg | RateLimitError msg | BadRequestError msg
  | APIError _ msg | OtherException msg => msg
  | Cancelled => "499: Request cancelled by client"
  end.

(** What an [except] clause of the loop does with the exception. *)
Inductive handling :=
| Retry (last_exception : HTTPException)   (* mark the key failed, [attempts += 1], [continue] *)
| Fatal (raised : HTTPException).          (* [raise HTTPException(...)] *)

(** The [except] clauses, in the order of the source. *)
Definition classify (e : exn) : handling :=
  match e with
  | AuthenticationError msg => Retry (mkHTTP 401 (classify_openai_error msg))
  | RateLimitError msg => Retry (mkHTTP 429 (classify_openai_error msg))
  | BadRequestError msg => Fatal (mkHTTP 400 (classify_openai_error msg))
  | APIError status msg =>
      let status_code := default 500%Z status in
      if (status_code >=? 500)%Z
      then Retry (mkHTTP status_code (classify_openai_error msg))
      else Fatal (mkHTTP status_code (classify_openai_error msg))
  | OtherException _ | Cancelled =>
      Retry (mkHTTP 500 ("Unexpected error: " +:+ exn_str e))
  end.

(** ** The client *)

(** [active_requests] maps a request id to its [asyncio.Event]; the event
    is represented by its flag. *)
Record OpenAIClient := mkClient {
  api_key_manager : APIKeyManager;
  active_requests : gmap string bool;
}.

(** Python truthiness of [request_id: Optional[str]] and of the key
    returned by [get_next_key]. *)
Definition truthy (s : option string) : bool :=
  match s with
  | Some s => negb (String.eqb s EmptyString)
  | None => false
  end.

(** [cancel_request] *)
Definition cancel_request (request_id : string) (c : OpenAIClient) : bool * OpenAIClient :=
  match active_requests c !! request_id with
  | Some _ => (true, mkClient (api_key_manager c) (<[request_id := true]> (active_requests c)))
  | None => (false, c)
  end.

(** The check made before each chunk is yielded:
    [request_id and request_id in self.active_requests] and [is_set()]. *)
Definition cancellation_seen (request_id : option string) (reg : gmap string bool) : bool :=
  match request_id with
  | Some rid => truthy request_id && bool_decide (reg !! rid = Some true)
  | None => false
  end.

(** ** The environment of one call

    What the upstream does when the request is sent with a given key on
    iteration [n] of the retry loop: the chunks of the stream, each with a
    flag telling whether another task calls [cancel_request] for this
    request just before the chunk is handled, and the way the stream ends
    ([None]: exhausted; [Some e]: [create] or the iteration raises [e]). *)
Record attempt := mkAttempt {
  a_chunks : list (string * bool);
  a_end : option exn;
}.

Record environment := mkEnv {
  t_start : Z;                        (* clock read by get_available_key_count *)
  t_select : nat → Z;                 (* clock read by get_next_key in iteration n *)
  t_fail : nat → Z;                   (* clock read by mark_key_failed in iteration n *)
  upstream : nat → string → attempt;
}.

(** Observable steps of a call.  [Yield] is a value handed to the consumer
    of the generator; the other three mark the control flow of the loop. *)
Inductive event :=
| Dispatch (api_key : string)            (* [client.chat.completions.create] with this key *)
| Yield (line : string)
| Caught (api_key : string) (e : exn)    (* an [except] clause is entered *)
| MarkFailed (api_key : string).

Inductive failure :=
| Http (e : HTTPException)
| Py (e : pyerr).

(** The [async for chunk in streaming_completion] loop followed by the
    final [yield "data: [DONE]"].  Returns the values yielded, the
    exception that ended the [try] block (if any) and the registry. *)
Fixpoint consume (request_id : option string) (chunks : list (string * bool))
    (ending : option exn) (c : OpenAIClient) : list event * option exn * OpenAIClient :=
  match chunks with
  | [] =>
      match ending with
      | None => ([Yield "data: [DONE]"], None, c)
      | Some e => ([], Some e, c)
      end
  | (chunk_json, cancel_now) :: rest =>
      let c := match request_id with
               | Some rid => if cancel_now then (cancel_request rid c).2 else c
               | None => c
               end in
      if cancellation_seen request_id (active_requests c)
      then ([], Some Cancelled, c)
      else
        let '(evs, r, c') := consume request_id rest ending c in
        (Yield ("data: " +:+ chunk_json) :: evs, r, c')
  end.

Definition set_manager (m : APIKeyManager) (c : OpenAIClient) : OpenAIClient :=
  mkClient m (active_requests c).

(** The [while attempts < max_attempts] loop of
    [create_chat_completion_stream].  [remaining] is
    [max_attempts - attempts]; [n] counts the iterations. *)
Fixpoint retry_loop (env : environment) (request_id : option string)
    (remaining n : nat) (c : OpenAIClient) (last_exception : option HTTPException)
    : list event * outcome failure () * OpenAIClient :=
  match remaining with
  | O =>
      ([], Raised (Http (default (mkHTTP 503 "All API keys failed") last_exception)), c)
  | S remaining' =>
      match get_next_key (t_select env n) (api_key_manager c) with
      | (Raised e, m) => ([], Raised (Py e), set_manager m c)
      | (Returned api_key, m) =>
          let c := set_manager m c in
          match api_key with
          | Some key =>
              if truthy api_key then
                let a := upstream env n key in
                let '(evs, r, c) := consume request_id (a_chunks a) (a_end a) c in
                match r with
                | None => (Dispatch key :: evs, Returned (), c)
                | Some e =>
                    match classify e with
                    | Fatal h => (Dispatch key :: evs ++ [Caught key e], Raised (Http h), c)
                    | Retry h =>
                        let c := set_manager
                                   (mark_key_failed (t_fail env n) key (api_key_manager c)) c in
                        let '(evs', r', c') :=
                          retry_loop env request_id remaining' (S n) c (Some h) in
                        (Dispatch key :: evs ++ Caught key e :: MarkFailed key :: evs', r', c')
                    end
                end
              else
                ([], Raised (Http (default
                   (mkHTTP 503 "All API keys are temporarily unavailable") last_exception)), c)
          | None =>
              ([], Raised (Http (default
                 (mkHTTP 503 "All API keys are temporarily unavailable") last_exception)), c)
          end
      end
  end.

(** [create_chat_completion_stream], consumed to its end. *)
Definition create_chat_completion_stream (env : environment)
    (request_id : option string) (c : OpenAIClient)
    : list event * outcome failure () * OpenAIClient :=
  let c := match request_id with
           | Some rid =>
               if truthy request_id
               then mkClient (api_key_manager c) (<[rid := false]> (active_requests c))
               else c
           | None => c
           end in
  let max_attempts := get_available_key_count (t_start env) (api_key_manager c) in
  let '(evs, r, c) := retry_loop env request_id max_attempts 0 c None in
  (* finally *)
  let c := match request_id with
           | Some rid =>
               if truthy request_id && bool_decide (is_Some (active_requests c !! rid))
               then mkClient (api_key_manager c) (delete rid (active_requests c))
               else c
           | None => c
           end in
  (evs, r, c).

(** The property claimed for the streaming call: after a value has been
    yielded, the request is never sent again. *)
Definition no_failover_after_output (tr : list event) : Prop :=
  ∀ pre line post key, tr = pre ++ Yield line :: post → Dispatch key ∉ post.

(** What follows an entry into an [except] clause for exception [e] raised
    while [key] was in use: [post] is the rest of the trace and [r] the
    result of the call. *)
Definition after_failure (r : outcome failure ()) (key : string) (e : exn)
    (post : list event) : Prop :=
  match classify e with
  | Fatal h => post = [] ∧ r = Raised (Http h)
  | Retry h =>
      ∃ post', post = MarkFailed key :: post' ∧
               ((post' = [] ∧ r = Raised (Http h)) ∨
                (∃ key' rest, post' = Dispatch key' :: rest))
  end.

Definition is_yield (ev : event) : Prop :=
  match ev with Yield _ => True | _ => False end.

(** Two credentials; the first stream delivers one chunk and then breaks
    with a 502, the second one succeeds. *)
Definition demo_env : environment :=
  mkEnv 0 (λ _, 0%Z) (λ _, 0%Z)
    (λ n key, if String.eqb key "sk-a"
              then mkAttempt [("chunk-1", false)] (Some (APIError (Some 502%Z) "Bad gateway"))
              else mkAttempt [("chunk-1", false)] None).

Definition demo_client : OpenAIClient :=
  mkClient (init ["sk-a"; "sk-b"] 300) ∅.

(** ** [OpenAIClient.__init__]

    The argument is one key or a list of keys.  The result is the client
    together with its [api_key] attribute, [api_keys[0]]; the manager is
    created with the default cooldown period. *)
Definition client_init (api_keys : string + list string)
    : outcome pyerr (OpenAIClient * string) :=
  let api_keys := match api_keys with inl key => [key] | inr keys => keys end in
  let client := mkClient (init api_keys 300) ∅ in
  match api_keys !! 0 with
  | Some api_key => Returned (client, api_key)
  | None => Raised IndexError
  end.

(** [get_api_key_status] and [reset_api_key_failures] *)
Definition get_api_key_status (now : Z) (c : OpenAIClient) : status :=
  get_status now (api_key_manager c).

Definition reset_api_key_failures (c : OpenAIClient) : OpenAIClient :=
  set_manager (reset_all_failures (api_key_manager c)) c.

(** ** [create_chat_completion]

    What happens when the request is sent with a given key on iteration [n]
    of the retry loop: what awaiting [completion_task] gives, and whether
    the event loop reports [cancel_task] in [done] (looked at only when a
    request id was given). *)
Record call_attempt (R : Type) := mkCall {
  c_cancelled : bool;
  c_completion : outcome exn R;
}.
Arguments mkCall {R} _ _.
Arguments c_cancelled {R} _.
Arguments c_completion {R} _.

Record call_environment (R : Type) := mkCallEnv {
  ct_start : Z;                       (* clock read by get_available_key_count *)
  ct_select : nat → Z;                (* clock read by get_next_key in iteration n *)
  ct_fail : nat → Z;                  (* clock read by mark_key_failed in iteration n *)
  calls : nat → string → call_attempt R;
}.
Arguments mkCallEnv {R} _ _ _ _.
Arguments ct_start {R} _.
Arguments ct_select {R} _ _.
Arguments ct_fail {R} _ _.
Arguments calls {R} _ _ _.

(** What the [try] block of one iteration ends with: the dict of the
    completion, or the exception raised in it. *)
Definition await_completion {R} (request_id : option string) (a : call_attempt R)
    : outcome exn R :=
  if truthy request_id && c_cancelled a then Raised Cancelled else c_completion a.

(** The [while attempts < max_attempts] loop of [create_chat_completion]. *)
Fixpoint call_loop {R} (env : call_environment R) (request_id : option string)
    (remaining n : nat) (c : OpenAIClient) (last_exception : option HTTPException)
    : list event * outcome failure R * OpenAIClient :=
  match remaining with
  | O =>
      ([], Raised (Http (default (mkHTTP 503 "All API keys failed") last_exception)), c)
  | S remaining' =>
      match get_next_key (ct_select env n) (api_key_manager c) with
      | (Raised e, m) => ([], Raised (Py e), set_manager m c)
      | (Returned api_key, m) =>
          let c := set_manager m c in
          match api_key with
          | Some key =>
              if truthy api_key then
                match await_completion request_id (calls env n key) with
                | Returned completion => ([Dispatch key], Returned completion, c)
                | Raised e =>
                    match classify e with
                    | Fatal h => ([Dispatch key; Caught key e], Raised (Http h), c)
                    | Retry h =>
                        let c := set_manager
                                   (mark_key_failed (ct_fail env n) key (api_key_manager c)) c in
                        let '(evs', r', c') :=
                          call_loop env request_id remaining' (S n) c (Some h) in
                        (Dispatch key :: Caught key e :: MarkFailed key :: evs', r', c')
                    end
                end
              else
                ([], Raised (Http (default
                   (mkHTTP 503 "All API keys are temporarily unavailable") last_exception)), c)
          | None =>
              ([], Raised (Http (default
                 (mkHTTP 503 "All API keys are temporarily unavailable") last_exception)), c)
          end
      end
  end.

(** [create_chat_completion] *)
Definition create_chat_completion {R} (env : call_environment R)
    (request_id : option string) (c : OpenAIClient)
    : list event * outcome failure R * OpenAIClient :=
  let c := match request_id with
           | Some rid =>
               if truthy request_id
               then mkClient (api_key_manager c) (<[rid := false]> (active_requests c))
               else c
           | None => c
           end in
  let max_attempts := get_available_key_count (ct_start env) (api_key_manager c) in
  let '(evs, r, c) := call_loop env request_id max_attempts 0 c None in
  (* finally *)
  let c := match request_id with
           | Some rid =>
               if truthy request_id && bool_decide (is_Some (active_requests c !! rid))
               then mkClient (api_key_manager c) (delete rid (active_requests c))
               else c
           | None => c
           end in
  (evs, r, c).

(** The streaming attempt that behaves like a call attempt: a stream
    without chunks that ends the way the call does. *)
Definition as_stream_attempt {R} (request_id : option string) (a : call_attempt R) : attempt :=
  mkAttempt [] (match await_completion request_id a with
                | Returned _ => None
                | Raised e => Some e
                end).

Definition as_stream_environment {R} (request_id : option string) (env : call_environment R)
    : environment :=
  mkEnv (ct_start env) (ct_select env) (ct_fail env)
        (λ n key, as_stream_attempt request_id (calls env n key)).

(** ** Vocabulary for traces *)

Definition is_dispatch (ev : event) : bool :=
  match ev with Dispatch _ => true | _ => false end.

Definition dispatched (tr : list event) : list string :=
  omap (λ ev, match ev with Dispatch key => Some key | _ => None end) tr.

(** What a dispatch call keeps of the registry while it runs: everything
    for a call without request id, everything but the entry of the request
    otherwise. *)
Definition registry_kept (rid : option string) (c c' : OpenAIClient) : Prop :=
  match rid with
  | Some rid => delete rid (active_requests c') = delete rid (active_requests c)
  | None => active_requests c' = active_requests c
  end.

(** The result of the streaming call that corresponds to a result of the
    plain call, and what the streaming call yields at its end. *)
Definition stream_result {R} (r : outcome failure R) : outcome failure () :=
  match r with
  | Returned _ => Returned ()
  | Raised f => Raised f
  end.

Definition done_marker {R} (r : outcome failure R) : list event :=
  match r with
  | Returned _ => [Yield "data: [DONE]"]
  | Raised _ => []
  end.

(** Two credentials; every stream has two chunks, and another task cancels
    the request just before the second chunk of the first stream is
    handled. *)
Definition demo_cancel_env : environment :=
  mkEnv 0 (λ _, 0%Z) (λ _, 0%Z)
    (λ n key, mkAttempt [("chunk-1", false); ("chunk-2", Nat.eqb n 0)] None).

(** A plain call whose first key is rejected and whose second key answers. *)
Definition demo_call_env : call_environment string :=
  mkCallEnv 0 (λ _, 0%Z) (λ _, 0%Z)
    (λ n key, if String.eqb key "sk-a"
              then mkCall false (Raised (AuthenticationError "invalid_api_key"))
              else mkCall false (Returned "completion")).

End Dispatch.

(* ===================================================================== *)
(** * Protocol constants *)
(* ===================================================================== *)

Module Constants.

(** Modelled from the spec: [src/core/constants.py] is not among the
    sources.  Role names of sections 3 and 4.1 (the unit tests compare
    against the same literals). *)
Definition ROLE_USER : string := "user".
(** Modelled from the spec: [constants.py] is missing; role name (4.1). *)
Definition ROLE_ASSISTANT : string := "assistant".
(** Modelled from the spec: [constants.py] is missing; role name (4.1). *)
Definition ROLE_SYSTEM : string := "system".
(** Modelled from the spec: [constants.py] is missing; role name (4.1). *)
Definition ROLE_TOOL : string := "tool".
(** Modelled from the spec: [constants.py] is missing; block type (3, 4.1). *)
Definition CONTENT_TEXT : string := "text".
(** Modelled from the spec: [constants.py] is missing; block type (3, 4.2). *)
Definition CONTENT_IMAGE : string := "image".
(** Modelled from the spec: [constants.py] is missing; block type (3, 6). *)
Definition CONTENT_TOOL_USE : string := "tool_use".
(** Modelled from the spec: [constants.py] is missing; block type (3). *)
Definition CONTENT_TOOL_RESULT : string := "tool_result".
(** Modelled from the spec: [constants.py] is missing; tool-call type (4.1). *)
Definition TOOL_FUNCTION : string := "function".
(** Modelled from the spec: [constants.py] is missing; stop reason (4.3). *)
Definition STOP_END_TURN : string := "end_turn".
(** Modelled from the spec: [constants.py] is missing; stop reason (4.3). *)
Definition STOP_MAX_TOKENS : string := "max_tokens".
(** Modelled from the spec: [constants.py] is missing; stop reason (4.3). *)
Definition STOP_TOOL_USE : string := "tool_use".

End Constants.

(** The part of [config] that the converters read, already parsed
    ([src/core/config.py] sets the two limits from the environment and
    checks nothing about them; [supports_prompt_cache] is the flag of
    section 6 of the specification). *)
Record Config := mkConfig {
  supports_prompt_cache : bool;
  min_tokens_limit : Z;
  max_tokens_limit : Z;
}.

(** Structured JSON values that the gateway passes through without looking
    inside (tool inputs, schemas, numbers). *)
#[warnings="-register-all"]
Inductive json :=
| JNull
| JBool (b : bool)
| JNum (z : Z)
| JStr (s : string)
| JArr (items : list json)
| JObj (fields : list (string * json)).

(** [str.strip()], for the ASCII white space characters. *)
Definition is_space (c : ascii) : bool :=
  let n := Ascii.nat_of_ascii c in
  ((9 <=? n) && (n <=? 13)) || ((28 <=? n) && (n <=? 32)).

Fixpoint lstrip (s : string) : string :=
  match s with
  | String c t => if is_space c then lstrip t else s
  | EmptyString => EmptyString
  end.

Fixpoint rstrip (s : string) : string :=
  match s with
  | String c t =>
      match rstrip t with
      | EmptyString => if is_space c then EmptyString else String c EmptyString
      | t' => String c t'
      end
  | EmptyString => EmptyString
  end.

Definition strip (s : string) : string := rstrip (lstrip s).

(** [sep.join(parts)] *)
Fixpoint join (sep : string) (parts : list string) : string :=
  match parts with
  | [] => EmptyString
  | [p] => p
  | p :: rest => p +:+ sep +:+ join sep rest
  end.

Definition nonempty (s : string) : bool := negb (String.eqb s EmptyString).

(* ===================================================================== *)
(** * Request converter ([src/conversion/request_converter.py]) *)
(* ===================================================================== *)

Module Request.
Import Constants.

(** ** Source protocol

    Modelled from the spec: [src/models/claude.py] is not among the sources;
    the types below are the data model of section 3 of the specification,
    with the attributes that the converter reads. *)

(** A [dict] inside a tool result: its ["type"] and ["text"] entries, when
    present, and the other entries. *)
Record block_dict := mkBlockDict {
  bd_type : option string;
  bd_text : option string;
  bd_other : list (string * json);
}.

(** An element of a list-valued tool result. *)
Inductive result_part :=
| PartDict (d : block_dict)
| PartStr (s : string)
| PartOther (v : json).

(** The [content] of a tool-result block. *)
Inductive tool_result_content :=
| TRNone
| TRStr (s : string)
| TRList (parts : list result_part)
| TRDict (d : block_dict)
| TROther (v : json).

(** The [source] dict of an image block. *)
Record image_source := mkImageSource {
  src_type : option string;
  src_media_type : option string;
  src_data : option string;
}.

(** Modelled from the spec: the [ContentBlock] variants of section 3. *)
Inductive ContentBlock :=
| Text (text : string)
| Image (source : image_source)
| ToolUse (id name : string) (input : json)
| ToolResult (tool_use_id : string) (content : tool_result_content).

(** Modelled from the spec: [content: string | sequence of ContentBlock]. *)
Inductive MessageContent :=
| ContentStr (s : string)
| ContentBlocks (blocks : list ContentBlock).

(** Modelled from the spec: [Message] of section 3. *)
Record ClaudeMessage := mkMessage {
  role : string;
  content : MessageContent;
}.

(** Modelled from the spec: a text block of the [system] field. *)
Record SystemBlock := mkSystemBlock {
  sb_type : string;
  sb_text : string;
}.

(** Modelled from the spec: [system: string | sequence of text blocks]. *)
Inductive SystemContent :=
| SystemStr (s : string)
| SystemBlocks (blocks : list SystemBlock).

(** Modelled from the spec: [ToolDef] of section 3. *)
Record ClaudeTool := mkTool {
  tool_name : option string;
  tool_description : option string;
  tool_input_schema : json;
}.

(** Modelled from the spec: [Request] of section 3. *)
Record ClaudeMessagesRequest := mkRequest {
  model : string;
  max_tokens : Z;
  messages : list ClaudeMessage;
  system : option SystemContent;
  stop_sequences : option (list string);
  stream : option bool;
  temperature : option json;
  top_p : option json;
  tools : option (list ClaudeTool);
  tool_choice : option (list (string * json));
}.

(** ** Target protocol *)

(** An element of a structured message content: a text part, with or
    without [cache_control: {type: ephemeral}], or an image part. *)
Inductive content_part :=
| PText (text : string) (cache_control : bool)
| PImageUrl (url : string).

Inductive target_content :=
| TNone
| TStr (s : string)
| TParts (parts : list content_part).

Record tool_call := mkToolCall {
  call_id : string;
  call_name : string;
  call_arguments : string;
}.

Record openai_message := mkTarget {
  t_role : string;
  t_content : target_content;
  t_tool_call_id : option string;
  t_tool_calls : option (list tool_call);
}.

Record openai_tool := mkOpenAITool {
  fn_name : string;
  fn_description : string;
  fn_parameters : json;
}.

Inductive openai_tool_choice :=
| ChoiceAuto
| ChoiceFunction (name : json).

Record openai_request := mkOpenAIRequest {
  o_model : string;
  o_messages : list openai_message;
  o_max_tokens : Z;
  o_temperature : option json;
  o_stream : option bool;
  o_stop : option (list string);
  o_top_p : option json;
  o_tools : option (list openai_tool);
  o_tool_choice : option openai_tool_choice;
}.

Section Converter.

(** [json.dumps(value, ensure_ascii=False)] of a tool input. *)
Variable json_dumps : json → string.
(** [json.dumps] of a dict of a tool result; [None] when it raises. *)
Variable json_dumps_dict : block_dict → option string.
(** [str(content)] inside its [try]; [None] when it raises. *)
Variable py_str : json → option string.
(** [str(part)] of a list element and of a dict, where the source does not
    guard it. *)
Variable py_str_part : json → string.
Variable py_str_dict : block_dict → string.
(** [model_manager.map_claude_model_to_openai] *)
Variable map_claude_model_to_openai : string → string.
Variable config : Config.

(** ** [parse_tool_result_content] *)

Definition dict_to_text (d : block_dict) : string :=
  match json_dumps_dict d with
  | Some s => s
  | None => py_str_dict d
  end.

(** The string appended to [result_parts] for one element of a list. *)
Definition part_text (part : result_part) : string :=
  match part with
  | PartDict d =>
      if bool_decide (bd_type d = Some CONTENT_TEXT) then default EmptyString (bd_text d)
      else if bool_decide (bd_type d = Some CONTENT_IMAGE)
      then "(see following user message for image)"
      else match bd_text d with
           | Some t => t
           | None => dict_to_text d
           end
  | PartStr s => s
  | PartOther v => py_str_part v
  end.

Definition parse_tool_result_content (c : tool_result_content) : string :=
  match c with
  | TRNone => EmptyString
  | TRStr s => s
  | TRList parts =>
      join (String "010" EmptyString) (filter (λ s, nonempty s = true) (part_text <$> parts))
  | TRDict d =>
      if bool_decide (bd_type d = Some CONTENT_TEXT) then default EmptyString (bd_text d)
      else dict_to_text d
  | TROther v => default "Unparseable content" (py_str v)
  end.

(** ** [_convert_content_blocks_to_openai] *)

Definition convert_block (part : ContentBlock) : option content_part :=
  match part with
  | Text text => Some (PText text false)
  | Image source =>
      match src_type source, src_media_type source, src_data source with
      | Some ty, Some media_type, Some data =>
          if String.eqb ty "base64"
          then Some (PImageUrl ("data:" +:+ media_type +:+ ";base64," +:+ data))
          else None
      | _, _, _ => None
      end
  | _ => None
  end.

Definition _convert_content_blocks_to_openai (content_blocks : list ContentBlock)
    : target_content :=
  match content_blocks with
  | [] => TStr EmptyString
  | _ =>
      let openai_content := omap convert_block content_blocks in
      match openai_content with
      | [PText text _] => TStr text
      | _ => TParts openai_content
      end
  end.

(** ** The message loop of [convert_claude_to_openai] *)

Definition is_tool_result (part : ContentBlock) : bool :=
  match part with ToolResult _ _ => true | _ => false end.

Definition is_tool_use (part : ContentBlock) : bool :=
  match part with ToolUse _ _ _ => true | _ => false end.

(** [part.type in [Constants.CONTENT_TEXT, Constants.CONTENT_IMAGE]] *)
Definition is_text_or_image (part : ContentBlock) : bool :=
  match part with Text _ | Image _ => true | _ => false end.

Definition tool_result_message (part : ContentBlock) : option openai_message :=
  match part with
  | ToolResult tool_use_id content =>
      Some (mkTarget ROLE_TOOL (TStr (parse_tool_result_content content))
                     (Some tool_use_id) None)
  | _ => None
  end.

(** The target messages appended for a user message with block content. *)
Definition convert_user_blocks (blocks : list ContentBlock) : list openai_message :=
  let tool_messages := filter (λ p, is_tool_result p = true) blocks in
  let non_tool_messages := filter (λ p, is_text_or_image p = true) blocks in
  omap tool_result_message tool_messages
  ++ match non_tool_messages with
     | [] => []
     | _ => [mkTarget ROLE_USER (_convert_content_blocks_to_openai non_tool_messages)
                      None None]
     end.

Definition block_text (part : ContentBlock) : option string :=
  match part with Text text => Some text | _ => None end.

Definition tool_use_call (part : ContentBlock) : option tool_call :=
  match part with
  | ToolUse id name input =>
      Some (mkToolCall id name (json_dumps input))
  | _ => None
  end.

(** The target message appended for an assistant message with block
    content. *)
Definition convert_assistant_blocks (blocks : list ContentBlock) : openai_message :=
  let tool_messages := filter (λ p, is_tool_use p = true) blocks in
  let non_tool_messages := filter (λ p, is_text_or_image p = true) blocks in
  let content_parts := omap block_text non_tool_messages in
  let content := match content_parts with
                 | [] => TNone
                 | _ => TStr (join EmptyString content_parts)
                 end in
  let tool_calls := omap tool_use_call tool_messages in
  mkTarget ROLE_ASSISTANT content None
           (match tool_calls with [] => None | _ => Some tool_calls end).

(** What one source message appends to [openai_messages]. *)
Definition convert_message (m : ClaudeMessage) : list openai_message :=
  match content m with
  | ContentStr s => [mkTarget (role m) (TStr s) None None]
  | ContentBlocks blocks =>
      if String.eqb (role m) ROLE_USER then convert_user_blocks blocks
      else if String.eqb (role m) ROLE_ASSISTANT then [convert_assistant_blocks blocks]
      else []
  end.

(** ** The system message *)

Definition system_text (sys : SystemContent) : string :=
  match sys with
  | SystemStr s => s
  | SystemBlocks blocks =>
      join (String "010" (String "010" EmptyString))
           (sb_text <$> filter (λ b, sb_type b = CONTENT_TEXT) blocks)
  end.

(** [if claude_request.system:] *)
Definition system_truthy (sys : option SystemContent) : bool :=
  match sys with
  | Some (SystemStr s) => nonempty s
  | Some (SystemBlocks blocks) => match blocks with [] => false | _ => true end
  | None => false
  end.

Definition system_message (sys : option SystemContent) : option openai_message :=
  match sys with
  | Some sc =>
      if system_truthy sys && nonempty (strip (system_text sc)) then
        Some (mkTarget ROLE_SYSTEM
                (if supports_prompt_cache config
                 then TParts [PText (strip (system_text sc)) true]
                 else TStr (strip (system_text sc)))
                None None)
      else None
  | None => None
  end.

(** ** Prompt-cache annotation of the last two user messages

    Every element of [openai_messages] is a dict of its own, created where
    it is appended, so an object of the list is identified by its position.
    The loop works on [user_messages], a list of references to those
    objects, and changes them in place. *)

Definition is_user (msg : openai_message) : bool := String.eqb (t_role msg) ROLE_USER.

Definition is_text_part (part : content_part) : bool :=
  match part with PText _ _ => true | PImageUrl _ => false end.

Definition set_cache_control (part : content_part) : content_part :=
  match part with
  | PText text _ => PText text true
  | PImageUrl url => PImageUrl url
  end.

(** The positions in [l] of the elements that satisfy [p], in order. *)
Definition positions {A} (p : A → bool) (l : list A) : list nat :=
  filter (λ i, (p <$> l !! i) = Some true) (seq 0 (length l)).

(** [text_parts[-1]], as a reference into [msg["content"]]; when there is
    no text part one is appended; then [cache_control] is set on it. *)
Definition mark_last_text_part (parts : list content_part) : list content_part :=
  match last (positions is_text_part parts) with
  | Some i => alter set_cache_control i parts
  | None => parts ++ [PText "..." true]
  end.

(** The body of the loop over [last_two_user_messages]. *)
Definition add_cache_control (msg : openai_message) : openai_message :=
  let content := match t_content msg with
                 | TStr s => TParts [PText s false]
                 | other => other
                 end in
  let content := match content with
                 | TParts parts => TParts (mark_last_text_part parts)
                 | other => other
                 end in
  mkTarget (t_role msg) content (t_tool_call_id msg) (t_tool_calls msg).

(** [user_messages[-2:] if len(user_messages) >= 2 else user_messages] *)
Definition last_two {A} (l : list A) : list A :=
  if (2 <=? length l)%nat then drop (length l - 2) l else l.

Definition annotate_user_messages (openai_messages : list openai_message)
    : list openai_message :=
  let user_messages := positions is_user openai_messages in
  foldl (λ msgs ref, alter add_cache_control ref msgs) openai_messages
        (last_two user_messages).

(** ** Tools and tool choice *)

Definition convert_tool (tool : ClaudeTool) : option openai_tool :=
  match tool_name tool with
  | Some name =>
      if nonempty name && nonempty (strip name)
      then Some (mkOpenAITool name (default EmptyString (tool_description tool))
                              (tool_input_schema tool))
      else None
  | None => None
  end.

Definition convert_tools (tools : option (list ClaudeTool)) : option (list openai_tool) :=
  match tools with
  | Some ((_ :: _) as ts) =>
      match omap convert_tool ts with
      | [] => None
      | openai_tools => Some openai_tools
      end
  | _ => None
  end.

Fixpoint dict_get (key : string) (d : list (string * json)) : option json :=
  match d with
  | [] => None
  | (k, v) :: rest => if String.eqb k key then Some v else dict_get key rest
  end.

Definition convert_tool_choice (choice : option (list (string * json)))
    : option openai_tool_choice :=
  match choice with
  | Some ((_ :: _) as d) =>
      match dict_get "type" d, dict_get "name" d with
      | Some (JStr ty), Some name =>
          if String.eqb ty "tool" then Some (ChoiceFunction name) else Some ChoiceAuto
      | _, _ => Some ChoiceAuto
      end
  | _ => None
  end.

(** ** [convert_claude_to_openai] *)

Definition clamp_max_tokens (requested : Z) : Z :=
  Z.min (Z.max requested (min_tokens_limit config)) (max_tokens_limit config).

Definition build_messages (req : ClaudeMessagesRequest) : list openai_message :=
  let openai_messages := concat (convert_message <$> messages req) in
  match system_message (system req) with
  | Some sys => sys :: openai_messages
  | None => openai_messages
  end.

Definition convert_claude_to_openai (req : ClaudeMessagesRequest) : openai_request :=
  let openai_messages := build_messages req in
  let openai_messages :=
    if supports_prompt_cache config then annotate_user_messages openai_messages
    else openai_messages in
  mkOpenAIRequest
    (map_claude_model_to_openai (model req))
    openai_messages
    (clamp_max_tokens (max_tokens req))
    (temperature req)
    (stream req)
    (match stop_sequences req with
     | Some ((_ :: _) as l) => Some l
     | _ => None
     end)
    (top_p req)
    (convert_tools (tools req))
    (convert_tool_choice (tool_choice req)).

End Converter.

(** ** Specification-level vocabulary *)

(** The tool results of a block list, in their order. *)
Fixpoint tool_results (blocks : list ContentBlock) : list (string * tool_result_content) :=
  match blocks with
  | [] => []
  | ToolResult tool_use_id content :: rest => (tool_use_id, content) :: tool_results rest
  | _ :: rest => tool_results rest
  end.

(** The text and image blocks of a block list, in their order. *)
Fixpoint plain_blocks (blocks : list ContentBlock) : list ContentBlock :=
  match blocks with
  | [] => []
  | Text text :: rest => Text text :: plain_blocks rest
  | Image source :: rest => Image source :: plain_blocks rest
  | _ :: rest => plain_blocks rest
  end.

(** A text part that carries [cache_control]. *)
Definition part_marked (part : content_part) : bool :=
  match part with PText _ true => true | _ => false end.

(** A message one of whose content parts carries [cache_control]. *)
Definition has_cache_marker (msg : openai_message) : bool :=
  match t_content msg with
  | TParts parts => existsb part_marked parts
  | _ => false
  end.

(** [marked_version c c']: [c'] is [c] with the cache marker put on its
    final text element: bare-string content becomes a one-element text
    array, and an array without text element gets the element ["..."]. *)
Inductive marked_version : target_content → target_content → Prop :=
| marked_str s :
    marked_version (TStr s) (TParts [PText s true])
| marked_last_text before text flag after :
    Forall (λ part, is_text_part part = false) after →
    marked_version (TParts (before ++ PText text flag :: after))
                   (TParts (before ++ PText text true :: after))
| marked_placeholder parts :
    Forall (λ part, is_text_part part = false) parts →
    marked_version (TParts parts) (TParts (parts ++ [PText "..." true])).

(** [lastn k l]: the last [k] elements of [l] (all of [l] when it is shorter). *)
Definition lastn {A} (k : nat) (l : list A) : list A := drop (length l - k) l.

(** The loop of the annotation step for any number [k] of trailing matches:
    [f] is applied in place to the last [k] elements that satisfy [p]. *)
Definition alter_last {A} (p : A → bool) (f : A → A) (k : nat) (l : list A) : list A :=
  foldl (λ acc ref, alter f ref acc) l (lastn k (positions p l)).

(** Relation between a message before and after the annotation step. *)
Definition annotated (before after : openai_message) : Prop :=
  after = before ∨
  (is_user before = true ∧
   t_role after = t_role before ∧
   t_tool_call_id after = t_tool_call_id before ∧
   t_tool_calls after = t_tool_calls before ∧
   marked_version (t_content before) (t_content after)).

(** Instances of the environment for the examples. *)
Definition demo_dumps (v : json) : string := "{}".
Definition demo_dumps_dict (d : block_dict) : option string := Some "{}".
Definition demo_str (v : json) : option string := Some "value".
Definition demo_part_str (v : json) : string := "value".
Definition demo_str_dict (d : block_dict) : string := "{}".
Definition demo_map (m : string) : string := "gpt-4o".

Definition demo_request (requested : Z) (msgs : list ClaudeMessage) : ClaudeMessagesRequest :=
  mkRequest "claude-3-5-sonnet-20241022" requested msgs None None None None None None None.

Definition demo_convert (cfg : Config) (req : ClaudeMessagesRequest) : openai_request :=
  convert_claude_to_openai demo_dumps demo_dumps_dict demo_str demo_part_str demo_str_dict
    demo_map cfg req.

(** Three user turns; the last one has an image before and after its text. *)
Definition demo_conversation : list ClaudeMessage :=
  [mkMessage ROLE_USER (ContentStr "First message");
   mkMessage ROLE_ASSISTANT (ContentStr "First response");
   mkMessage ROLE_USER (ContentStr "Second message");
   mkMessage ROLE_ASSISTANT (ContentBlocks [Text "Second response"]);
   mkMessage ROLE_USER (ContentBlocks
     [Image (mkImageSource (Some "base64") (Some "image/png") (Some "AAAA"));
      Text "What is in these pictures?";
      Image (mkImageSource (Some "base64") (Some "image/png") (Some "BBBB"))])].

(** ** The stand-alone message converters

    [convert_claude_user_message], [convert_claude_assistant_message] and
    [convert_claude_tool_results] read nothing of [msg] but [msg.content];
    they are given that attribute, [None] when it is [None]. *)

Section Helpers.

Variable json_dumps : json → string.
Variable json_dumps_dict : block_dict → option string.
Variable py_str : json → option string.
Variable py_str_part : json → string.
Variable py_str_dict : block_dict → string.

(** [convert_claude_user_message] *)
Definition convert_claude_user_message (content : option MessageContent) : openai_message :=
  match content with
  | None => mkTarget ROLE_USER (TStr EmptyString) None None
  | Some (ContentStr s) => mkTarget ROLE_USER (TStr s) None None
  | Some (ContentBlocks blocks) =>
      let openai_content := omap convert_block blocks in
      match openai_content with
      | [PText text _] => mkTarget ROLE_USER (TStr text) None None
      | _ => mkTarget ROLE_USER (TParts openai_content) None None
      end
  end.

(** The loop of [convert_claude_assistant_message] over the blocks: the
    texts and the tool calls collected so far. *)
Fixpoint collect_assistant_blocks (blocks : list ContentBlock)
    (text_parts : list string) (tool_calls : list tool_call)
    : list string * list tool_call :=
  match blocks with
  | [] => (text_parts, tool_calls)
  | Text text :: rest => collect_assistant_blocks rest (text_parts ++ [text]) tool_calls
  | ToolUse id name input :: rest =>
      collect_assistant_blocks rest text_parts
        (tool_calls ++ [mkToolCall id name (json_dumps input)])
  | _ :: rest => collect_assistant_blocks rest text_parts tool_calls
  end.

(** [convert_claude_assistant_message] *)
Definition convert_claude_assistant_message (content : option MessageContent)
    : openai_message :=
  match content with
  | None => mkTarget ROLE_ASSISTANT TNone None None
  | Some (ContentStr s) => mkTarget ROLE_ASSISTANT (TStr s) None None
  | Some (ContentBlocks blocks) =>
      let '(text_parts, tool_calls) := collect_assistant_blocks blocks [] [] in
      mkTarget ROLE_ASSISTANT
        (match text_parts with
         | [] => TNone
         | _ => TStr (join EmptyString text_parts)
         end)
        None
        (match tool_calls with [] => None | _ => Some tool_calls end)
  end.

(** [convert_claude_tool_results] *)
Fixpoint tool_result_messages (blocks : list ContentBlock) : list openai_message :=
  match blocks with
  | [] => []
  | ToolResult tool_use_id content :: rest =>
      mkTarget ROLE_TOOL
        (TStr (parse_tool_result_content json_dumps_dict py_str py_str_part py_str_dict content))
        (Some tool_use_id) None
      :: tool_result_messages rest
  | _ :: rest => tool_result_messages rest
  end.

Definition convert_claude_tool_results (content : option MessageContent)
    : list openai_message :=
  match content with
  | Some (ContentBlocks blocks) => tool_result_messages blocks
  | _ => []
  end.

End Helpers.

(** ** More vocabulary *)

(** The tool-use blocks of a block list, in their order. *)
Fixpoint tool_uses (blocks : list ContentBlock) : list (string * string * json) :=
  match blocks with
  | [] => []
  | ToolUse id name input :: rest => (id, name, input) :: tool_uses rest
  | _ :: rest => tool_uses rest
  end.


End Request.

(* ===================================================================== *)
(** * Response converter ([src/conversion/response_converter.py]) *)
(* ===================================================================== *)

Module Response.
Import Constants.

(** ** Upstream (target protocol) response *)

(** A dict element of a structured message content, with the entries the
    converter reads: ["type"], ["text"] and ["image_url"]["url"]. *)
Record content_item := mkItem {
  it_type : option string;
  it_text : option string;
  it_url : option string;
}.


Record function_data := mkFunction {
  f_name : option string;
  f_arguments : option string;
}.

Record upstream_tool_call := mkUpstreamCall {
  utc_type : option string;
  utc_id : option string;
  utc_function : option function_data;
}.



(** The [usage] dict: the entries that are read, and the other ones. *)
Record upstream_usage := mkUsage {
  u_input_tokens : option Z;
  u_prompt_tokens : option Z;
  u_output_tokens : option Z;
  u_completion_tokens : option Z;
  u_cache_creation_input_tokens : option Z;
  u_cache_read_input_tokens : option Z;
  u_input_tokens_details : option (option Z);   (* the dict, and its ["cached_tokens"] *)
  u_other : list (string * json);
}.


(** ** Source protocol response *)

Inductive content_block :=
| TextBlock (text : string)
| ImageBlock (media_type data : string)
| ToolUseBlock (id name : string) (input : json).

Record usage_data := mkUsageData {
  input_tokens : Z;
  output_tokens : Z;
  cache_creation_input_tokens : option Z;
  cache_read_input_tokens : option Z;
}.


(** ** String operations on data URLs *)

(** [s.split(c)[0]]: the part of [s] before the first [c]. *)
Fixpoint before_char (c : ascii) (s : string) : string :=
  match s with
  | EmptyString => EmptyString
  | String a t => if Ascii.eqb a c then EmptyString else String a (before_char c t)
  end.

(** The part of [s] after the first [c]; [None] when [c] does not occur. *)
Fixpoint after_char (c : ascii) (s : string) : option string :=
  match s with
  | EmptyString => None
  | String a t => if Ascii.eqb a c then Some t else after_char c t
  end.

Inductive parse_error := ValueError | ParseIndexError.

(** [header, base64_data = image_url.split(",", 1)] and
    [media_type = header.split(":")[1].split(";")[0]] *)
Definition parse_data_url (image_url : string) : outcome parse_error (string * string) :=
  match after_char "," image_url with
  | None => Raised ValueError
  | Some base64_data =>
      let header := before_char "," image_url in
      match after_char ":" header with
      | None => Raised ParseIndexError
      | Some rest => Returned (before_char ";" (before_char ":" rest), base64_data)
      end
  end.

(** ** Usage *)

Definition empty_usage : upstream_usage :=
  mkUsage None None None None None None None [].

(** [usage.get('input_tokens', usage.get('prompt_tokens', 0))] and the same
    for the output tokens, then the cache counters when the flag is set. *)
Definition build_usage_data (supports_cache : bool) (usage : upstream_usage) : usage_data :=
  let input := default (default 0%Z (u_prompt_tokens usage)) (u_input_tokens usage) in
  let output := default (default 0%Z (u_completion_tokens usage)) (u_output_tokens usage) in
  if supports_cache then
    let cache_creation_tokens := default 0%Z (u_cache_creation_input_tokens usage) in
    let cache_read_tokens := default 0%Z (u_cache_read_input_tokens usage) in
    let cache_read_tokens :=
      if (cache_read_tokens =? 0)%Z then
        let cached_tokens := default 0%Z (default None (u_input_tokens_details usage)) in
        if (cached_tokens >? 0)%Z then cached_tokens else cache_read_tokens
      else cache_read_tokens in
    mkUsageData input output
      (if (cache_creation_tokens >? 0)%Z then Some cache_creation_tokens else None)
      (if (cache_read_tokens >? 0)%Z then Some cache_read_tokens else None)
  else mkUsageData input output None None.

(** ** Stop reason *)

Definition map_stop_reason (finish_reason : string) : string :=
  if String.eqb finish_reason "stop" then STOP_END_TURN
  else if String.eqb finish_reason "length" then STOP_MAX_TOKENS
  else if String.eqb finish_reason "tool_calls" then STOP_TOOL_USE
  else if String.eqb finish_reason "function_call" then STOP_TOOL_USE
  else STOP_END_TURN.

Section Converter.

(** [json.loads]; [None] when it raises [JSONDecodeError]. *)
Variable json_loads : string → option json.
(** [str(value)] of a content element and of a content value. *)
Variable py_str_item : content_item → string.
Variable py_str : json → string.
(** The identifiers made from [uuid.uuid4()]: for the tool call at a given
    position, and for the message. *)
Variable new_tool_id : nat → string.
Variable new_message_id : string.
Variable config : Config.

(** The blocks appended for one element of a structured content. *)
Definition convert_item (item : option content_item) : list content_block :=
  match item with
  | None => []
  | Some content_item =>
      if bool_decide (it_type content_item = Some "text") then
        let text := default EmptyString (it_text content_item) in
        if nonempty text then [TextBlock text] else []
      else if bool_decide (it_type content_item = Some "image_url") then
        let image_url := default EmptyString (it_url content_item) in
        if String.prefix "data:" image_url then
          match parse_data_url image_url with
          | Returned (media_type, base64_data) => [ImageBlock media_type base64_data]
          | Raised _ => [TextBlock "[Image content]"]
          end
        else [TextBlock ("[Image: " +:+ image_url +:+ "]")]
      else [TextBlock (py_str_item content_item)]
  end.


(** The block appended for the tool call at position [i]. *)
Definition convert_tool_call (i : nat) (tool_call : upstream_tool_call) : list content_block :=
  if bool_decide (utc_type tool_call = Some TOOL_FUNCTION) then
    let function_data := default (mkFunction None None) (utc_function tool_call) in
    let arguments :=
      match json_loads (default "{}" (f_arguments function_data)) with
      | Some v => v
      | None => JObj [("raw_arguments", JStr (default EmptyString (f_arguments function_data)))]
      end in
    [ToolUseBlock (default (new_tool_id i) (utc_id tool_call))
                  (default EmptyString (f_name function_data))
                  arguments]
  else [].


End Converter.


(** Instances of the environment for the examples. *)
Definition demo_loads (s : string) : option json :=
  if String.eqb s "{}" then Some (JObj []) else None.
Definition demo_item_str (item : content_item) : string := "{...}".
Definition demo_tool_id (i : nat) : string := "tool_0000".



End Response.

(* ===================================================================== *)
(** * Streaming translator ([src/conversion/response_converter.py]) *)
(* ===================================================================== *)

Module Streaming.
Import Constants Response.

(** ** Upstream chunks *)

Record function_delta := mkFunctionDelta {
  fd_name : option string;
  fd_arguments : option string;
}.

Record tool_call_delta := mkToolDelta {
  tcd_index : option Z;
  tcd_id : option string;
  tcd_function : option function_delta;
}.

Record delta := mkDelta {
  d_content : option string;
  d_tool_calls : option (list tool_call_delta);
}.

Record stream_choice := mkStreamChoice {
  sc_delta : option delta;
  sc_finish_reason : option string;
}.

Record chunk := mkChunk {
  ch_usage : option upstream_usage;
  ch_choices : list stream_choice;
}.

(** What [json.loads(chunk_data)] gives: a [JSONDecodeError], a JSON value
    that is no object (the [chunk.get] that follows then raises an
    [AttributeError] with the given text), or a chunk. *)
Inductive parsed :=
| DecodeError
| NotAnObject (error_str : string)
| Parsed (c : chunk).

(** What the upstream iterator can raise, with its [str(e)] where the
    translator prints it. *)
Inductive stream_exn :=
| StreamHTTPException (e : HTTPException) (str : string)
| StreamException (str : string).

Definition stream_exn_str (e : stream_exn) : string :=
  match e with
  | StreamHTTPException _ str | StreamException str => str
  end.

(** ** Source protocol events

    Each constructor stands for the SSE frame
    [event: <name>\ndata: <json>\n\n] that the generator yields. *)

Inductive block_start :=
| StartText
| StartToolUse (id name : string).

Inductive block_delta :=
| TextDelta (text : string)
| InputJsonDelta (partial_json : string).

Inductive sse_event :=
| MessageStart (message_id model : string)
| ContentBlockStart (index : nat) (content_block : block_start)
| Ping
| ContentBlockDelta (index : nat) (delta : block_delta)
| ContentBlockStop (index : nat)
| MessageDelta (stop_reason : string) (usage : usage_data)
| MessageStop
| ErrorEvent (error_type message : string).

(** ** State of one translation *)

(** An entry of [current_tool_calls]. *)
Record tool_call_state := mkToolState {
  ts_id : option string;
  ts_name : option string;
  ts_args_buffer : string;
  ts_json_sent : bool;
  ts_claude_index : option nat;
  ts_started : bool;
}.

(** [current_tool_calls] is a dict; its iteration order is the order in
    which the keys were first inserted, so it is kept as an association
    list in that order. *)
Record stream_state := mkState {
  tool_block_counter : nat;
  current_tool_calls : list (Z * tool_call_state);
  final_stop_reason : string;
  st_usage_data : usage_data;
}.

Definition text_block_index : nat := 0.

Definition zero_usage : usage_data := mkUsageData 0 0 None None.

Definition initial_state : stream_state :=
  mkState 0 [] STOP_END_TURN zero_usage.

Fixpoint dict_lookup {V} (key : Z) (d : list (Z * V)) : option V :=
  match d with
  | [] => None
  | (k, v) :: rest => if (k =? key)%Z then Some v else dict_lookup key rest
  end.

(** [d[key] = v]: in place for a key of [d], at the end for a new key. *)
Fixpoint dict_set {V} (key : Z) (v : V) (d : list (Z * V)) : list (Z * V) :=
  match d with
  | [] => [(key, v)]
  | (k, v') :: rest =>
      if (k =? key)%Z then (k, v) :: rest else (k, v') :: dict_set key v rest
  end.

(** Truthiness of an optional string: present and not empty. *)
Definition truthy_str (s : option string) : bool :=
  match s with
  | Some s => nonempty s
  | None => false
  end.

(** [line[6:]] *)
Fixpoint string_drop (n : nat) (s : string) : string :=
  match n, s with
  | O, _ => s
  | S n', String _ t => string_drop n' t
  | S _, EmptyString => EmptyString
  end.

(** The [if]/[elif] chain on [finish_reason]. *)
Definition stream_stop_reason (finish_reason : string) : string :=
  if String.eqb finish_reason "length" then STOP_MAX_TOKENS
  else if String.eqb finish_reason "tool_calls" || String.eqb finish_reason "function_call"
  then STOP_TOOL_USE
  else if String.eqb finish_reason "stop" then STOP_END_TURN
  else STOP_END_TURN.

(** [if usage:] on a dict. *)
Definition usage_truthy (usage : option upstream_usage) : bool :=
  match usage with
  | None => false
  | Some u =>
      match u_input_tokens u, u_prompt_tokens u, u_output_tokens u, u_completion_tokens u,
            u_cache_creation_input_tokens u, u_cache_read_input_tokens u,
            u_input_tokens_details u, u_other u with
      | None, None, None, None, None, None, None, [] => false
      | _, _, _, _, _, _, _, _ => true
      end
  end.

(** How an iteration of the loop over the upstream lines ends. *)
Inductive control :=
| Next                       (* go on with the next line *)
| Break                      (* [break] *)
| Fail (error_str : string). (* an exception leaves the loop *)

Section Translator.

(** [json.loads] on a chunk payload. *)
Variable json_loads : string → parsed.
(** Whether [json.loads] accepts an argument buffer. *)
Variable json_valid : string → bool.
Variable config : Config.
(** [f"msg_{uuid.uuid4().hex[:24]}"] *)
Variable message_id : string.

(** ** The body of the loop over [delta["tool_calls"]] *)

Definition process_tool_delta (st : stream_state) (tc_delta : tool_call_delta)
    : stream_state * list sse_event :=
  let tc_index := default 0%Z (tcd_index tc_delta) in
  let tool_call :=
    default (mkToolState None None EmptyString false None false)
            (dict_lookup tc_index (current_tool_calls st)) in
  (* update the id *)
  let tool_call :=
    if truthy_str (tcd_id tc_delta)
    then mkToolState (tcd_id tc_delta) (ts_name tool_call) (ts_args_buffer tool_call)
                     (ts_json_sent tool_call) (ts_claude_index tool_call)
                     (ts_started tool_call)
    else tool_call in
  (* update the name *)
  let function_data := default (mkFunctionDelta None None) (tcd_function tc_delta) in
  let tool_call :=
    if truthy_str (fd_name function_data)
    then mkToolState (ts_id tool_call) (fd_name function_data) (ts_args_buffer tool_call)
                     (ts_json_sent tool_call) (ts_claude_index tool_call)
                     (ts_started tool_call)
    else tool_call in
  (* start the content block *)
  let '(counter, tool_call, started_events) :=
    if truthy_str (ts_id tool_call) && truthy_str (ts_name tool_call)
       && negb (ts_started tool_call)
    then
      let counter := S (tool_block_counter st) in
      let claude_index := text_block_index + counter in
      (counter,
       mkToolState (ts_id tool_call) (ts_name tool_call) (ts_args_buffer tool_call)
                   (ts_json_sent tool_call) (Some claude_index) true,
       [ContentBlockStart claude_index
          (StartToolUse (default EmptyString (ts_id tool_call))
                        (default EmptyString (ts_name tool_call)))])
    else (tool_block_counter st, tool_call, []) in
  (* the arguments *)
  let '(tool_call, argument_events) :=
    match fd_arguments function_data with
    | Some arguments =>
        if ts_started tool_call then
          let buffer := ts_args_buffer tool_call +:+ arguments in
          if json_valid buffer && negb (ts_json_sent tool_call)
          then (mkToolState (ts_id tool_call) (ts_name tool_call) buffer true
                            (ts_claude_index tool_call) (ts_started tool_call),
                [ContentBlockDelta (default 0 (ts_claude_index tool_call))
                                   (InputJsonDelta buffer)])
          else (mkToolState (ts_id tool_call) (ts_name tool_call) buffer
                            (ts_json_sent tool_call) (ts_claude_index tool_call)
                            (ts_started tool_call),
                [])
        else (tool_call, [])
    | None => (tool_call, [])
    end in
  (mkState counter (dict_set tc_index tool_call (current_tool_calls st))
           (final_stop_reason st) (st_usage_data st),
   started_events ++ argument_events).

Fixpoint process_tool_deltas (st : stream_state) (tcs : list tool_call_delta)
    : stream_state * list sse_event :=
  match tcs with
  | [] => (st, [])
  | tc_delta :: rest =>
      let '(st, evs) := process_tool_delta st tc_delta in
      let '(st, evs') := process_tool_deltas st rest in
      (st, evs ++ evs')
  end.

(** ** What is done with the first choice of a chunk: text delta, tool
    call deltas, finish reason.  The result tells whether a finish reason
    was seen. *)
Definition process_choice (st : stream_state) (choice : stream_choice)
    : stream_state * list sse_event * bool :=
  let delta := default (mkDelta None None) (sc_delta choice) in
  let text_events :=
    match d_content delta with
    | Some text => [ContentBlockDelta text_block_index (TextDelta text)]
    | None => []
    end in
  let '(st, tool_events) :=
    match d_tool_calls delta with
    | Some tcs => process_tool_deltas st tcs
    | None => (st, [])
    end in
  if truthy_str (sc_finish_reason choice)
  then (mkState (tool_block_counter st) (current_tool_calls st)
                (stream_stop_reason (default EmptyString (sc_finish_reason choice)))
                (st_usage_data st),
        text_events ++ tool_events, true)
  else (st, text_events ++ tool_events, false).

(** ** The teardown: the final events *)

Definition tool_stop (entry : Z * tool_call_state) : option sse_event :=
  match ts_claude_index entry.2 with
  | Some claude_index =>
      if ts_started entry.2 then Some (ContentBlockStop claude_index) else None
  | None => None
  end.

Definition teardown (st : stream_state) (usage : usage_data) : list sse_event :=
  ContentBlockStop text_block_index
  :: omap tool_stop (current_tool_calls st)
  ++ [MessageDelta (final_stop_reason st) usage; MessageStop].

Definition start_events (model : string) : list sse_event :=
  [MessageStart message_id model; ContentBlockStart 0 StartText; Ping].

Definition streaming_error (error_str : string) : sse_event :=
  ErrorEvent "api_error" ("Streaming error: " +:+ error_str).

(** ** [convert_openai_streaming_to_claude] *)

(** One iteration of [async for line in openai_stream]. *)
Definition process_line (st : stream_state) (line : string)
    : stream_state * list sse_event * control :=
  if nonempty (strip line) then
    if String.prefix "data: " line then
      let chunk_data := string_drop 6 line in
      if String.eqb (strip chunk_data) "[DONE]" then (st, [], Break)
      else
        match json_loads chunk_data with
        | DecodeError => (st, [], Next)
        | NotAnObject error_str => (st, [], Fail error_str)
        | Parsed chunk =>
            match ch_choices chunk with
            | [] => (st, [], Next)
            | choice :: _ =>
                let '(st, evs, finished) := process_choice st choice in
                (st, evs, if finished then Break else Next)
            end
        end
    else (st, [], Next)
  else (st, [], Next).

Fixpoint stream_loop (st : stream_state) (lines : list string)
    : stream_state * list sse_event * control :=
  match lines with
  | [] => (st, [], Next)
  | line :: rest =>
      let '(st, evs, c) := process_line st line in
      match c with
      | Next =>
          let '(st, evs', c') := stream_loop st rest in
          (st, evs ++ evs', c')
      | _ => (st, evs, c)
      end
  end.

(** The generator, run to its end on a stream that yields [lines] and then
    stops ([ending = None]) or raises ([ending = Some e]).  The usage of the
    final [message_delta] is the literal of the source. *)
Definition convert_openai_streaming_to_claude (lines : list string)
    (ending : option stream_exn) (model : string) : list sse_event :=
  let '(st, evs, c) := stream_loop initial_state lines in
  start_events model ++ evs ++
  match c, ending with
  | Fail error_str, _ => [streaming_error error_str]
  | Next, Some e => [streaming_error (stream_exn_str e)]
  | _, _ => teardown st (mkUsageData 0 0 None None)
  end.

(** ** [convert_openai_streaming_to_claude_with_cancellation] *)

(** One iteration, after the disconnection check. *)
Definition process_line_with_usage (st : stream_state) (line : string)
    : stream_state * list sse_event * control :=
  if nonempty (strip line) then
    if String.prefix "data: " line then
      let chunk_data := string_drop 6 line in
      if String.eqb (strip chunk_data) "[DONE]" then (st, [], Break)
      else
        match json_loads chunk_data with
        | DecodeError => (st, [], Next)
        | NotAnObject error_str => (st, [], Fail error_str)
        | Parsed chunk =>
            let st :=
              if usage_truthy (ch_usage chunk)
              then mkState (tool_block_counter st) (current_tool_calls st)
                           (final_stop_reason st)
                           (build_usage_data (supports_prompt_cache config)
                              (default empty_usage (ch_usage chunk)))
              else st in
            match ch_choices chunk with
            | [] => (st, [], Next)
            | choice :: _ =>
                (* the guard [and delta["tool_calls"]] skips an empty list,
                   on which the loop would do nothing *)
                let '(st, evs, _) := process_choice st choice in
                (st, evs, Next)
            end
        end
    else (st, [], Next)
  else (st, [], Next).

(** The loop; each line comes with the answer of
    [await http_request.is_disconnected()] at that point. *)
Fixpoint stream_loop_with_cancellation (request_id : string) (client : Dispatch.OpenAIClient)
    (st : stream_state) (lines : list (string * bool))
    : Dispatch.OpenAIClient * stream_state * list sse_event * control :=
  match lines with
  | [] => (client, st, [], Next)
  | (line, disconnected) :: rest =>
      if disconnected
      then ((Dispatch.cancel_request request_id client).2, st, [], Break)
      else
        let '(st, evs, c) := process_line_with_usage st line in
        match c with
        | Next =>
            let '(client, st, evs', c') :=
              stream_loop_with_cancellation request_id client st rest in
            (client, st, evs ++ evs', c')
        | _ => (client, st, evs, c)
        end
  end.

(** How the generator ends: it returns, or the [raise] of the
    [except HTTPException] clause leaves it. *)
Inductive generator_end :=
| Finished
| Reraised (e : HTTPException).

Definition cancelled_event : sse_event :=
  ErrorEvent "cancelled" "Request was cancelled by client".

Definition convert_openai_streaming_to_claude_with_cancellation
    (lines : list (string * bool)) (ending : option stream_exn) (model : string)
    (openai_client : Dispatch.OpenAIClient) (request_id : string)
    : list sse_event * generator_end * Dispatch.OpenAIClient :=
  let '(client, st, evs, c) :=
    stream_loop_with_cancellation request_id openai_client initial_state lines in
  match c, ending with
  | Fail error_str, _ =>
      (start_events model ++ evs ++ [streaming_error error_str], Finished, client)
  | Next, Some (StreamHTTPException e _) =>
      if (status_code e =? 499)%Z
      then (start_events model ++ evs ++ [cancelled_event], Finished, client)
      else (start_events model ++ evs, Reraised e, client)
  | Next, Some (StreamException str) =>
      (start_events model ++ evs ++ [streaming_error str], Finished, client)
  | _, _ =>
      (start_events model ++ evs ++ teardown st (st_usage_data st), Finished, client)
  end.

End Translator.

(** ** Specification-level vocabulary *)

(** The output indices of the tool blocks opened in an event list. *)
Definition tool_starts (evs : list sse_event) : list nat :=
  omap (λ ev, match ev with
              | ContentBlockStart index (StartToolUse _ _) => Some index
              | _ => None
              end) evs.


(** The output indices of the accumulators that were started, in the
    iteration order of [current_tool_calls]. *)
Definition started_index (entry : Z * tool_call_state) : option nat :=
  match ts_claude_index entry.2 with
  | Some claude_index => if ts_started entry.2 then Some claude_index else None
  | None => None
  end.

Definition started_indices (st : stream_state) : list nat :=
  omap started_index (current_tool_calls st).

(** The contribution of the accumulator of [key] to [started_indices]. *)
Definition held_index (key : Z) (d : list (Z * tool_call_state)) : option nat :=
  match dict_lookup key d with
  | Some old => started_index (key, old)
  | None => None
  end.

(** The invariant of the accumulator table: the started accumulators hold
    the output indices [1 .. tool_block_counter], each one once, and every
    upstream tool index has one accumulator. *)
Definition table_ok (st : stream_state) : Prop :=
  started_indices st ≡ₚ seq 1 (tool_block_counter st)
  ∧ NoDup (current_tool_calls st).*1.

(** The events that the loop over the upstream lines can emit. *)
Definition is_body_event (ev : sse_event) : Prop :=
  match ev with
  | ContentBlockStart index (StartToolUse id name) =>
      1 ≤ index ∧ id ≠ EmptyString ∧ name ≠ EmptyString
  | ContentBlockDelta _ _ => True
  | _ => False
  end.

(** What a piece of the loop that takes the state [st] to [st'] and emits
    [evs] guarantees. *)
Definition step_ok (st st' : stream_state) (evs : list sse_event) : Prop :=
  tool_block_counter st ≤ tool_block_counter st'
  ∧ tool_starts evs
    = seq (S (tool_block_counter st)) (tool_block_counter st' - tool_block_counter st)
  ∧ Forall is_body_event evs
  ∧ (table_ok st → table_ok st').

(** The translation went through its teardown. *)
Definition completed (evs : list sse_event) : Prop := last evs = Some MessageStop.



Definition is_cancelled_error (ev : sse_event) : bool :=
  match ev with
  | ErrorEvent error_type _ => String.eqb error_type "cancelled"
  | _ => false
  end.

Definition is_teardown_event (ev : sse_event) : bool :=
  match ev with
  | ContentBlockStop _ | MessageDelta _ _ | MessageStop => true
  | _ => false
  end.

(** The claim on a detected disconnection: one error event of type
    "cancelled" and none of the teardown events. *)
Definition cancelled_without_teardown (evs : list sse_event) : Prop :=
  length (filter (λ ev, is_cancelled_error ev = true) evs) = 1
  ∧ filter (λ ev, is_teardown_event ev = true) evs = [].

(** The usage of the [message_delta] events of an event list. *)
Definition reported_usage (evs : list sse_event) : list usage_data :=
  omap (λ ev, match ev with MessageDelta _ usage => Some usage | _ => None end) evs.

(** ** Examples

    The payloads of the example lines are named, not spelled out; [demo_loads]
    decodes
    - [chunk-hello]: choices [[{delta: {content: Hi}}]] and
      usage [{prompt_tokens: 5, completion_tokens: 7}];
    - [chunk-tool]: choices [[{delta: {tool_calls: [{index: 0, id: call_1,
      function: {name: get_weather}}]}}]];
    and rejects anything else. *)
Definition demo_loads (chunk_data : string) : parsed :=
  if String.eqb chunk_data "chunk-hello" then
    Parsed (mkChunk
      (Some (mkUsage None (Some 5%Z) None (Some 7%Z) None None None []))
      [mkStreamChoice (Some (mkDelta (Some "Hi") None)) None])
  else if String.eqb chunk_data "chunk-tool" then
    Parsed (mkChunk None
      [mkStreamChoice
         (Some (mkDelta None
            (Some [mkToolDelta (Some 0%Z) (Some "call_1")
                     (Some (mkFunctionDelta (Some "get_weather") None))])))
         None])
  else DecodeError.

Definition demo_valid (buffer : string) : bool := String.eqb buffer "{}".

Definition demo_config : Config := mkConfig false 100 4096.

Definition demo_plain (lines : list string) (ending : option stream_exn) : list sse_event :=
  convert_openai_streaming_to_claude demo_loads demo_valid "msg_0000" lines ending
    "claude-3-5-sonnet-20241022".

Definition demo_registry : Dispatch.OpenAIClient :=
  Dispatch.mkClient (KeyManager.init ["sk-a"] 300) {["req-1" := false]}.

Definition demo_cancellable (lines : list (string * bool)) (ending : option stream_exn)
    : list sse_event * generator_end * Dispatch.OpenAIClient :=
  convert_openai_streaming_to_claude_with_cancellation demo_loads demo_valid demo_config
    "msg_0000" lines ending "claude-3-5-sonnet-20241022" demo_registry "req-1".

(** ** More vocabulary *)

(** A line on which an iteration of the loop does nothing and goes on: a
    blank line, a line that does not start with [data: ], or a payload
    other than the end marker that [json.loads] rejects. *)
Definition ignored_line (json_loads : string → parsed) (line : string) : bool :=
  negb (nonempty (strip line))
  || negb (String.prefix "data: " line)
  || (negb (String.eqb (strip (string_drop 6 line)) "[DONE]")
      && match json_loads (string_drop 6 line) with
         | DecodeError => true
         | _ => false
         end).

(** A line that carries the end marker. *)
Definition is_done_line (line : string) : bool :=
  nonempty (strip line) && String.prefix "data: " line
  && String.eqb (strip (string_drop 6 line)) "[DONE]".

(** The text that the first choice of the chunk on a line carries. *)
Definition line_text (json_loads : string → parsed) (line : string) : option string :=
  if nonempty (strip line) && String.prefix "data: " line
     && negb (String.eqb (strip (string_drop 6 line)) "[DONE]")
  then match json_loads (string_drop 6 line) with
       | Parsed chunk =>
           match ch_choices chunk with
           | choice :: _ => d_content (default (mkDelta None None) (sc_delta choice))
           | [] => None
           end
       | _ => None
       end
  else None.

(** The texts of the text deltas of an event list, in order. *)
Definition text_deltas (evs : list sse_event) : list string :=
  omap (λ ev, match ev with
              | ContentBlockDelta _ (TextDelta text) => Some text
              | _ => None
              end) evs.

(** The block indices and the payloads of the argument deltas of an event
    list, in order. *)
Definition json_deltas (evs : list sse_event) : list (nat * string) :=
  omap (λ ev, match ev with
              | ContentBlockDelta index (InputJsonDelta partial_json) =>
                  Some (index, partial_json)
              | _ => None
              end) evs.

(** The events that end a translation. *)
Definition is_terminal (ev : sse_event) : bool :=
  match ev with
  | MessageStop | ErrorEvent _ _ => true
  | _ => false
  end.

Definition is_message_start (ev : sse_event) : bool :=
  match ev with MessageStart _ _ => true | _ => false end.

Definition is_message_delta (ev : sse_event) : bool :=
  match ev with MessageDelta _ _ => true | _ => false end.

(** The stop reasons of the [message_delta] events of an event list. *)
Definition reported_stop_reasons (evs : list sse_event) : list string :=
  omap (λ ev, match ev with MessageDelta stop_reason _ => Some stop_reason | _ => None end)
       evs.

(** An event list that is framed as one translation: it opens with the
    three start events, has one [message_start], ends with its only
    terminal event when it has one ([terminals] is 1) or has none
    ([terminals] is 0), and reports at most one stop reason, a stop
    reason of the source protocol, exactly when it is completed. *)
Definition well_framed (message_id model : string) (terminals : nat)
    (evs : list sse_event) : Prop :=
  take 3 evs = [MessageStart message_id model; ContentBlockStart 0 StartText; Ping]
  ∧ length (filter (λ ev, is_message_start ev = true) evs) = 1
  ∧ length (filter (λ ev, is_terminal ev = true) evs) = terminals
  ∧ (terminals = 1 → ∃ ev, last evs = Some ev ∧ is_terminal ev = true)
  ∧ Forall (λ r, r ∈ [STOP_END_TURN; STOP_MAX_TOKENS; STOP_TOOL_USE])
           (reported_stop_reasons evs)
  ∧ length (reported_stop_reasons evs) ≤ 1
  ∧ (length (reported_stop_reasons evs) = 1 ↔ completed evs).

(** What holds of every accumulator: arguments are sent only for a
    started block, and a started block has its output index. *)
Definition accumulator_ok (ts : tool_call_state) : Prop :=
  (ts_json_sent ts = true → ts_started ts = true)
  ∧ (ts_started ts = true → is_Some (ts_claude_index ts)).

(** The output index under which an accumulator has sent its arguments. *)
Definition sent_index (entry : Z * tool_call_state) : option nat :=
  if ts_json_sent entry.2 && ts_started entry.2 then ts_claude_index entry.2 else None.

(** What a piece of the loop that takes the state [st] to [st'] and emits
    [evs] guarantees about argument deltas: the accumulators stay
    consistent, the blocks that have sent their arguments are those that
    had and those of the deltas in [evs], and every delta in [evs] carries
    a buffer that [json.loads] accepts. *)
Definition json_step_ok (json_valid : string → bool) (st st' : stream_state)
    (evs : list sse_event) : Prop :=
  Forall accumulator_ok (current_tool_calls st).*2 →
  Forall accumulator_ok (current_tool_calls st').*2
  ∧ omap sent_index (current_tool_calls st')
    ≡ₚ (json_deltas evs).*1 ++ omap sent_index (current_tool_calls st)
  ∧ Forall (λ p, json_valid p.2 = true) (json_deltas evs).

End Streaming.

(* ===================================================================== *)
(** * Configuration ([src/core/config.py]) *)
(* ===================================================================== *)

Module Settings.

(** What [Config()] can raise: the two [ValueError]s of the constructor,
    and the [ValueError] of [int()] on a text that is no integer literal. *)
Inductive config_error :=
| ValueError (msg : string)
| InvalidLiteral (text : string).

(** The attributes of [Config]. *)
Record Config := mkSettings {
  openai_api_keys : list string;
  openai_api_key : string;
  anthropic_api_key : option string;
  openai_base_url : string;
  azure_api_version : option string;
  host : string;
  port : Z;
  log_level : string;
  max_tokens_limit : Z;
  min_tokens_limit : Z;
  request_timeout : Z;
  max_retries : Z;
  big_model : string;
  middle_model : string;
  small_model : string;
}.

(** [s.split(sep)] for a one-character separator. *)
Fixpoint split (sep : ascii) (s : string) : list string :=
  match s with
  | EmptyString => [EmptyString]
  | String c t =>
      if Ascii.eqb c sep then EmptyString :: split sep t
      else match split sep t with
           | p :: ps => String c p :: ps
           | [] => [String c EmptyString]
           end
  end.

(** [[key.strip() for key in s.split(",") if key.strip()]] *)
Definition parse_api_keys (openai_api_key_str : string) : list string :=
  omap (λ key, if nonempty (strip key) then Some (strip key) else None)
       (split "," openai_api_key_str).

(** Truthiness of [os.environ.get(name)]. *)
Definition env_truthy (value : option string) : bool :=
  match value with
  | Some s => nonempty s
  | None => false
  end.

Section Init.

(** [int(text)]; [None] when it raises. *)
Variable py_int : string → option Z.

(** [int(os.environ.get(name, fallback))] *)
Definition env_int (environ : gmap string string) (name fallback : string)
    : outcome config_error Z :=
  let text := default fallback (environ !! name) in
  match py_int text with
  | Some n => Returned n
  | None => Raised (InvalidLiteral text)
  end.

(** [Config.__init__], on the environment [environ]. *)
Definition Config_init (environ : gmap string string) : outcome config_error Config :=
  let openai_api_key_str := environ !! "OPENAI_API_KEY" in
  if env_truthy openai_api_key_str then
    let openai_api_keys := parse_api_keys (default EmptyString openai_api_key_str) in
    match openai_api_keys with
    | [] => Raised (ValueError "No valid OPENAI_API_KEY found in environment variables")
    | openai_api_key :: _ =>
        match env_int environ "PORT" "8082" with
        | Raised e => Raised e
        | Returned port =>
        match env_int environ "MAX_TOKENS_LIMIT" "4096" with
        | Raised e => Raised e
        | Returned max_tokens_limit =>
        match env_int environ "MIN_TOKENS_LIMIT" "100" with
        | Raised e => Raised e
        | Returned min_tokens_limit =>
        match env_int environ "REQUEST_TIMEOUT" "90" with
        | Raised e => Raised e
        | Returned request_timeout =>
        match env_int environ "MAX_RETRIES" "2" with
        | Raised e => Raised e
        | Returned max_retries =>
            let big_model := default "gpt-4o" (environ !! "BIG_MODEL") in
            Returned (mkSettings
              openai_api_keys
              openai_api_key
              (environ !! "ANTHROPIC_API_KEY")
              (default "https://api.openai.com/v1" (environ !! "OPENAI_BASE_URL"))
              (environ !! "AZURE_API_VERSION")
              (default "0.0.0.0" (environ !! "HOST"))
              port
              (default "INFO" (environ !! "LOG_LEVEL"))
              max_tokens_limit
              min_tokens_limit
              request_timeout
              max_retries
              big_model
              (default big_model (environ !! "MIDDLE_MODEL"))
              (default "gpt-4o-mini" (environ !! "SMALL_MODEL")))
        end end end end end
    end
  else Raised (ValueError "OPENAI_API_KEY not found in environment variables").

End Init.

(** [validate_api_key] *)
Fixpoint all_start_with_sk (keys : list string) : bool :=
  match keys with
  | [] => true
  | key :: rest => if String.prefix "sk-" key then all_start_with_sk rest else false
  end.

Definition validate_api_key (config : Config) : bool :=
  match openai_api_keys config with
  | [] => false
  | keys => all_start_with_sk keys
  end.

(** [get_api_key_count] *)
Definition get_api_key_count (config : Config) : nat := length (openai_api_keys config).

(** [validate_client_api_key]; the client key is [None] when the caller
    passes [None]. *)
Definition validate_client_api_key (config : Config) (client_api_key : option string)
    : bool :=
  if env_truthy (anthropic_api_key config)
  then bool_decide (client_api_key = anthropic_api_key config)
  else true.

(** A string without the character [c]. *)
Fixpoint free_of (c : ascii) (s : string) : bool :=
  match s with
  | EmptyString => true
  | String a t => negb (Ascii.eqb a c) && free_of c t
  end.




(** An [int()] for the examples: the literals of the defaults. *)
Definition demo_int (text : string) : option Z :=
  if String.eqb text "8082" then Some 8082%Z
  else if String.eqb text "4096" then Some 4096%Z
  else if String.eqb text "100" then Some 100%Z
  else if String.eqb text "90" then Some 90%Z
  else if String.eqb text "2" then Some 2%Z
  else None.

(** An environment that sets two keys, with blanks and a trailing comma,
    and the configuration read from it. *)
Definition demo_environ : gmap string string :=
  {["OPENAI_API_KEY" := " sk-a , sk-b,"]}.

Definition demo_settings : Config :=
  mkSettings ["sk-a"; "sk-b"] "sk-a" None "https://api.openai.com/v1" None "0.0.0.0"
    8082 "INFO" 4096 100 90 2 "gpt-4o" "gpt-4o" "gpt-4o-mini".

End Settings.

(* ===================================================================== *)
(** * Properties *)
(* ===================================================================== *)

Module KeyManagerFacts.
Import KeyManager.

(** ** The methods on small pools *)

Example round_robin_order :
  let m0 := init ["a"; "b"; "c"] 300 in
  let r1 := get_next_key 0 m0 in
  let r2 := get_next_key 1 r1.2 in
  let r3 := get_next_key 2 r2.2 in
  let r4 := get_next_key 3 r3.2 in
  (r1.1, r2.1, r3.1, r4.1)
  = (Returned (Some "a"), Returned (Some "b"), Returned (Some "c"), Returned (Some "a")).
Proof. vm_compute. reflexivity. Qed.

Example cooldown_boundary :
  (get_next_key 400 demo_manager).1 = Returned (Some "sk-b")
  ∧ (get_next_key 401 demo_manager).1 = Returned (Some "sk-a")
  ∧ get_available_key_count 400 demo_manager = 1
  ∧ get_available_key_count 401 demo_manager = 2.
Proof. vm_compute. repeat split; reflexivity. Qed.

Example all_in_cooldown :
  (get_next_key 110 (mark_key_failed 105 "sk-b" demo_manager)).1 = Returned None.
Proof. vm_compute. reflexivity. Qed.

(** ** Eviction *)

Lemma evict_lookup_None now cd (failed : gmap string Z) k :
  evict now cd failed !! k = None ↔
  (failed !! k = None ∨ ∃ t, failed !! k = Some t ∧ cooldown_over now cd t).
Proof.
  unfold evict. rewrite map_lookup_filter_None. split.
  - intros [H | H]; [by left |].
    destruct (failed !! k) as [t|] eqn:E; [| by left].
    right. exists t. split; [done |].
    specialize (H t eq_refl). simpl in H.
    destruct (decide (cooldown_over now cd t)); [done | contradiction].
  - intros [H | (t & Ht & Hover)]; [by left |].
    right. intros t' Ht'. simpl. rewrite Ht in Ht'. injection Ht' as <-. tauto.
Qed.

Lemma evict_lookup_Some now cd (failed : gmap string Z) k :
  is_Some (evict now cd failed !! k) ↔
  ∃ t, failed !! k = Some t ∧ ¬ cooldown_over now cd t.
Proof.
  unfold evict. split.
  - intros [t Ht]. apply map_lookup_filter_Some in Ht as [Ht Hn]. eauto.
  - intros (t & Ht & Hn). exists t. by apply map_lookup_filter_Some.
Qed.

(** After eviction, membership in the cooldown map is [in_cooldown]. *)
Lemma evicted_iff_in_cooldown now m k :
  evict now (cooldown_period m) (failed_keys m) !! k ≠ None ↔ in_cooldown now m k.
Proof.
  unfold in_cooldown. rewrite <- evict_lookup_Some.
  destruct (evict _ _ _ !! k); split; intros H; try done; by destruct H.
Qed.

Lemma key_available_false now m k :
  key_available now m k = false ↔ in_cooldown now m k.
Proof.
  unfold key_available, in_cooldown.
  destruct (failed_keys m !! k) as [t|]; split.
  - intros H. exists t. split; [done |]. by apply bool_decide_eq_false in H.
  - intros (t' & [= <-] & Hn). by apply bool_decide_eq_false.
  - done.
  - by intros (t' & ? & _).
Qed.

(** What one scan of [fuel] iterations from [idx] computes. *)
Lemma scan_spec keys (failed : gmap string Z) fuel :
  ∀ idx, idx < length keys →
    match scan keys failed idx fuel with
    | (Returned (Some k), idx') =>
        ∃ j, j < fuel ∧ candidate keys idx j = Some k ∧ failed !! k = None ∧
             (∀ i, i < j → ∃ k', candidate keys idx i = Some k' ∧ failed !! k' ≠ None) ∧
             idx' = (idx + j + 1) mod length keys
    | (Returned None, idx') =>
        (∀ i, i < fuel → ∃ k', candidate keys idx i = Some k' ∧ failed !! k' ≠ None) ∧
        idx' = (idx + fuel) mod length keys
    | (Raised _, _) => False
    end.
Proof.
  induction fuel as [| fuel IH]; intros idx Hidx; simpl.
  - split; [intros i Hi; lia |]. rewrite Nat.add_0_r. by rewrite Nat.mod_small.
  - destruct (lookup_lt_is_Some_2 keys idx Hidx) as [key Hkey]. rewrite Hkey.
    destruct (length keys) as [| n'] eqn:Hlen; [lia |]. rewrite <- Hlen in *.
    assert (Hcand0 : candidate keys idx 0 = Some key).
    { unfold candidate. by rewrite Nat.add_0_r, Nat.mod_small. }
    assert (Hshift : ∀ j, candidate keys ((idx + 1) mod length keys) j
                          = candidate keys idx (S j)).
    { intros j. unfold candidate. f_equal.
      rewrite Nat.Div0.add_mod_idemp_l. f_equal. lia. }
    case_bool_decide as Hfree.
    + exists 0. split; [lia |]. split; [done |]. split; [done |].
      split; [intros i Hi; lia |]. f_equal; lia.
    + assert (Hidx' : (idx + 1) mod length keys < length keys)
        by (apply Nat.mod_upper_bound; lia).
      specialize (IH _ Hidx').
      destruct (scan keys failed ((idx + 1) mod length keys) fuel) as [[[k|]|e] idx'].
      * destruct IH as (j & Hj & Hc & Hf & Hbefore & ->).
        exists (S j). split; [lia |]. split; [by rewrite <- Hshift |].
        split; [done |]. split.
        -- intros [| i] Hi; [by exists key |].
           rewrite <- Hshift. apply Hbefore. lia.
        -- rewrite <- (Nat.add_assoc _ j 1).
           rewrite Nat.Div0.add_mod_idemp_l. f_equal. lia.
      * destruct IH as [Hall ->]. split.
        -- intros [| i] Hi; [by exists key |].
           rewrite <- Hshift. apply Hall. lia.
        -- rewrite Nat.Div0.add_mod_idemp_l. f_equal. lia.
      * done.
Qed.

(** A circular scan of [length keys] candidates visits every position. *)
Lemma candidate_covers (keys : list string) idx p :
  idx < length keys → p < length keys →
  ∃ j, j < length keys ∧ (idx + j) mod length keys = p.
Proof.
  intros Hidx Hp. destruct (decide (idx ≤ p)) as [Hle | Hgt].
  - exists (p - idx). split; [lia |].
    replace (idx + (p - idx)) with p by lia. by apply Nat.mod_small.
  - exists (length keys - idx + p). split; [lia |].
    replace (idx + (length keys - idx + p)) with (p + 1 * length keys) by lia.
    rewrite Nat.Div0.mod_add. by apply Nat.mod_small.
Qed.

Lemma candidate_elem (keys : list string) idx j k :
  candidate keys idx j = Some k → k ∈ keys.
Proof. unfold candidate. intros H. by eapply list_elem_of_lookup_2. Qed.

Lemma filter_length_all {A} (P : A → Prop) `{!∀ x, Decision (P x)} (l : list A) :
  length (filter P l) = length l ↔ ∀ x, x ∈ l → P x.
Proof.
  induction l as [| a l IH].
  - split; [intros _ x Hx; by apply elem_of_nil in Hx | done].
  - rewrite filter_cons. pose proof (length_filter P l) as Hle.
    destruct (decide (P a)) as [Ha | Ha]; simpl; split.
    + intros Hlen x Hx. apply elem_of_cons in Hx as [-> | Hx]; [done |].
      apply IH; [lia | done].
    + intros Hall. f_equal. apply IH. intros x Hx. apply Hall. by right.
    + intros Hlen. lia.
    + intros Hall. exfalso. apply Ha, Hall. by left.
Qed.

Lemma failed_count_all now m :
  failed_count now m = length (api_keys m) ↔
  ∀ k, k ∈ api_keys m → in_cooldown now m k.
Proof.
  unfold failed_count. rewrite filter_length_all.
  split; intros H k Hk; apply key_available_false; auto.
Qed.

Lemma failed_count_le now m : failed_count now m ≤ length (api_keys m).
Proof. apply length_filter. Qed.

Lemma get_next_key_no_raise now m e :
  cursor_ok m → (get_next_key now m).1 ≠ Raised e.
Proof.
  intros Hok. unfold get_next_key. destruct Hok as [Hnil | Hidx].
  - by rewrite Hnil.
  - pose proof (scan_spec (api_keys m)
      (evict now (cooldown_period m) (failed_keys m)) (length (api_keys m)) _ Hidx) as Hs.
    by destruct (scan _ _ _ _) as [[[k0|]|e0] idx'].
Qed.

(** The cursor invariant holds initially and is kept by every method. *)
Lemma cursor_ok_init keys cd : cursor_ok (init keys cd).
Proof.
  unfold cursor_ok, init; simpl. destruct keys; [by left | right; simpl; lia].
Qed.

Lemma cursor_ok_mark_key_failed now k m :
  cursor_ok m → cursor_ok (mark_key_failed now k m).
Proof. done. Qed.

Lemma cursor_ok_reset_all_failures m :
  cursor_ok m → cursor_ok (reset_all_failures m).
Proof. done. Qed.

Lemma get_next_key_api_keys now m : api_keys (get_next_key now m).2 = api_keys m.
Proof. unfold get_next_key. by destruct (scan _ _ _ _). Qed.

Lemma get_next_key_cooldown_period now m :
  cooldown_period (get_next_key now m).2 = cooldown_period m.
Proof. unfold get_next_key. by destruct (scan _ _ _ _). Qed.

Lemma cursor_ok_get_next_key now m :
  cursor_ok m → cursor_ok (get_next_key now m).2.
Proof.
  intros [Hnil | Hidx]; unfold cursor_ok.
  - left. by rewrite get_next_key_api_keys.
  - right. rewrite get_next_key_api_keys. unfold get_next_key.
    pose proof (scan_spec (api_keys m)
      (evict now (cooldown_period m) (failed_keys m)) (length (api_keys m)) _ Hidx) as Hs.
    destruct (scan _ _ _ _) as [[[k|]|e] idx']; simpl.
    + destruct Hs as (j & _ & _ & _ & _ & ->). apply Nat.mod_upper_bound. lia.
    + destruct Hs as [_ ->]. apply Nat.mod_upper_bound. lia.
    + done.
Qed.

(** C4.  With the cursor inside the credential list, [get_next_key] returns
    only credentials of the pool whose cooldown has elapsed (or that never
    failed); the credential returned is the first such one among at most
    [k = len(api_keys)] candidates taken circularly from the cursor, and the
    cursor moves just past it; a credential is returned whenever one is
    available, in particular whenever the number [f] of credentials in
    cooldown is below [k]; and the answer is "none available" exactly when
    every credential is in cooldown, that is exactly when [f = k]. *)
Theorem get_next_key_round_robin now m :
  cursor_ok m →
  let r := (get_next_key now m).1 in
  let m' := (get_next_key now m).2 in
  (∀ k, r = Returned (Some k) →
     k ∈ api_keys m ∧ ¬ in_cooldown now m k ∧
     ∃ j, j < length (api_keys m) ∧
          candidate (api_keys m) (current_index m) j = Some k ∧
          (∀ i, i < j → ∃ k', candidate (api_keys m) (current_index m) i = Some k'
                               ∧ in_cooldown now m k') ∧
          current_index m' = (current_index m + j + 1) mod length (api_keys m))
  ∧ ((∃ k, k ∈ api_keys m ∧ ¬ in_cooldown now m k) → ∃ k, r = Returned (Some k))
  ∧ (failed_count now m < length (api_keys m) → ∃ k, r = Returned (Some k))
  ∧ (r = Returned None ↔ ∀ k, k ∈ api_keys m → in_cooldown now m k)
  ∧ (r = Returned None ↔ failed_count now m = length (api_keys m)).
Proof.
  intros Hok r m'.
  assert (Hnone : r = Returned None ↔ ∀ k, k ∈ api_keys m → in_cooldown now m k).
  { subst r. unfold get_next_key. destruct Hok as [Hnil | Hidx].
    - rewrite Hnil. simpl. split; [| done].
      intros _ k Hk. by apply elem_of_nil in Hk.
    - pose proof (scan_spec (api_keys m)
        (evict now (cooldown_period m) (failed_keys m)) (length (api_keys m)) _ Hidx) as Hs.
      destruct (scan _ _ _ _) as [[[k|]|e] idx']; simpl.
      + destruct Hs as (j & _ & Hc & Hfree & _). split; [done |].
        intros Hall. apply candidate_elem in Hc.
        apply Hall, evicted_iff_in_cooldown in Hc. done.
      + destruct Hs as [Hall _]. split; [| done]. intros _ k Hk.
        apply list_elem_of_lookup in Hk as [p Hp].
        destruct (candidate_covers (api_keys m) (current_index m) p Hidx) as (j & Hj & Hjp).
        { by eapply lookup_lt_Some. }
        destruct (Hall j Hj) as (k' & Hk' & Hin).
        unfold candidate in Hk'. rewrite Hjp, Hp in Hk'. injection Hk' as <-.
        by apply evicted_iff_in_cooldown.
      + done. }
  assert (Hcases : (∃ k, r = Returned (Some k)) ∨ r = Returned None).
  { subst r. unfold get_next_key. destruct Hok as [Hnil | Hidx].
    - rewrite Hnil. by right.
    - pose proof (scan_spec (api_keys m)
        (evict now (cooldown_period m) (failed_keys m)) (length (api_keys m)) _ Hidx) as Hs.
      destruct (scan _ _ _ _) as [[[k0|]|e] idx']; simpl in *;
        [left; by eexists | by right | done]. }
  assert (Hsome : (∃ k, k ∈ api_keys m ∧ ¬ in_cooldown now m k) →
                  ∃ k, r = Returned (Some k)).
  { intros (k & Hk & Hfree). destruct Hcases as [? | Hr]; [done |].
    exfalso. apply Hfree. by apply Hnone. }
  split; [| split; [done | split; [| split; [done |]]]].
  - intros k Hr. subst r m'. unfold get_next_key in *. destruct Hok as [Hnil | Hidx].
    + rewrite Hnil in Hr. simpl in Hr. done.
    + pose proof (scan_spec (api_keys m)
        (evict now (cooldown_period m) (failed_keys m)) (length (api_keys m)) _ Hidx) as Hs.
      destruct (scan _ _ _ _) as [[[k0|]|e] idx']; simpl in *; try done.
      injection Hr as ->. destruct Hs as (j & Hj & Hc & Hfree & Hbefore & ->).
      split; [by eapply candidate_elem |]. split.
      * intros Hin. by apply evicted_iff_in_cooldown in Hin.
      * exists j. split; [done |]. split; [done |]. split; [| done].
        intros i Hi. destruct (Hbefore i Hi) as (k' & Hk' & Hin).
        exists k'. split; [done |]. by apply evicted_iff_in_cooldown.
  - intros Hlt. destruct Hcases as [? | Hr]; [done |].
    pose proof (proj2 (failed_count_all now m) (proj1 Hnone Hr)). lia.
  - rewrite Hnone. symmetry. apply failed_count_all.
Qed.

Lemma get_next_key_round_robin_witness :
  cursor_ok demo_manager ∧
  (get_next_key 110 demo_manager).1 = Returned (Some "sk-b") ∧
  ("sk-b" ∈ api_keys demo_manager ∧ ¬ in_cooldown 110 demo_manager "sk-b").
Proof.
  assert (Hok : cursor_ok demo_manager) by (right; simpl; lia).
  split; [exact Hok |]. split; [vm_compute; reflexivity |].
  pose proof (get_next_key_round_robin 110 demo_manager Hok) as (H & _).
  destruct (H "sk-b") as (? & ? & _); [vm_compute; reflexivity | done].
Defined.

(** C10.  A manager built on an empty credential list answers "none
    available": the loop bound is zero, so neither the indexing nor the
    modulo is executed and nothing is raised, whatever the clock, the
    cooldown period, the cursor and the recorded failures are; the cursor
    is left where it was. *)
Theorem get_next_key_empty_pool now cooldown index (failed : gmap string Z) :
  (get_next_key now (mkManager [] cooldown index failed)).1 = Returned None
  ∧ current_index (get_next_key now (mkManager [] cooldown index failed)).2 = index
  ∧ (get_next_key now (init [] cooldown)).1 = Returned None.
Proof. repeat split. Qed.


End KeyManagerFacts.

Module DispatchFacts.
Import KeyManager KeyManagerFacts Dispatch.

Lemma consume_yields rid chunks ending c evs r c' :
  consume rid chunks ending c = (evs, r, c') → Forall is_yield evs.
Proof.
  revert c evs r c'. induction chunks as [| [chunk_json cancel_now] rest IH];
    intros c evs r c'; simpl.
  - destruct ending; intros [= <- <- <-]; repeat constructor.
  - destruct (cancellation_seen _ _); [intros [= <- <- <-]; constructor |].
    destruct (consume rid rest ending _) as [[evs0 r0] c0] eqn:E.
    intros [= <- <- <-]. constructor; [done | by eapply IH].
Qed.

Lemma consume_manager rid chunks ending c evs r c' :
  consume rid chunks ending c = (evs, r, c') →
  api_key_manager c' = api_key_manager c.
Proof.
  revert c evs r c'. induction chunks as [| [chunk_json cancel_now] rest IH];
    intros c evs r c'; simpl.
  - destruct ending; by intros [= <- <- <-].
  - assert (Hm : api_key_manager
        match rid with
        | Some rid0 => if cancel_now then (cancel_request rid0 c).2 else c
        | None => c
        end = api_key_manager c).
    { destruct rid as [rid0|]; [| done]. destruct cancel_now; [| done].
      unfold cancel_request. by destruct (active_requests c !! rid0). }
    destruct (cancellation_seen _ _); [by intros [= <- <- <-] |].
    destruct (consume rid rest ending _) as [[evs0 r0] c0] eqn:E.
    intros [= <- <- <-]. by rewrite (IH _ _ _ _ E).
Qed.

(** Splitting a trace at an [except] entry when the trace starts with
    values yielded to the consumer. *)
Lemma split_after_yields (ys : list event) key e tl pre key' e' post :
  Forall is_yield ys →
  ys ++ Caught key e :: tl = pre ++ Caught key' e' :: post →
  (pre = ys ∧ key' = key ∧ e' = e ∧ post = tl) ∨
  (∃ pre', pre = ys ++ Caught key e :: pre' ∧ tl = pre' ++ Caught key' e' :: post).
Proof.
  intros Hys. revert pre. induction Hys as [| y ys Hy Hys IH]; intros pre Heq.
  - destruct pre as [| p pre]; simpl in *.
    + injection Heq as <- <- <-. by left.
    + injection Heq as <- ->. right. by exists pre.
  - destruct pre as [| p pre]; simpl in *.
    + injection Heq as -> _. done.
    + injection Heq as <- Heq. destruct (IH _ Heq) as [(-> & -> & -> & ->) | (pre' & -> & ->)].
      * by left.
      * right. by exists pre'.
Qed.

Lemma retry_loop_shape env rid remaining :
  ∀ n c last tr r c',
    cursor_ok (api_key_manager c) →
    retry_loop env rid remaining n c last = (tr, r, c') →
    (∀ pre key e post, tr = pre ++ Caught key e :: post → after_failure r key e post)
    ∧ (∀ h, last = Some h → tr = [] → r = Raised (Http h))
    ∧ (tr = [] ∨ ∃ key rest, tr = Dispatch key :: rest).
Proof.
  induction remaining as [| remaining IH]; intros n c last tr r c' Hok; simpl.
  - intros [= <- <- <-]. split; [| split].
    + intros pre key e post Heq. by destruct pre.
    + by intros h ->.
    + by left.
  - pose proof (get_next_key_no_raise (t_select env n) (api_key_manager c)) as Hnr.
    pose proof (cursor_ok_get_next_key (t_select env n) (api_key_manager c) Hok) as Hok1.
    destruct (get_next_key (t_select env n) (api_key_manager c)) as [[api_key | pe] m];
      simpl in *; [| by destruct (Hnr pe Hok)].
    assert (Hexhausted : ∀ tr r c',
      ([] : list event,
       Raised (Http (default (mkHTTP 503 "All API keys are temporarily unavailable") last))
         : outcome failure (),
       set_manager m c) = (tr, r, c') →
      (∀ pre key e post, tr = pre ++ Caught key e :: post → after_failure r key e post)
      ∧ (∀ h, last = Some h → tr = [] → r = Raised (Http h))
      ∧ (tr = [] ∨ ∃ key rest, tr = Dispatch key :: rest)).
    { intros tr0 r0 c0 [= <- <- <-]. split; [| split].
      - intros pre key e post Heq. by destruct pre.
      - by intros h ->.
      - by left. }
    destruct api_key as [key |]; [| apply Hexhausted].
    destruct (truthy (Some key)); [| apply Hexhausted].
    destruct (consume rid _ _ (set_manager m c)) as [[evs r0] c0] eqn:Hcons.
    pose proof (consume_yields _ _ _ _ _ _ _ Hcons) as Hys.
    pose proof (consume_manager _ _ _ _ _ _ _ Hcons) as Hm0. simpl in Hm0.
    destruct r0 as [e |].
    + unfold after_failure.
      destruct (classify e) as [h | h] eqn:Hcl.
      * destruct (retry_loop env rid remaining (S n) _ (Some h)) as [[evs' r'] c''] eqn:Hloop.
        intros [= <- <- <-].
        apply IH in Hloop as (Hrec & Hlast & Hhead);
          [| simpl; apply cursor_ok_mark_key_failed; by rewrite Hm0].
        split; [| split].
        -- intros pre key' e' post Heq.
           destruct pre as [| p pre]; [done |]. simpl in Heq. injection Heq as <- Heq.
           apply split_after_yields in Heq as [(-> & -> & -> & ->) | (pre' & -> & Htl)];
             [| | done].
           ++ rewrite Hcl. eexists. split; [done |].
              destruct Hhead as [-> | (k' & rest & ->)]; [left | right; eauto].
              split; [done |]. by apply Hlast.
           ++ destruct pre' as [| p' pre']; [done |]. simpl in Htl.
              injection Htl as <- Htl. by eapply Hrec.
        -- done.
        -- right. eauto.
      * intros [= <- <- <-]. split; [| split].
        -- intros pre key' e' post Heq.
           destruct pre as [| p pre]; [done |]. simpl in Heq. injection Heq as <- Heq.
           replace (evs ++ [Caught key e]) with (evs ++ Caught key e :: []) in Heq by done.
           apply split_after_yields in Heq as [(-> & -> & -> & ->) | (pre' & -> & Htl)];
             [| by destruct pre' | done].
           by rewrite Hcl.
        -- done.
        -- right. eauto.
    + intros [= <- <- <-]. split; [| split].
      * intros pre key' e' post Heq.
        destruct pre as [| p pre]; [done |]. simpl in Heq. injection Heq as <- Heq.
        exfalso. assert (Hin : Caught key' e' ∈ evs).
        { rewrite Heq. apply elem_of_app. right. by left. }
        rewrite Forall_forall in Hys. by apply Hys in Hin.
      * done.
      * right. eauto.
Qed.

Lemma create_chat_completion_stream_shape env rid c :
  cursor_ok (api_key_manager c) →
  ∀ pre key e post,
    (create_chat_completion_stream env rid c).1.1 = pre ++ Caught key e :: post →
    after_failure (create_chat_completion_stream env rid c).1.2 key e post.
Proof.
  intros Hok pre key e post. unfold create_chat_completion_stream.
  set (c0 := match rid with
             | Some rid0 =>
                 if truthy rid
                 then mkClient (api_key_manager c) (<[rid0 := false]> (active_requests c))
                 else c
             | None => c
             end).
  assert (Hok0 : cursor_ok (api_key_manager c0)).
  { subst c0. destruct rid; [| done]. by destruct (truthy _). }
  destruct (retry_loop env rid _ 0 c0 None) as [[tr r] c1] eqn:Hloop. simpl.
  intros Heq. by eapply (retry_loop_shape env rid _ _ _ _ _ _ _ Hok0 Hloop).
Qed.

(** C1, as stated, fails: with two credentials, a stream that breaks with a
    502 after its first chunk has been yielded is followed by a second
    dispatch of the request, with the other credential. *)
Lemma stream_failover_after_output :
  ¬ no_failover_after_output
      (create_chat_completion_stream demo_env None demo_client).1.1.
Proof.
  intros H.
  apply (H [Dispatch "sk-a"] "data: chunk-1"
           [Caught "sk-a" (APIError (Some 502%Z) "Bad gateway"); MarkFailed "sk-a";
            Dispatch "sk-b"; Yield "data: chunk-1"; Yield "data: [DONE]"] "sk-b").
  - vm_compute. reflexivity.
  - rewrite !elem_of_cons. tauto.
Qed.

(** C1, amended.  In a streaming dispatch call a failure is handled in the
    same way whether or not chunks have already been yielded: whatever
    precedes the failure in the trace, an authentication, rate-limit,
    5xx or unclassified failure marks the credential failed and is followed
    by a new dispatch of the request, unless the attempts or the available
    credentials are used up, in which case the call ends with that failure;
    a bad-request or other non-5xx API failure ends the call at once. *)
Theorem stream_failure_handling env rid c :
  cursor_ok (api_key_manager c) →
  let run := create_chat_completion_stream env rid c in
  ∀ pre key e post,
    run.1.1 = pre ++ Caught key e :: post →
    match classify e with
    | Fatal h => post = [] ∧ run.1.2 = Raised (Http h)
    | Retry h =>
        ∃ post', post = MarkFailed key :: post' ∧
                 ((post' = [] ∧ run.1.2 = Raised (Http h)) ∨
                  (∃ key' rest, post' = Dispatch key' :: rest))
    end.
Proof.
  intros Hok run pre key e post Heq.
  exact (create_chat_completion_stream_shape env rid c Hok pre key e post Heq).
Qed.

Lemma stream_failure_handling_witness :
  ∃ post', [MarkFailed "sk-a"; Dispatch "sk-b"; Yield "data: chunk-1"; Yield "data: [DONE]"]
           = MarkFailed "sk-a" :: post' ∧
           ((post' = [] ∧
             (create_chat_completion_stream demo_env None demo_client).1.2
             = Raised (Http (mkHTTP 502 (classify_openai_error "Bad gateway")))) ∨
            (∃ key' rest, post' = Dispatch key' :: rest)).
Proof.
  assert (Hok : cursor_ok (api_key_manager demo_client)) by (right; simpl; lia).
  exact (stream_failure_handling demo_env None demo_client Hok
           [Dispatch "sk-a"; Yield "data: chunk-1"] "sk-a"
           (APIError (Some 502%Z) "Bad gateway")
           [MarkFailed "sk-a"; Dispatch "sk-b"; Yield "data: chunk-1"; Yield "data: [DONE]"]
           eq_refl).
Defined.

End DispatchFacts.

Module RequestFacts.
Import Constants Request.

(** *** Positions and in-place updates *)

Lemma filter_ext_elem {A} (P Q : A → Prop) `{!∀ x, Decision (P x)} `{!∀ x, Decision (Q x)}
    (l : list A) :
  (∀ x, x ∈ l → (P x ↔ Q x)) → filter P l = filter Q l.
Proof.
  induction l as [| a l IH]; intros Hext; [done |].
  rewrite !filter_cons.
  assert (Ha : P a ↔ Q a) by (apply Hext; by left).
  assert (Hl : filter P l = filter Q l) by (apply IH; intros x Hx; apply Hext; by right).
  destruct (decide (P a)), (decide (Q a)); try tauto; by rewrite Hl.
Qed.

Lemma positions_snoc {A} (p : A → bool) (l : list A) (x : A) :
  positions p (l ++ [x]) = positions p l ++ (if p x then [length l] else []).
Proof.
  unfold positions. rewrite length_app. simpl.
  rewrite seq_app, filter_app. simpl. f_equal.
  - apply filter_ext_elem. intros i Hi. apply elem_of_seq in Hi.
    rewrite lookup_app_l by lia. done.
  - rewrite filter_cons, filter_nil.
    rewrite lookup_app_r by lia. rewrite Nat.sub_diag. simpl.
    destruct (p x); by case_decide.
Qed.

Lemma positions_lt {A} (p : A → bool) (l : list A) i :
  i ∈ positions p l → i < length l.
Proof.
  unfold positions. intros Hi. apply list_elem_of_filter in Hi as [_ Hi].
  apply elem_of_seq in Hi. lia.
Qed.

Lemma lastn_0 {A} (l : list A) : lastn 0 l = [].
Proof. unfold lastn. rewrite Nat.sub_0_r. apply drop_all. Qed.

Lemma lastn_snoc {A} k (l : list A) x : lastn (S k) (l ++ [x]) = lastn k l ++ [x].
Proof.
  unfold lastn. rewrite length_app. simpl.
  replace (length l + 1 - S k) with (length l - k) by lia.
  rewrite drop_app_le by lia. done.
Qed.

Lemma lastn_subseteq {A} k (l : list A) x : x ∈ lastn k l → x ∈ l.
Proof. unfold lastn. intros Hx. by eapply subseteq_drop. Qed.

Lemma foldl_alter_snoc {A} (f : A → A) (refs : list nat) (l : list A) x :
  (∀ r, r ∈ refs → r < length l) →
  foldl (λ acc ref, alter f ref acc) (l ++ [x]) refs
  = foldl (λ acc ref, alter f ref acc) l refs ++ [x].
Proof.
  revert l. induction refs as [| r refs IH]; intros l Hrefs; [done |]. simpl.
  rewrite <- IH.
  - f_equal. rewrite alter_app_l; [done |]. apply Hrefs. by left.
  - intros r' Hr'. rewrite length_alter. apply Hrefs. by right.
Qed.

Lemma foldl_alter_length {A} (f : A → A) (refs : list nat) (l : list A) :
  length (foldl (λ acc ref, alter f ref acc) l refs) = length l.
Proof.
  revert l. induction refs as [| r refs IH]; intros l; [done |]. simpl.
  by rewrite IH, length_alter.
Qed.

(** How [alter_last] works on a list that grows at its end. *)
Lemma alter_last_snoc {A} (p : A → bool) (f : A → A) k (l : list A) x :
  alter_last p f k (l ++ [x])
  = if p x
    then match k with
         | O => l ++ [x]
         | S k' => alter_last p f k' l ++ [f x]
         end
    else alter_last p f k l ++ [x].
Proof.
  unfold alter_last. rewrite positions_snoc. destruct (p x).
  - destruct k as [| k'].
    + by rewrite lastn_0.
    + rewrite lastn_snoc, foldl_app. simpl.
      rewrite foldl_alter_snoc.
      * pose proof (foldl_alter_length f (lastn k' (positions p l)) l) as Hlen.
        rewrite <- Hlen, <- (Nat.add_0_r (length (foldl _ _ _))).
        by rewrite alter_app_r.
      * intros r Hr. apply lastn_subseteq in Hr. by eapply positions_lt.
  - rewrite app_nil_r. apply foldl_alter_snoc.
    intros r Hr. apply lastn_subseteq in Hr. by eapply positions_lt.
Qed.

Lemma elem_of_concat {A} (x : A) (ls : list (list A)) :
  x ∈ concat ls → ∃ l, x ∈ l ∧ l ∈ ls.
Proof.
  induction ls as [| l ls IH]; simpl; [by intros ?%elem_of_nil |].
  rewrite elem_of_app. intros [Hx | Hx].
  - exists l. split; [done | by left].
  - destruct (IH Hx) as (l' & ? & ?). exists l'. split; [done | by right].
Qed.

Lemma alter_last_Forall2 {A} (p : A → bool) (f : A → A) (l : list A) :
  ∀ k, Forall2 (λ a b, b = a ∨ (p a = true ∧ b = f a)) l (alter_last p f k l).
Proof.
  induction l as [| x l IH] using rev_ind; intros k; [constructor |].
  rewrite alter_last_snoc. destruct (p x) eqn:Hpx.
  - destruct k as [| k'].
    + apply Forall2_app; [| constructor; [by left | constructor]].
      apply Forall_Forall2_diag, Forall_forall. auto.
    + apply Forall2_app; [apply IH |]. constructor; [by right | constructor].
  - apply Forall2_app; [apply IH |]. constructor; [by left | constructor].
Qed.

Lemma replicate_snoc {A} n (x : A) : replicate n x ++ [x] = replicate (S n) x.
Proof. induction n as [| n IH]; [done |]. simpl. by rewrite IH. Qed.

(** Which of the elements that satisfy [p] have been changed: the last
    [min N k] of them, [N] being their number. *)
Lemma alter_last_marks {A} (p q : A → bool) (f : A → A) (l : list A) :
  (∀ a, p (f a) = p a) →
  (∀ a, a ∈ l → p a = true → q a = false ∧ q (f a) = true) →
  ∀ k,
    let N := length (filter (λ a, p a = true) l) in
    q <$> filter (λ a, p a = true) (alter_last p f k l)
    = replicate (N - N `min` k) false ++ replicate (N `min` k) true.
Proof.
  intros Hpf. induction l as [| x l IH] using rev_ind; intros Hq k; [done |].
  assert (Hql : ∀ a, a ∈ l → p a = true → q a = false ∧ q (f a) = true).
  { intros a Ha. apply Hq, elem_of_app. by left. }
  assert (Hqx : p x = true → q x = false ∧ q (f x) = true).
  { apply Hq, elem_of_app. right. by left. }
  specialize (IH Hql). rewrite alter_last_snoc. simpl.
  rewrite filter_app, length_app.
  destruct (p x) eqn:Hpx.
  - rewrite (filter_cons_True _ x) by done. simpl.
    destruct Hqx as [Hq0 Hq1]; [done |].
    destruct k as [| k'].
    + rewrite filter_app, (filter_cons_True _ x) by done. rewrite fmap_app. simpl.
      rewrite Hq0, Nat.min_0_r, Nat.sub_0_r, app_nil_r.
      specialize (IH 0). simpl in IH.
      rewrite Nat.min_0_r, Nat.sub_0_r, app_nil_r in IH.
      unfold alter_last in IH. rewrite lastn_0 in IH. simpl in IH. rewrite IH.
      rewrite Nat.add_1_r. by rewrite replicate_snoc.
    + rewrite filter_app, (filter_cons_True _ (f x)) by (by rewrite Hpf).
      rewrite fmap_app. simpl. rewrite Hq1, (IH k').
      rewrite Nat.add_1_r, <- Nat.succ_min_distr. simpl.
      by rewrite <- app_assoc, replicate_snoc.
  - rewrite (filter_cons_False _ x) by (by rewrite Hpx). simpl.
    rewrite filter_app, (filter_cons_False _ x) by (by rewrite Hpx).
    rewrite app_nil_r, Nat.add_0_r. apply IH.
Qed.

(** The reference to the last text part. *)
Lemma last_positions_Some {A} (p : A → bool) (l : list A) i :
  last (positions p l) = Some i →
  ∃ l1 x l2, l = l1 ++ x :: l2 ∧ length l1 = i ∧ p x = true
             ∧ Forall (λ y, p y = false) l2.
Proof.
  induction l as [| x l IH] using rev_ind; [done |].
  rewrite positions_snoc. destruct (p x) eqn:Hpx.
  - rewrite last_snoc. intros [= <-]. exists l, x, []. by repeat split.
  - rewrite app_nil_r. intros Hlast.
    destruct (IH Hlast) as (l1 & y & l2 & -> & Hlen & Hy & Hl2).
    exists l1, y, (l2 ++ [x]). rewrite <- app_assoc. repeat split; try done.
    apply Forall_app. split; [done |]. by repeat constructor.
Qed.

Lemma last_positions_None {A} (p : A → bool) (l : list A) :
  last (positions p l) = None → Forall (λ y, p y = false) l.
Proof.
  induction l as [| x l IH] using rev_ind; [constructor |].
  rewrite positions_snoc. destruct (p x) eqn:Hpx.
  - by rewrite last_snoc.
  - rewrite app_nil_r. intros Hlast. apply Forall_app. split; [by apply IH |].
    by repeat constructor.
Qed.

Lemma mark_last_text_part_spec parts :
  marked_version (TParts parts) (TParts (mark_last_text_part parts)).
Proof.
  unfold mark_last_text_part.
  destruct (last (positions is_text_part parts)) as [i |] eqn:Hlast.
  - apply last_positions_Some in Hlast as (l1 & x & l2 & -> & <- & Hx & Hl2).
    rewrite <- (Nat.add_0_r (length l1)), alter_app_r. simpl.
    destruct x as [text flag | url]; [| done]. by constructor.
  - apply last_positions_None in Hlast. by constructor.
Qed.

Lemma marked_version_has_marker c c' :
  marked_version c c' →
  match c' with TParts parts => existsb part_marked parts = true | _ => False end.
Proof.
  destruct 1 as [s | before text flag after _ | parts _]; [done | |].
  - rewrite existsb_app. simpl. by rewrite orb_true_r.
  - rewrite existsb_app. simpl. by rewrite orb_true_r.
Qed.

Lemma add_cache_control_annotated msg :
  is_user msg = true → annotated msg (add_cache_control msg).
Proof.
  intros Hu. destruct msg as [r c id calls]. unfold add_cache_control. simpl.
  destruct c as [| s | parts].
  - by left.
  - right. repeat split; try done. simpl. apply marked_str.
  - right. repeat split; try done. apply mark_last_text_part_spec.
Qed.

Lemma add_cache_control_role msg : is_user (add_cache_control msg) = is_user msg.
Proof. done. Qed.

Lemma add_cache_control_marker msg :
  t_content msg ≠ TNone → has_cache_marker (add_cache_control msg) = true.
Proof.
  intros Hc. destruct msg as [r c id calls]. unfold add_cache_control, has_cache_marker.
  simpl in *. destruct c as [| s | parts]; [done | done |].
  exact (marked_version_has_marker _ _ (mark_last_text_part_spec parts)).
Qed.

Lemma annotate_user_messages_alt msgs :
  annotate_user_messages msgs = alter_last is_user add_cache_control 2 msgs.
Proof.
  unfold annotate_user_messages, alter_last, last_two, lastn. f_equal.
  destruct (2 <=? length (positions is_user msgs)) eqn:Hlen; [done |].
  apply Nat.leb_gt in Hlen.
  replace (length (positions is_user msgs) - 2) with 0 by lia. done.
Qed.

Section Facts.

Variable json_dumps : json → string.
Variable json_dumps_dict : block_dict → option string.
Variable py_str : json → option string.
Variable py_str_part : json → string.
Variable py_str_dict : block_dict → string.
Variable map_model : string → string.

Lemma o_max_tokens_convert cfg req :
  o_max_tokens (convert_claude_to_openai json_dumps json_dumps_dict
                  py_str py_str_part py_str_dict map_model cfg req)
  = Z.min (Z.max (max_tokens req) (min_tokens_limit cfg)) (max_tokens_limit cfg).
Proof. reflexivity. Qed.

(** The two partitions made by the loop over the parts of a user message. *)
Lemma tool_messages_spec blocks :
  omap (tool_result_message json_dumps_dict py_str py_str_part py_str_dict)
       (filter (λ p, is_tool_result p = true) blocks)
  = (λ tr, mkTarget ROLE_TOOL
             (TStr (parse_tool_result_content json_dumps_dict py_str py_str_part py_str_dict tr.2))
             (Some tr.1) None) <$> tool_results blocks.
Proof.
  induction blocks as [| b blocks IH]; [done |].
  rewrite filter_cons. destruct b; simpl; try done. f_equal. exact IH.
Qed.

Lemma non_tool_messages_spec blocks :
  filter (λ p, is_text_or_image p = true) blocks = plain_blocks blocks.
Proof.
  induction blocks as [| b blocks IH]; [done |].
  rewrite filter_cons. destruct b; simpl; try done; f_equal; exact IH.
Qed.

Lemma plain_blocks_nonempty blocks :
  existsb is_text_or_image blocks = true → plain_blocks blocks ≠ [].
Proof.
  induction blocks as [| b blocks IH]; [done |].
  destruct b; simpl; try done; auto.
Qed.

Lemma convert_user_blocks_spec blocks :
  convert_user_blocks json_dumps_dict py_str py_str_part py_str_dict blocks
  = ((λ tr, mkTarget ROLE_TOOL
              (TStr (parse_tool_result_content json_dumps_dict py_str py_str_part py_str_dict tr.2))
              (Some tr.1) None) <$> tool_results blocks)
    ++ match plain_blocks blocks with
       | [] => []
       | plain => [mkTarget ROLE_USER (_convert_content_blocks_to_openai plain) None None]
       end.
Proof.
  unfold convert_user_blocks. rewrite tool_messages_spec, non_tool_messages_spec.
  by destruct (plain_blocks blocks).
Qed.

(** What the message loop appends for a user message that mixes tool
    results with text or image blocks. *)
Lemma mixed_user_message (blocks : list ContentBlock) :
  existsb is_tool_result blocks = true →
  existsb is_text_or_image blocks = true →
  let out := convert_message json_dumps json_dumps_dict py_str py_str_part py_str_dict
               (mkMessage ROLE_USER (ContentBlocks blocks)) in
  let tool_msgs :=
    (λ tr, mkTarget ROLE_TOOL
             (TStr (parse_tool_result_content json_dumps_dict py_str py_str_part py_str_dict tr.2))
             (Some tr.1) None) <$> tool_results blocks in
  let user_msg :=
    mkTarget ROLE_USER (_convert_content_blocks_to_openai (plain_blocks blocks)) None None in
  out = tool_msgs ++ [user_msg]
  ∧ tool_msgs ≠ []
  ∧ (∀ i msg, out !! i = Some msg →
       (t_role msg = ROLE_TOOL ↔ i < length tool_msgs) ∧
       (t_role msg = ROLE_USER ↔ i = length tool_msgs))
  ∧ (∀ blocks', tool_results blocks' = tool_results blocks →
                plain_blocks blocks' = plain_blocks blocks →
       convert_message json_dumps json_dumps_dict py_str py_str_part py_str_dict
         (mkMessage ROLE_USER (ContentBlocks blocks')) = out).
Proof.
  intros Htool Hplain out tool_msgs user_msg.
  assert (Hout : ∀ bs, convert_message json_dumps json_dumps_dict py_str py_str_part py_str_dict
                         (mkMessage ROLE_USER (ContentBlocks bs))
                       = convert_user_blocks json_dumps_dict py_str py_str_part py_str_dict bs)
    by done.
  assert (Heq : out = tool_msgs ++ [user_msg]).
  { subst out. rewrite Hout, convert_user_blocks_spec.
    apply plain_blocks_nonempty in Hplain. by destruct (plain_blocks blocks). }
  split; [done |]. split; [| split].
  - subst tool_msgs. clear -Htool.
    induction blocks as [| b blocks IH]; [done |]. destruct b; simpl in *; auto; done.
  - intros i msg. rewrite Heq. intros Hi.
    destruct (decide (i < length tool_msgs)) as [Hlt | Hge].
    + rewrite lookup_app_l in Hi by done.
      subst tool_msgs. apply list_lookup_fmap_Some in Hi as (tr & -> & _).
      simpl. split; split; try done; try lia.
    + rewrite lookup_app_r in Hi by lia.
      destruct (i - length tool_msgs) as [| k] eqn:Hk; [| done].
      injection Hi as <-. simpl. split; split; try done; try lia.
  - intros blocks' Ht Hp. rewrite Hout, convert_user_blocks_spec, Ht, Hp.
    subst out. by rewrite Hout, convert_user_blocks_spec.
Qed.

(** *** The messages built before the annotation step *)

Lemma convert_block_unmarked blocks :
  existsb part_marked (omap convert_block blocks) = false.
Proof.
  induction blocks as [| b blocks IH]; [done |]. simpl.
  destruct b as [text | source | |]; simpl; try done.
  destruct (src_type source), (src_media_type source), (src_data source); simpl; try done.
  by destruct (String.eqb _ _).
Qed.

Lemma convert_content_blocks_unmarked blocks :
  match _convert_content_blocks_to_openai blocks with
  | TParts parts => existsb part_marked parts = false
  | TStr _ => True
  | TNone => False
  end.
Proof.
  unfold _convert_content_blocks_to_openai. destruct blocks as [| b blocks]; [done |].
  pose proof (convert_block_unmarked (b :: blocks)) as Hun.
  destruct (omap convert_block (b :: blocks)) as [| [text flag | url] [| part parts]];
    done.
Qed.

Lemma convert_message_unmarked m msg :
  msg ∈ convert_message json_dumps json_dumps_dict py_str py_str_part py_str_dict m →
  has_cache_marker msg = false ∧ (is_user msg = true → t_content msg ≠ TNone).
Proof.
  unfold convert_message. destruct (content m) as [s | blocks].
  - intros ->%list_elem_of_singleton. done.
  - destruct (String.eqb (role m) ROLE_USER).
    + rewrite convert_user_blocks_spec, elem_of_app. intros [Hin | Hin].
      * apply list_elem_of_fmap in Hin as (tr & -> & _). done.
      * pose proof (convert_content_blocks_unmarked (plain_blocks blocks)) as Hun.
        destruct (plain_blocks blocks) as [| b bs] eqn:Hplain;
          [by apply elem_of_nil in Hin |].
        apply list_elem_of_singleton in Hin as ->. unfold has_cache_marker.
        cbn [t_content].
        by destruct (_convert_content_blocks_to_openai (b :: bs)).
    + destruct (String.eqb (role m) ROLE_ASSISTANT); [| by intros ?%elem_of_nil].
      intros ->%list_elem_of_singleton. split; [| done].
      unfold has_cache_marker, convert_assistant_blocks. simpl.
      by destruct (omap block_text _).
Qed.

Lemma system_message_not_user cfg sys msg :
  system_message cfg sys = Some msg → is_user msg = false.
Proof.
  unfold system_message. destruct sys as [sc |]; [| done].
  destruct (_ && _); [| done]. by intros [= <-].
Qed.

Lemma build_messages_elem cfg req msg :
  msg ∈ build_messages json_dumps json_dumps_dict py_str py_str_part py_str_dict cfg req →
  system_message cfg (system req) = Some msg ∨
  ∃ m, m ∈ messages req ∧
       msg ∈ convert_message json_dumps json_dumps_dict py_str py_str_part py_str_dict m.
Proof.
  unfold build_messages. intros Hin.
  assert (Hconcat : msg ∈ concat (convert_message json_dumps json_dumps_dict
                                    py_str py_str_part py_str_dict <$> messages req) →
                    ∃ m, m ∈ messages req ∧
                         msg ∈ convert_message json_dumps json_dumps_dict
                                 py_str py_str_part py_str_dict m).
  { intros (out & Hmsg & Hout)%elem_of_concat.
    apply list_elem_of_fmap in Hout as (m & -> & Hm). eauto. }
  destruct (system_message cfg (system req)) as [sys |]; [| right; auto].
  apply elem_of_cons in Hin as [-> | Hin]; [by left | right; auto].
Qed.

Lemma build_messages_users cfg req msg :
  msg ∈ build_messages json_dumps json_dumps_dict py_str py_str_part py_str_dict cfg req →
  is_user msg = true →
  has_cache_marker msg = false ∧ t_content msg ≠ TNone.
Proof.
  intros [Hsys | (m & _ & Hin)]%build_messages_elem Hu.
  - apply system_message_not_user in Hsys. congruence.
  - apply convert_message_unmarked in Hin as [? ?]. auto.
Qed.

Lemma build_messages_unmarked cfg req msg :
  supports_prompt_cache cfg = false →
  msg ∈ build_messages json_dumps json_dumps_dict py_str py_str_part py_str_dict cfg req →
  has_cache_marker msg = false.
Proof.
  intros Hoff [Hsys | (m & _ & Hin)]%build_messages_elem.
  - unfold system_message in Hsys. destruct (system req) as [sc |]; [| done].
    destruct (_ && _); [| done]. rewrite Hoff in Hsys. by injection Hsys as <-.
  - by apply convert_message_unmarked in Hin as [? _].
Qed.

(** C7.  With the prompt-cache flag enabled, let [N] be the number of
    role-"user" messages of the converted list.  Read in list order, the
    user messages that carry a cache marker are exactly the last
    [min(N, 2)] ones; each message of the result is the message that was
    built, either unchanged or, for a user message, with the marker put on
    its final text element (bare-string content turned into a one-element
    text array, the element "..." appended when there is no text element);
    the user messages that were built carry no marker.  With the flag
    disabled, no message of the result carries a marker. *)
Theorem cache_markers_on_last_two_user_messages cfg req :
  let built := build_messages json_dumps json_dumps_dict py_str py_str_part py_str_dict cfg req in
  let msgs := o_messages (convert_claude_to_openai json_dumps json_dumps_dict
                            py_str py_str_part py_str_dict map_model cfg req) in
  let N := length (filter (λ msg, is_user msg = true) msgs) in
  (supports_prompt_cache cfg = true →
     has_cache_marker <$> filter (λ msg, is_user msg = true) msgs
     = replicate (N - N `min` 2) false ++ replicate (N `min` 2) true
     ∧ Forall2 annotated built msgs)
  ∧ (∀ msg, msg ∈ built → is_user msg = true → has_cache_marker msg = false)
  ∧ (supports_prompt_cache cfg = false →
     ∀ msg, msg ∈ msgs → has_cache_marker msg = false).
Proof.
  intros built msgs N. split; [| split].
  2: { intros msg Hin Hu. by apply (build_messages_users cfg req msg Hin Hu). }
  - intros Hon.
    assert (Hmsgs : msgs = alter_last is_user add_cache_control 2 built).
    { subst msgs built. unfold convert_claude_to_openai. simpl.
      rewrite Hon. apply annotate_user_messages_alt. }
    pose proof (alter_last_marks is_user has_cache_marker add_cache_control built
                  add_cache_control_role) as Hmarks.
    specialize (Hmarks (λ a Ha Hu,
      let H := build_messages_users cfg req a Ha Hu in
      conj (proj1 H) (add_cache_control_marker a (proj2 H))) 2).
    simpl in Hmarks. rewrite <- Hmsgs in Hmarks.
    assert (HN : N = length (filter (λ a, is_user a = true) built)).
    { subst N. rewrite <- (length_fmap has_cache_marker), Hmarks.
      rewrite length_app, !length_replicate. lia. }
    split; [by rewrite HN |].
    rewrite Hmsgs. eapply Forall2_impl; [apply alter_last_Forall2 |].
    intros a b [-> | [Hu ->]]; [by left | by apply add_cache_control_annotated].
  - intros Hoff msg. subst msgs. unfold convert_claude_to_openai. simpl.
    rewrite Hoff. by apply build_messages_unmarked.
Qed.

(** *** A source message inside a request *)

Lemma build_messages_segment cfg req pre m post :
  messages req = pre ++ m :: post →
  ∃ before after,
    build_messages json_dumps json_dumps_dict py_str py_str_part py_str_dict cfg req
    = before
      ++ convert_message json_dumps json_dumps_dict py_str py_str_part py_str_dict m
      ++ after.
Proof.
  intros Hmsgs. unfold build_messages.
  rewrite Hmsgs, fmap_app, fmap_cons, concat_app, concat_cons.
  destruct (system_message cfg (system req)) as [sys |].
  - eexists (sys :: _), _. by rewrite <- app_comm_cons.
  - by eexists _, _.
Qed.

Lemma convert_segment cfg req pre m post :
  messages req = pre ++ m :: post →
  ∃ before seg after,
    o_messages (convert_claude_to_openai json_dumps json_dumps_dict py_str py_str_part py_str_dict
                  map_model cfg req) = before ++ seg ++ after
    ∧ Forall2 annotated
        (convert_message json_dumps json_dumps_dict py_str py_str_part py_str_dict m) seg.
Proof.
  intros Hmsgs.
  destruct (build_messages_segment cfg req pre m post Hmsgs) as (before & after & Hbuilt).
  unfold convert_claude_to_openai. simpl.
  destruct (supports_prompt_cache cfg).
  - rewrite annotate_user_messages_alt.
    pose proof (alter_last_Forall2 is_user add_cache_control
                  (build_messages json_dumps json_dumps_dict py_str py_str_part py_str_dict
                     cfg req) 2)
      as Hall.
    rewrite Hbuilt in Hall at 1.
    apply Forall2_app_inv_l in Hall as (before' & rest' & _ & Hrest & ->).
    apply Forall2_app_inv_l in Hrest as (seg & after' & Hseg & _ & ->).
    exists before', seg, after'. split; [done |].
    eapply Forall2_impl; [exact Hseg |].
    intros a b' [-> | [Hu ->]]; [by left | by apply add_cache_control_annotated].
  - exists before,
      (convert_message json_dumps json_dumps_dict py_str py_str_part py_str_dict m), after.
    split; [done |]. apply Forall_Forall2_diag, Forall_forall. intros; by left.
Qed.

Lemma annotated_not_user l l' :
  Forall (λ msg, is_user msg = false) l → Forall2 annotated l l' → l' = l.
Proof.
  intros Hl Hall. induction Hall as [| a b l l' Hab _ IH]; [done |].
  apply Forall_cons in Hl as [Ha Hl]. rewrite (IH Hl). f_equal.
  destruct Hab as [-> | (Hu & _)]; [done | congruence].
Qed.

(** C6.  A user message whose block content has both tool results and
    text or image blocks is converted to one role-"tool" message per tool
    result, in their order, each with the block's [tool_use_id] as
    [tool_call_id] and the normalized result as content, followed by exactly
    one user message built from the text and image blocks; the outcome
    depends only on the two sub-sequences, not on how the blocks were
    interleaved in the source message.  In the message list of a converted
    request the tool messages and the user message stand in this order,
    side by side (the user message is the one built, with or without the
    cache marker of the annotation step). *)
Theorem tool_results_before_user_content (blocks : list ContentBlock) :
  existsb is_tool_result blocks = true →
  existsb is_text_or_image blocks = true →
  let out := convert_message json_dumps json_dumps_dict py_str py_str_part py_str_dict
               (mkMessage ROLE_USER (ContentBlocks blocks)) in
  let tool_msgs :=
    (λ tr, mkTarget ROLE_TOOL
             (TStr (parse_tool_result_content json_dumps_dict py_str py_str_part py_str_dict tr.2))
             (Some tr.1) None) <$> tool_results blocks in
  let user_msg :=
    mkTarget ROLE_USER (_convert_content_blocks_to_openai (plain_blocks blocks)) None None in
  out = tool_msgs ++ [user_msg]
  ∧ tool_msgs ≠ []
  ∧ (∀ i msg, out !! i = Some msg →
       (t_role msg = ROLE_TOOL ↔ i < length tool_msgs) ∧
       (t_role msg = ROLE_USER ↔ i = length tool_msgs))
  ∧ (∀ blocks', tool_results blocks' = tool_results blocks →
                plain_blocks blocks' = plain_blocks blocks →
       convert_message json_dumps json_dumps_dict py_str py_str_part py_str_dict
         (mkMessage ROLE_USER (ContentBlocks blocks')) = out)
  ∧ (∀ cfg req pre post,
       messages req = pre ++ mkMessage ROLE_USER (ContentBlocks blocks) :: post →
       ∃ before user_msg' after,
         o_messages (convert_claude_to_openai json_dumps json_dumps_dict py_str py_str_part
                       py_str_dict map_model cfg req)
         = before ++ tool_msgs ++ [user_msg'] ++ after
         ∧ annotated user_msg user_msg').
Proof.
  intros Htool Hplain out tool_msgs user_msg.
  destruct (mixed_user_message blocks Htool Hplain) as (Hout & Hne & Hpos & Hperm).
  fold out tool_msgs user_msg in Hout, Hne, Hpos, Hperm.
  split; [done |]. split; [done |]. split; [done |]. split; [done |].
  intros cfg req pre post Hmsgs.
  destruct (convert_segment cfg req pre _ post Hmsgs) as (before & seg & after & Heq & Hseg).
  fold out in Hseg. rewrite Hout in Hseg.
  apply Forall2_app_inv_l in Hseg as (seg1 & seg2 & Hseg1 & Hseg2 & ->).
  apply annotated_not_user in Hseg1 as ->.
  - apply Forall2_cons_inv_l in Hseg2 as (user_msg' & seg3 & Huser & Hnil & ->).
    apply Forall2_nil_inv_l in Hnil as ->.
    exists before, user_msg', after. split; [| done]. by rewrite Heq, <- !app_assoc.
  - subst tool_msgs. apply Forall_fmap, Forall_forall. done.
Qed.

End Facts.

(** ** The converter on the scenarios of the specification and of the
    unit tests *)

Example simple_text_message :
  o_messages (demo_convert (mkConfig false 100 4096)
                (demo_request 100 [mkMessage ROLE_USER (ContentStr "Hello")]))
  = [mkTarget "user" (TStr "Hello") None None].
Proof. reflexivity. Qed.

Example assistant_with_tool_use json_dumps json_dumps_dict py_str py_str_part py_str_dict :
  convert_message json_dumps json_dumps_dict py_str py_str_part py_str_dict
    (mkMessage ROLE_ASSISTANT
       (ContentBlocks [Text "Let me check";
                       ToolUse "w1" "get_weather" (JObj [("city", JStr "London")])]))
  = [mkTarget "assistant" (TStr "Let me check") None
       (Some [mkToolCall "w1" "get_weather"
                (json_dumps (JObj [("city", JStr "London")]))])].
Proof. reflexivity. Qed.

Example assistant_without_tool_calls :
  convert_message demo_dumps demo_dumps_dict demo_str demo_part_str demo_str_dict
    (mkMessage ROLE_ASSISTANT (ContentBlocks [Text "Plain answer"]))
  = [mkTarget "assistant" (TStr "Plain answer") None None].
Proof. reflexivity. Qed.

Example single_text_block_collapses :
  _convert_content_blocks_to_openai [Text "Single text"] = TStr "Single text"
  ∧ _convert_content_blocks_to_openai [] = TStr EmptyString
  ∧ _convert_content_blocks_to_openai
      [Text "Text content";
       Image (mkImageSource (Some "base64") (Some "image/png") (Some "png_data"))]
    = TParts [PText "Text content" false; PImageUrl "data:image/png;base64,png_data"].
Proof. repeat split. Qed.

Example tool_result_list_is_joined :
  parse_tool_result_content demo_dumps_dict demo_str demo_part_str demo_str_dict
    (TRList [PartDict (mkBlockDict (Some "text") (Some "First part") []);
             PartDict (mkBlockDict (Some "image") None [("data", JStr "image_data")]);
             PartDict (mkBlockDict (Some "text") (Some "Second part") [])])
  = join (String "010" EmptyString)
      ["First part"; "(see following user message for image)"; "Second part"].
Proof. reflexivity. Qed.

Example system_blocks_are_joined_and_trimmed :
  build_messages demo_dumps demo_dumps_dict demo_str demo_part_str demo_str_dict
    (mkConfig true 100 4096)
    (mkRequest "claude-3-5-sonnet-20241022" 100 []
       (Some (SystemBlocks [mkSystemBlock "text" " You are"; mkSystemBlock "text" "helpful. "]))
       None None None None None None)
  = [mkTarget "system"
       (TParts [PText (join (String "010" (String "010" EmptyString)) ["You are"; "helpful."])
                  true])
       None None].
Proof. reflexivity. Qed.

Example cache_marker_on_last_text_part :
  t_content <$>
    o_messages (demo_convert (mkConfig true 100 4096) (demo_request 1024 demo_conversation))
  = [TStr "First message"; TStr "First response";
     TParts [PText "Second message" true]; TStr "Second response";
     TParts [PImageUrl "data:image/png;base64,AAAA";
             PText "What is in these pictures?" true;
             PImageUrl "data:image/png;base64,BBBB"]].
Proof. reflexivity. Qed.

Lemma cache_markers_on_last_two_user_messages_witness :
  has_cache_marker <$>
    filter (λ msg, is_user msg = true)
      (o_messages (demo_convert (mkConfig true 100 4096) (demo_request 1024 demo_conversation)))
  = [false; true; true].
Proof.
  exact (proj1 (proj1 (cache_markers_on_last_two_user_messages
                         demo_dumps demo_dumps_dict demo_str demo_part_str demo_str_dict demo_map
                         (mkConfig true 100 4096) (demo_request 1024 demo_conversation))
                      eq_refl)).
Defined.

Lemma tool_results_before_user_content_witness :
  convert_message demo_dumps demo_dumps_dict demo_str demo_part_str demo_str_dict
    (mkMessage ROLE_USER (ContentBlocks
       [Text "Here is the context after tool execution:";
        ToolResult "tool-456" (TRStr "Tool execution completed successfully")]))
  = [mkTarget ROLE_TOOL (TStr "Tool execution completed successfully") (Some "tool-456") None;
     mkTarget ROLE_USER (TStr "Here is the context after tool execution:") None None].
Proof.
  exact (proj1 (tool_results_before_user_content demo_dumps demo_dumps_dict
                  demo_str demo_part_str demo_str_dict demo_map
                  [Text "Here is the context after tool execution:";
                   ToolResult "tool-456" (TRStr "Tool execution completed successfully")]
                  eq_refl eq_refl)).
Defined.

(** C8, as stated, fails: with [min_tokens_limit = 100] and
    [max_tokens_limit = 50] a request for 10 tokens is converted to 50,
    which is below the minimum. *)
Lemma max_tokens_outside_limits :
  let cfg := mkConfig false 100 50 in
  ¬ (min_tokens_limit cfg ≤ o_max_tokens (demo_convert cfg (demo_request 10 []))
     ≤ max_tokens_limit cfg)%Z.
Proof. vm_compute. intros [H _]. by apply H. Qed.

(** C8, amended.  The converted [max_tokens] equals
    [min(max(requested, min_limit), max_limit)] for every requested value;
    it never exceeds [max_limit], and it lies within
    [[min_limit, max_limit]] whenever [min_limit <= max_limit]. *)
Theorem max_tokens_clamped json_dumps json_dumps_dict py_str py_str_part py_str_dict
    map_model cfg req :
  let out := o_max_tokens (convert_claude_to_openai json_dumps json_dumps_dict
                             py_str py_str_part py_str_dict map_model cfg req) in
  out = Z.min (Z.max (max_tokens req) (min_tokens_limit cfg)) (max_tokens_limit cfg)
  ∧ (out ≤ max_tokens_limit cfg)%Z
  ∧ ((min_tokens_limit cfg ≤ max_tokens_limit cfg)%Z →
     (min_tokens_limit cfg ≤ out ≤ max_tokens_limit cfg)%Z
     ∧ ((max_tokens req < min_tokens_limit cfg)%Z → out = min_tokens_limit cfg)
     ∧ ((max_tokens req > max_tokens_limit cfg)%Z → out = max_tokens_limit cfg)
     ∧ ((min_tokens_limit cfg ≤ max_tokens req ≤ max_tokens_limit cfg)%Z →
        out = max_tokens req)).
Proof.
  intros out. subst out. rewrite o_max_tokens_convert. repeat split; lia.
Qed.

Lemma max_tokens_clamped_witness :
  (100 ≤ o_max_tokens (demo_convert (mkConfig false 100 4096) (demo_request 10 []))
   ≤ 4096)%Z.
Proof.
  pose proof (max_tokens_clamped demo_dumps demo_dumps_dict demo_str demo_part_str demo_str_dict
                demo_map (mkConfig false 100 4096) (demo_request 10 [])) as (_ & _ & H).
  apply H. simpl. lia.
Defined.

End RequestFacts.

Module ResponseFacts.
Import Constants Response.

(** ** The converter on the scenarios of the specification and of the
    unit tests *)

Example data_url_is_parsed :
  parse_data_url "data:image/jpeg;base64,/9j/4AAQSkZJRgABAQAAAQABAAD"
  = Returned ("image/jpeg", "/9j/4AAQSkZJRgABAQAAAQABAAD")
  ∧ parse_data_url "data:malformed-without-comma" = Raised ValueError.
Proof. split; reflexivity. Qed.

Example image_items py_str_item :
  convert_item py_str_item (Some (mkItem (Some "image_url") None (Some "https://x/y.jpg")))
  = [TextBlock "[Image: https://x/y.jpg]"]
  ∧ convert_item py_str_item
      (Some (mkItem (Some "image_url") None (Some "data:malformed-without-comma")))
    = [TextBlock "[Image content]"]
  ∧ convert_item py_str_item
      (Some (mkItem (Some "image_url") None (Some "data:image/png;base64,AAAA")))
    = [ImageBlock "image/png" "AAAA"]
  ∧ convert_item py_str_item (Some (mkItem (Some "text") (Some EmptyString) None)) = [].
Proof. repeat split. Qed.

Example stop_reasons :
  map_stop_reason "stop" = "end_turn"
  ∧ map_stop_reason "length" = "max_tokens"
  ∧ map_stop_reason "tool_calls" = "tool_use"
  ∧ map_stop_reason "function_call" = "tool_use"
  ∧ map_stop_reason "content_filter" = "end_turn".
Proof. repeat split. Qed.

Example cached_tokens_fallback :
  build_usage_data true
    (mkUsage (Some 328) None (Some 52) None None None (Some (Some 250)) [])%Z
  = mkUsageData 328 52 None (Some 250%Z)
  ∧ build_usage_data true
      (mkUsage (Some 328) None (Some 52) None None (Some 200) (Some (Some 150)) [])%Z
    = mkUsageData 328 52 None (Some 200%Z)
  ∧ build_usage_data true
      (mkUsage None (Some 75) None (Some 25) None None (Some (Some 0)) [])%Z
    = mkUsageData 75 25 None None
  ∧ build_usage_data false
      (mkUsage (Some 328) None (Some 52) None (Some 100) (Some 200) None [])%Z
    = mkUsageData 328 52 None None.
Proof. repeat split. Qed.

Example undecodable_arguments_are_kept :
  convert_tool_call demo_loads demo_tool_id 0
    (mkUpstreamCall (Some "function") (Some "call_1")
       (Some (mkFunction (Some "get_weather") (Some "{city"))))
  = [ToolUseBlock "call_1" "get_weather" (JObj [("raw_arguments", JStr "{city")])].
Proof. reflexivity. Qed.



End ResponseFacts.

Module StreamingFacts.
Import Constants Response Streaming.

(** ** The accumulator table *)

Lemma dict_set_keys {V} key (v : V) (d : list (Z * V)) :
  (dict_set key v d).*1 = if decide (key ∈ d.*1) then d.*1 else d.*1 ++ [key].
Proof.
  induction d as [| [k v'] d IH].
  - destruct (decide (key ∈ [].*1)) as [Hin | Hnin]; [by apply elem_of_nil in Hin | done].
  - cbn [dict_set]. destruct (Z.eqb_spec k key) as [-> | Hne].
    + rewrite decide_True; [done | by left].
    + rewrite fmap_cons, IH. destruct (decide (key ∈ d.*1)) as [Hin | Hnin].
      * rewrite decide_True; [done | by right].
      * rewrite decide_False; [done |].
        intros [? | ?]%elem_of_cons; [simpl in *; congruence | done].
Qed.

Lemma dict_set_NoDup {V} key (v : V) (d : list (Z * V)) :
  NoDup d.*1 → NoDup (dict_set key v d).*1.
Proof.
  intros Hnd. rewrite dict_set_keys. destruct (decide (key ∈ d.*1)); [done |].
  apply NoDup_app. split; [done |]. split; [| apply NoDup_singleton].
  intros x Hx ->%list_elem_of_singleton. done.
Qed.

Lemma started_index_snd k k' ts : started_index (k, ts) = started_index (k', ts).
Proof. done. Qed.

Lemma omap_cons_eq {A B} (f : A → option B) x l :
  omap f (x :: l) = match f x with Some y => y :: omap f l | None => omap f l end.
Proof. done. Qed.

Lemma dict_set_same_index key v d :
  started_index (key, v) = held_index key d →
  omap started_index (dict_set key v d) = omap started_index d.
Proof.
  unfold held_index. induction d as [| [k v'] d IH]; cbn [dict_set dict_lookup].
  - intros Heq. by rewrite omap_cons_eq, Heq.
  - destruct (Z.eqb_spec k key) as [-> | Hne]; intros Heq; rewrite !omap_cons_eq.
    + by rewrite Heq.
    + by rewrite (IH Heq).
Qed.

Lemma dict_set_new_index key v d index :
  held_index key d = None →
  started_index (key, v) = Some index →
  omap started_index (dict_set key v d) ≡ₚ index :: omap started_index d.
Proof.
  unfold held_index. induction d as [| [k v'] d IH]; cbn [dict_set dict_lookup].
  - intros _ Hnew. by rewrite omap_cons_eq, Hnew.
  - destruct (Z.eqb_spec k key) as [-> | Hne]; intros Hold Hnew; rewrite !omap_cons_eq.
    + by rewrite Hold, Hnew.
    + pose proof (IH Hold Hnew) as Hperm.
      destruct (started_index (k, v')) as [i |]; [| done].
      rewrite Hperm. apply Permutation_swap.
Qed.

Lemma seq_1_S n : S n :: seq 1 n ≡ₚ seq 1 (S n).
Proof. rewrite seq_S. simpl. by rewrite Permutation_cons_append. Qed.

Lemma truthy_str_default s : truthy_str s = true → default EmptyString s ≠ EmptyString.
Proof.
  destruct s as [s |]; [| done]. simpl. unfold nonempty.
  destruct (String.eqb_spec s EmptyString); done.
Qed.

Lemma step_ok_refl st : step_ok st st [].
Proof.
  split; [done |]. split; [by rewrite Nat.sub_diag |]. split; [constructor | done].
Qed.

Lemma step_ok_trans st st' st'' evs evs' :
  step_ok st st' evs → step_ok st' st'' evs' → step_ok st st'' (evs ++ evs').
Proof.
  intros (Hle & Hstarts & Hbody & Htable) (Hle' & Hstarts' & Hbody' & Htable').
  split; [lia |]. split; [| split; [by apply Forall_app | auto]].
  unfold tool_starts in *. rewrite omap_app, Hstarts, Hstarts'.
  replace (tool_block_counter st'' - tool_block_counter st)
    with ((tool_block_counter st' - tool_block_counter st)
          + (tool_block_counter st'' - tool_block_counter st')) by lia.
  rewrite seq_app. do 2 f_equal. lia.
Qed.

(** [step_ok] only looks at the counter and at the table. *)
Lemma step_ok_fields st st' evs stop_reason usage :
  step_ok st st' evs →
  step_ok st (mkState (tool_block_counter st') (current_tool_calls st') stop_reason usage) evs.
Proof. intros (Hle & Hstarts & Hbody & Htable). by repeat split; try apply Htable. Qed.

Lemma step_ok_fields_l st st' evs stop_reason usage :
  step_ok (mkState (tool_block_counter st) (current_tool_calls st) stop_reason usage) st' evs →
  step_ok st st' evs.
Proof. intros (Hle & Hstarts & Hbody & Htable). by repeat split; try apply Htable. Qed.


Lemma body_events_no_usage evs : Forall is_body_event evs → reported_usage evs = [].
Proof.
  induction 1 as [| ev evs Hev _ IH]; [done |].
  unfold reported_usage in *. rewrite omap_cons_eq, IH. by destruct ev.
Qed.

Lemma reported_usage_app evs evs' :
  reported_usage (evs ++ evs') = reported_usage evs ++ reported_usage evs'.
Proof. apply omap_app. Qed.

Lemma body_events_last evs : Forall is_body_event evs → last evs ≠ Some MessageStop.
Proof.
  intros Hbody Hlast. apply last_Some_elem_of in Hlast.
  rewrite Forall_forall in Hbody. by apply Hbody in Hlast.
Qed.

Lemma table_ok_initial : table_ok initial_state.
Proof. split; [done | constructor]. Qed.

(** ** The teardown *)

Lemma tool_stop_started entry : tool_stop entry = ContentBlockStop <$> started_index entry.
Proof.
  unfold tool_stop, started_index. destruct (ts_claude_index entry.2); [| done].
  by destruct (ts_started entry.2).
Qed.


Lemma tool_stops_no_starts d : tool_starts (omap tool_stop d) = [].
Proof.
  induction d as [| entry d IH]; [done |].
  rewrite omap_cons_eq, tool_stop_started.
  by destruct (started_index entry) as [index |].
Qed.

Lemma tool_stops_no_usage d : reported_usage (omap tool_stop d) = [].
Proof.
  induction d as [| entry d IH]; [done |].
  rewrite omap_cons_eq, tool_stop_started.
  by destruct (started_index entry) as [index |].
Qed.


Lemma teardown_starts st usage : tool_starts (teardown st usage) = [].
Proof.
  unfold teardown, tool_starts at 1. rewrite omap_cons_eq, omap_app. simpl.
  fold (tool_starts (omap tool_stop (current_tool_calls st))).
  by rewrite tool_stops_no_starts.
Qed.

Lemma teardown_last st usage : last (teardown st usage) = Some MessageStop.
Proof.
  unfold teardown.
  replace (ContentBlockStop text_block_index
           :: omap tool_stop (current_tool_calls st)
           ++ [MessageDelta (final_stop_reason st) usage; MessageStop])
    with ((ContentBlockStop text_block_index
           :: omap tool_stop (current_tool_calls st)
           ++ [MessageDelta (final_stop_reason st) usage]) ++ [MessageStop]).
  - apply last_snoc.
  - simpl. by rewrite <- app_assoc.
Qed.

Lemma teardown_usage st usage : reported_usage (teardown st usage) = [usage].
Proof.
  unfold teardown, reported_usage at 1. rewrite omap_cons_eq, omap_app. simpl.
  fold (reported_usage (omap tool_stop (current_tool_calls st))).
  by rewrite tool_stops_no_usage.
Qed.


(** ** Putting a translation together *)



Section Translator.

Variable json_loads : string → parsed.
Variable json_valid : string → bool.
Variable config : Config.
Variable message_id : string.

(** ** One tool-call delta *)

Lemma process_tool_delta_ok st tc_delta :
  step_ok st (process_tool_delta json_valid st tc_delta).1
             (process_tool_delta json_valid st tc_delta).2.
Proof.
  unfold process_tool_delta.
  set (k := default 0%Z (tcd_index tc_delta)).
  set (old := default (mkToolState None None EmptyString false None false)
                      (dict_lookup k (current_tool_calls st))).
  assert (Hold : started_index (k, old) = held_index k (current_tool_calls st)).
  { unfold held_index, old. by destruct (dict_lookup k (current_tool_calls st)). }
  set (tc1 := if truthy_str (tcd_id tc_delta) then _ else old).
  assert (H1 : ts_started tc1 = ts_started old ∧ ts_claude_index tc1 = ts_claude_index old).
  { unfold tc1. by destruct (truthy_str (tcd_id tc_delta)). }
  set (fd := default (mkFunctionDelta None None) (tcd_function tc_delta)).
  set (tc2 := if truthy_str (fd_name fd) then _ else tc1).
  assert (H2 : ts_started tc2 = ts_started old ∧ ts_claude_index tc2 = ts_claude_index old).
  { unfold tc2. by destruct (truthy_str (fd_name fd)). }
  clearbody tc2. clear tc1 H1.
  destruct H2 as [Hs2 Hi2].
  destruct (truthy_str (ts_id tc2) && truthy_str (ts_name tc2) && negb (ts_started tc2))
    eqn:Hcond.
  - apply andb_prop in Hcond as [Hcond Hns]. apply andb_prop in Hcond as [Hid Hname].
    apply negb_true_iff in Hns.
    assert (Hheld : held_index k (current_tool_calls st) = None).
    { rewrite <- Hold. unfold started_index. simpl. rewrite <- Hs2, Hns.
      by destruct (ts_claude_index old). }
    assert (Hstart : is_body_event
              (ContentBlockStart (text_block_index + S (tool_block_counter st))
                 (StartToolUse (default EmptyString (ts_id tc2))
                               (default EmptyString (ts_name tc2))))).
    { simpl. split; [lia |]. split; by apply truthy_str_default. }
    assert (Htable : ∀ a b c d,
      table_ok st →
      table_ok (mkState (S (tool_block_counter st))
                  (dict_set k (mkToolState a b c d
                                 (Some (text_block_index + S (tool_block_counter st))) true)
                            (current_tool_calls st))
                  (final_stop_reason st) (st_usage_data st))).
    { intros a b c d [Hperm Hnd]. split; [| by apply dict_set_NoDup].
      unfold started_indices. cbn [current_tool_calls tool_block_counter].
      rewrite dict_set_new_index with (index := S (tool_block_counter st));
        [| done | done].
      rewrite Hperm. apply seq_1_S. }
    assert (Hone : S (tool_block_counter st) - tool_block_counter st = 1) by lia.
    destruct (fd_arguments fd) as [arguments |]; cbn [ts_started];
      [destruct (json_valid _ && negb _) |]; cbn [fst snd].
    + split; [simpl; lia |]. split; [simpl; by rewrite Hone |].
      split; [| apply Htable]. constructor; [done |]. by repeat constructor.
    + split; [simpl; lia |]. split; [simpl; by rewrite Hone |].
      split; [| apply Htable]. rewrite app_nil_r. by constructor.
    + split; [simpl; lia |]. split; [simpl; by rewrite Hone |].
      split; [| apply Htable]. rewrite app_nil_r. by constructor.
  - assert (Hsame : ∀ a b c d,
      started_index (k, mkToolState a b c d (ts_claude_index tc2) (ts_started tc2))
      = held_index k (current_tool_calls st)).
    { intros. rewrite <- Hold. unfold started_index. simpl. by rewrite Hs2, Hi2. }
    assert (Hsame' : started_index (k, tc2) = held_index k (current_tool_calls st)).
    { rewrite <- Hold. unfold started_index. simpl. by rewrite Hs2, Hi2. }
    assert (Htable : ∀ v,
      started_index (k, v) = held_index k (current_tool_calls st) →
      table_ok st →
      table_ok (mkState (tool_block_counter st) (dict_set k v (current_tool_calls st))
                  (final_stop_reason st) (st_usage_data st))).
    { intros v Hv [Hperm Hnd]. split; [| by apply dict_set_NoDup].
      unfold started_indices. cbn [current_tool_calls tool_block_counter].
      by rewrite dict_set_same_index. }
    destruct (fd_arguments fd) as [arguments |];
      [destruct (ts_started tc2) eqn:Hst; [destruct (json_valid _ && negb _) |] |];
      cbn [fst snd].
    + split; [simpl; lia |]. split; [simpl; by rewrite Nat.sub_diag |].
      split; [by repeat constructor |]. apply Htable. apply Hsame.
    + split; [simpl; lia |]. split; [simpl; by rewrite Nat.sub_diag |].
      split; [by repeat constructor |]. apply Htable. apply Hsame.
    + split; [simpl; lia |]. split; [simpl; by rewrite Nat.sub_diag |].
      split; [by repeat constructor |]. by apply Htable.
    + split; [simpl; lia |]. split; [simpl; by rewrite Nat.sub_diag |].
      split; [by repeat constructor |]. by apply Htable.
Qed.

Lemma process_tool_delta_usage st tc_delta :
  st_usage_data (process_tool_delta json_valid st tc_delta).1 = st_usage_data st.
Proof. unfold process_tool_delta. by repeat case_match. Qed.

Lemma process_tool_deltas_usage tcs :
  ∀ st, st_usage_data (process_tool_deltas json_valid st tcs).1 = st_usage_data st.
Proof.
  induction tcs as [| tc_delta rest IH]; intros st; simpl; [done |].
  pose proof (process_tool_delta_usage st tc_delta) as Hstep.
  destruct (process_tool_delta json_valid st tc_delta) as [st1 evs1].
  pose proof (IH st1) as Hrest.
  destruct (process_tool_deltas json_valid st1 rest) as [st2 evs2].
  simpl in *. congruence.
Qed.

Lemma process_tool_deltas_ok tcs :
  ∀ st, step_ok st (process_tool_deltas json_valid st tcs).1
                   (process_tool_deltas json_valid st tcs).2.
Proof.
  induction tcs as [| tc_delta rest IH]; intros st; simpl; [apply step_ok_refl |].
  pose proof (process_tool_delta_ok st tc_delta) as Hstep.
  destruct (process_tool_delta json_valid st tc_delta) as [st1 evs1].
  pose proof (IH st1) as Hrest.
  destruct (process_tool_deltas json_valid st1 rest) as [st2 evs2].
  by eapply step_ok_trans.
Qed.

Lemma process_choice_ok st choice :
  step_ok st (process_choice json_valid st choice).1.1
             (process_choice json_valid st choice).1.2.
Proof.
  unfold process_choice.
  set (delta := default (mkDelta None None) (sc_delta choice)).
  set (text_events := match d_content delta with
                      | Some text => [ContentBlockDelta text_block_index (TextDelta text)]
                      | None => []
                      end).
  assert (Htext : step_ok st st text_events).
  { subst text_events. destruct (d_content delta); [| apply step_ok_refl].
    split; [done |]. split; [by rewrite Nat.sub_diag |]. split; [| done].
    by repeat constructor. }
  assert (Htools : ∀ r, r = match d_tool_calls delta with
                            | Some tcs => process_tool_deltas json_valid st tcs
                            | None => (st, [])
                            end → step_ok st r.1 r.2).
  { intros r ->. destruct (d_tool_calls delta) as [tcs |];
      [apply process_tool_deltas_ok | apply step_ok_refl]. }
  specialize (Htools _ eq_refl).
  destruct (match d_tool_calls delta with
            | Some tcs => process_tool_deltas json_valid st tcs
            | None => (st, [])
            end) as [st1 tool_events].
  destruct (truthy_str (sc_finish_reason choice)); simpl.
  - apply step_ok_fields. by eapply step_ok_trans.
  - by eapply step_ok_trans.
Qed.

(** ** One upstream line *)

Lemma process_line_ok st line :
  step_ok st (process_line json_loads json_valid st line).1.1
             (process_line json_loads json_valid st line).1.2.
Proof.
  unfold process_line.
  destruct (nonempty (strip line)); [| apply step_ok_refl].
  destruct (String.prefix _ line); [| apply step_ok_refl].
  destruct (String.eqb _ _); [apply step_ok_refl |].
  destruct (json_loads _) as [| error_str | chunk]; try apply step_ok_refl.
  destruct (ch_choices chunk) as [| choice rest]; [apply step_ok_refl |].
  pose proof (process_choice_ok st choice) as Hstep.
  by destruct (process_choice json_valid st choice) as [[st1 evs] finished].
Qed.

Lemma process_line_with_usage_ok st line :
  step_ok st (process_line_with_usage json_loads json_valid config st line).1.1
             (process_line_with_usage json_loads json_valid config st line).1.2.
Proof.
  unfold process_line_with_usage.
  destruct (nonempty (strip line)); [| apply step_ok_refl].
  destruct (String.prefix _ line); [| apply step_ok_refl].
  destruct (String.eqb _ _); [apply step_ok_refl |].
  destruct (json_loads _) as [| error_str | chunk]; try apply step_ok_refl.
  set (st0 := if usage_truthy (ch_usage chunk) then _ else st).
  assert (H0 : step_ok st st0 []).
  { subst st0. destruct (usage_truthy _); [| apply step_ok_refl].
    apply step_ok_fields, step_ok_refl. }
  destruct (ch_choices chunk) as [| choice rest]; [done |].
  pose proof (process_choice_ok st0 choice) as Hstep.
  destruct (process_choice json_valid st0 choice) as [[st1 evs] finished].
  apply (step_ok_trans _ _ _ [] _ H0 Hstep).
Qed.

(** ** The loops *)

Lemma stream_loop_ok lines :
  ∀ st, step_ok st (stream_loop json_loads json_valid st lines).1.1
                   (stream_loop json_loads json_valid st lines).1.2.
Proof.
  induction lines as [| line rest IH]; intros st; simpl; [apply step_ok_refl |].
  pose proof (process_line_ok st line) as Hstep.
  destruct (process_line json_loads json_valid st line) as [[st1 evs] c].
  destruct c; try done.
  pose proof (IH st1) as Hrest.
  destruct (stream_loop json_loads json_valid st1 rest) as [[st2 evs'] c'].
  by eapply step_ok_trans.
Qed.

Lemma stream_loop_with_cancellation_ok request_id lines :
  ∀ client st,
    step_ok st
      (stream_loop_with_cancellation json_loads json_valid config
         request_id client st lines).1.1.2
      (stream_loop_with_cancellation json_loads json_valid config
         request_id client st lines).1.2.
Proof.
  induction lines as [| [line disconnected] rest IH]; intros client st; simpl;
    [apply step_ok_refl |].
  destruct disconnected; [apply step_ok_refl |].
  pose proof (process_line_with_usage_ok st line) as Hstep.
  destruct (process_line_with_usage json_loads json_valid config st line) as [[st1 evs] c].
  destruct c; try done.
  pose proof (IH client st1) as Hrest.
  destruct (stream_loop_with_cancellation _ _ _ request_id client st1 rest)
    as [[[client2 st2] evs'] c'].
  by eapply step_ok_trans.
Qed.

(** ** The two generators *)





(** ** Disconnection *)

Lemma loop_next_client request_id lines :
  ∀ client st client' st' evs,
    stream_loop_with_cancellation json_loads json_valid config request_id client st lines
    = (client', st', evs, Next) →
    client' = client.
Proof.
  induction lines as [| [line disconnected] rest IH]; intros client st client' st' evs; simpl.
  - by intros [= <- _ _].
  - destruct disconnected; [done |].
    destruct (process_line_with_usage json_loads json_valid config st line)
      as [[st1 evs1] c].
    destruct c; try done.
    destruct (stream_loop_with_cancellation _ _ _ request_id client st1 rest)
      as [[[client2 st2] evs2] c2] eqn:Hrest.
    intros [= <- _ _ ->]. by eapply IH.
Qed.

Lemma loop_disconnected request_id pre line rest :
  ∀ client st client' st' evs,
    stream_loop_with_cancellation json_loads json_valid config request_id client st pre
    = (client', st', evs, Next) →
    stream_loop_with_cancellation json_loads json_valid config request_id client st
      (pre ++ (line, true) :: rest)
    = ((Dispatch.cancel_request request_id client).2, st', evs, Break).
Proof.
  induction pre as [| [l disconnected] pre IH]; intros client st client' st' evs; simpl.
  - by intros [= _ <- <-].
  - destruct disconnected; [done |].
    destruct (process_line_with_usage json_loads json_valid config st l)
      as [[st1 evs1] c].
    destruct c; try done.
    destruct (stream_loop_with_cancellation _ _ _ request_id client st1 pre)
      as [[[client2 st2] evs2] c2] eqn:Hpre.
    intros [= <- <- <- ->]. by rewrite (IH _ _ _ _ _ Hpre).
Qed.

(** C3, amended.  When the client is found disconnected at an event
    boundary that the loop reaches, the translator requests the cancellation
    of the upstream call, stops reading the upstream events and then goes
    through the normal teardown: the events emitted so far are followed by
    the closing of the text block and of the started tool blocks,
    [message_delta] and [message_stop], and no error event is emitted.  The
    single error event of type "cancelled", without teardown, is what the
    translator emits when the upstream iterator raises an [HTTPException]
    with status 499. *)
Theorem disconnection_runs_teardown pre line rest ending model client request_id
    client' st evs :
  stream_loop_with_cancellation json_loads json_valid config request_id client
    initial_state pre = (client', st, evs, Next) →
  convert_openai_streaming_to_claude_with_cancellation json_loads json_valid config
    message_id (pre ++ (line, true) :: rest) ending model client request_id
  = (start_events message_id model ++ evs ++ teardown st (st_usage_data st),
     Finished,
     (Dispatch.cancel_request request_id client).2)
  ∧ ∀ e str, status_code e = 499%Z →
      convert_openai_streaming_to_claude_with_cancellation json_loads json_valid config
        message_id pre (Some (StreamHTTPException e str)) model client request_id
      = (start_events message_id model ++ evs ++ [cancelled_event], Finished, client).
Proof.
  intros Hloop. unfold convert_openai_streaming_to_claude_with_cancellation. split.
  - by rewrite (loop_disconnected _ _ _ _ _ _ _ _ _ Hloop).
  - intros e str Hstatus. rewrite Hloop, Hstatus. simpl.
    by rewrite (loop_next_client _ _ _ _ _ _ _ Hloop).
Qed.

(** ** Usage *)

(** The plain generator ends with the usage literal of the source. *)
Lemma plain_reported_usage lines ending model :
  Forall (λ usage, usage = zero_usage)
    (reported_usage
       (convert_openai_streaming_to_claude json_loads json_valid message_id
          lines ending model)).
Proof.
  unfold convert_openai_streaming_to_claude.
  pose proof (stream_loop_ok lines initial_state) as (_ & _ & Hbody & _).
  destruct (stream_loop json_loads json_valid initial_state lines) as [[st evs] c].
  simpl in Hbody. rewrite !reported_usage_app.
  rewrite (body_events_no_usage evs Hbody).
  destruct c as [| | error_str]; [destruct ending as [e |] | |];
    rewrite ?teardown_usage; simpl; by repeat constructor.
Qed.

(** The generator with cancellation takes the usage from a chunk that
    carries one. *)
Lemma usage_captured st line chunk :
  nonempty (strip line) = true →
  String.prefix "data: " line = true →
  String.eqb (strip (string_drop 6 line)) "[DONE]" = false →
  json_loads (string_drop 6 line) = Parsed chunk →
  usage_truthy (ch_usage chunk) = true →
  st_usage_data (process_line_with_usage json_loads json_valid config st line).1.1
  = build_usage_data (supports_prompt_cache config) (default empty_usage (ch_usage chunk)).
Proof.
  intros Hne Hprefix Hdone Hparsed Husage. unfold process_line_with_usage.
  rewrite Hne, Hprefix, Hdone, Hparsed, Husage.
  destruct (ch_choices chunk) as [| choice rest]; [done |].
  unfold process_choice.
  destruct (match d_tool_calls _ with
            | Some tcs => process_tool_deltas json_valid _ tcs
            | None => _
            end) as [st1 evs1] eqn:Htools.
  assert (Hkeep : st_usage_data st1
                  = build_usage_data (supports_prompt_cache config)
                      (default empty_usage (ch_usage chunk))).
  { destruct (d_tool_calls _) as [tcs |]; [| by injection Htools as <- _].
    apply (f_equal (λ r, st_usage_data r.1)) in Htools. simpl in Htools.
    by rewrite process_tool_deltas_usage in Htools. }
  by destruct (truthy_str (sc_finish_reason choice)).
Qed.

End Translator.

(** C2 at the failing input.  The generator without cancellation ends
    every completed translation with the usage literal of the source,
    zero input and output tokens: on a stream whose only chunk carries the
    usage object [{prompt_tokens: 5, completion_tokens: 7}] it reports
    0 and 0, where the generator with cancellation reports 5 and 7. *)
Theorem plain_translator_drops_usage :
  (∀ json_loads json_valid message_id lines ending model,
     Forall (λ usage, usage = zero_usage)
       (reported_usage (convert_openai_streaming_to_claude json_loads json_valid
                          message_id lines ending model)))
  ∧ reported_usage (demo_plain ["data: chunk-hello"; "data: [DONE]"] None)
    = [mkUsageData 0 0 None None]
  ∧ reported_usage
      (demo_cancellable [("data: chunk-hello", false); ("data: [DONE]", false)] None).1.1
    = [mkUsageData 5 7 None None].
Proof.
  split; [| split].
  - intros. apply plain_reported_usage.
  - vm_compute. reflexivity.
  - vm_compute. reflexivity.
Qed.

(** C3, as stated, fails: a disconnection seen at the first event is
    followed by the teardown events and by no error event. *)
Lemma disconnection_emits_teardown :
  ¬ cancelled_without_teardown (demo_cancellable [("data: chunk-hello", true)] None).1.1.
Proof. vm_compute. intros [H _]. discriminate H. Qed.

Lemma disconnection_runs_teardown_witness :
  (demo_cancellable [("data: chunk-hello", false); ("data: chunk-hello", true)] None).1
  = ([MessageStart "msg_0000" "claude-3-5-sonnet-20241022";
      ContentBlockStart 0 StartText; Ping;
      ContentBlockDelta 0 (TextDelta "Hi");
      ContentBlockStop 0; MessageDelta "end_turn" (mkUsageData 5 7 None None);
      MessageStop], Finished)
  ∧ Dispatch.active_requests
      (demo_cancellable [("data: chunk-hello", false); ("data: chunk-hello", true)] None).2
    !! "req-1" = Some true.
Proof.
  destruct (disconnection_runs_teardown demo_loads demo_valid demo_config "msg_0000"
              [("data: chunk-hello", false)] "data: chunk-hello" [] None
              "claude-3-5-sonnet-20241022" demo_registry "req-1" _ _ _ eq_refl)
    as [H _].
  unfold demo_cancellable. simpl app in H. rewrite H. split; reflexivity.
Defined.




End StreamingFacts.

(* ===================================================================== *)
(** * Key manager: further properties *)
(* ===================================================================== *)

Module KeyManagerLaws.
Import KeyManager KeyManagerFacts.

(** What a call of [get_next_key] does, case by case. *)
Lemma get_next_key_cases now m :
  cursor_ok m →
  let failed := evict now (cooldown_period m) (failed_keys m) in
  (∃ k j, get_next_key now m
          = (Returned (Some k),
             mkManager (api_keys m) (cooldown_period m)
               ((current_index m + j + 1) mod length (api_keys m)) failed)
          ∧ j < length (api_keys m)
          ∧ candidate (api_keys m) (current_index m) j = Some k
          ∧ failed !! k = None
          ∧ ∀ i, i < j → ∃ k', candidate (api_keys m) (current_index m) i = Some k'
                               ∧ failed !! k' ≠ None)
  ∨ (get_next_key now m
     = (Returned None, mkManager (api_keys m) (cooldown_period m) (current_index m) failed)
     ∧ ∀ k, k ∈ api_keys m → failed !! k ≠ None).
Proof.
  intros Hok failed. unfold get_next_key. fold failed. destruct Hok as [Hnil | Hidx].
  - right. rewrite Hnil. simpl. split; [done |]. intros k Hk. by apply elem_of_nil in Hk.
  - pose proof (scan_spec (api_keys m) failed (length (api_keys m)) _ Hidx) as Hs.
    destruct (scan _ _ _ _) as [[[k|]|e] idx']; [| | done].
    + left. destruct Hs as (j & Hj & Hc & Hfree & Hbefore & ->). by exists k, j.
    + right. destruct Hs as [Hall ->]. split.
      * do 2 f_equal.
        replace (current_index m + length (api_keys m))
          with (current_index m + 1 * length (api_keys m)) by lia.
        rewrite Nat.Div0.mod_add. by apply Nat.mod_small.
      * intros k Hk. apply list_elem_of_lookup in Hk as [p Hp].
        destruct (candidate_covers (api_keys m) (current_index m) p Hidx) as (j & Hj & Hjp).
        { by eapply lookup_lt_Some. }
        destruct (Hall j Hj) as (k' & Hk' & Hin).
        unfold candidate in Hk'. rewrite Hjp, Hp in Hk'. by injection Hk' as <-.
Qed.

Lemma key_available_evicted now m k :
  key_available now m k = bool_decide (evict now (cooldown_period m) (failed_keys m) !! k = None).
Proof.
  unfold key_available. destruct (failed_keys m !! k) as [t|] eqn:E.
  - apply bool_decide_ext. rewrite evict_lookup_None. split.
    + intros H. right. by exists t.
    + intros [H | (t' & Ht' & H)]; [congruence |]. congruence.
  - symmetry. apply bool_decide_eq_true. apply evict_lookup_None. by left.
Qed.

Lemma available_plus_failed now m :
  get_available_key_count now m + failed_count now m = length (api_keys m).
Proof.
  unfold get_available_key_count, failed_count.
  induction (api_keys m) as [| k l IH]; [done |].
  rewrite !filter_cons.
  destruct (key_available now m k); simpl; repeat case_decide; simpl; try done; lia.
Qed.


Lemma filter_length_mono {A} (P Q : A → Prop) `{!∀ x, Decision (P x)} `{!∀ x, Decision (Q x)}
    (l : list A) :
  (∀ x, x ∈ l → P x → Q x) → length (filter P l) ≤ length (filter Q l).
Proof.
  induction l as [| a l IH]; intros Himp; [done |].
  rewrite !filter_cons.
  assert (IH' : length (filter P l) ≤ length (filter Q l)).
  { apply IH. intros x Hx. apply Himp. by right. }
  destruct (decide (P a)) as [Ha | Ha], (decide (Q a)) as [Hb | Hb]; simpl; try lia.
  exfalso. apply Hb, Himp; [by left | done].
Qed.

(** ** [get_status] *)

Lemma status_step_entry now m st i key :
  status_step now m st i key
  = mkStatus (total_keys st)
      (available_keys st + (if key_available now m key then 1 else 0))
      (status_failed_keys st + (if key_available now m key then 0 else 1))
      (keys_status st ++ [status_entry now m i key]).
Proof.
  unfold status_step, status_entry, key_available.
  destruct (failed_keys m !! key) as [t|]; simpl.
  - unfold cooldown_over. case_bool_decide; f_equal; lia.
  - f_equal; lia.
Qed.



(** ** Availability *)

(** X2.  [get_next_key] and [get_available_key_count] agree: read at the
    same clock, the count is zero exactly when [get_next_key] answers that
    no key is available, and when the count is positive the key returned
    is one that the count includes. *)
Theorem get_next_key_agrees_with_count now m :
  cursor_ok m →
  ((get_next_key now m).1 = Returned None ↔ get_available_key_count now m = 0)
  ∧ (0 < get_available_key_count now m →
     ∃ k, (get_next_key now m).1 = Returned (Some k)
          ∧ k ∈ api_keys m ∧ key_available now m k = true).
Proof.
  intros Hok.
  assert (Hzero : get_available_key_count now m = 0 ↔
                  ∀ k, k ∈ api_keys m → key_available now m k = false).
  { pose proof (available_plus_failed now m) as Hsum.
    pose proof (failed_count_all now m) as Hall. split.
    - intros H0 k Hk. apply key_available_false. apply Hall; [lia | done].
    - intros H. assert (failed_count now m = length (api_keys m)); [| lia].
      apply Hall. intros k Hk. apply key_available_false. by apply H. }
  destruct (get_next_key_cases now m Hok) as [(k & j & Heq & Hj & Hc & Hfree & _) | [Heq Hall]].
  - rewrite Heq. simpl.
    assert (Hav : key_available now m k = true).
    { rewrite key_available_evicted. by apply bool_decide_eq_true. }
    apply candidate_elem in Hc. split.
    + split; [done |]. intros H. rewrite (proj1 Hzero H k Hc) in Hav. done.
    + intros _. by exists k.
  - rewrite Heq. simpl.
    assert (H0 : get_available_key_count now m = 0).
    { apply Hzero. intros k Hk. rewrite key_available_evicted.
      apply bool_decide_eq_false. by apply Hall. }
    split; [done |]. lia.
Qed.


(** ** Eviction *)

Lemma get_next_key_failed_keys now m :
  failed_keys (get_next_key now m).2 = evict now (cooldown_period m) (failed_keys m).
Proof. unfold get_next_key. by destruct (scan _ _ _ _). Qed.

Lemma key_available_after_call now now' m k :
  (now ≤ now')%Z →
  key_available now' (get_next_key now m).2 k = key_available now' m k.
Proof.
  intros Hle. unfold key_available.
  rewrite get_next_key_failed_keys, get_next_key_cooldown_period.
  unfold evict. destruct (failed_keys m !! k) as [t|] eqn:E.
  - destruct (decide (cooldown_over now (cooldown_period m) t)) as [Hover | Hin].
    + assert (Hgone : filter (λ kv : string * Z, ¬ cooldown_over now (cooldown_period m) kv.2)
                        (failed_keys m) !! k = None).
      { apply map_lookup_filter_None. right. intros t' Ht'. simpl.
        rewrite E in Ht'. injection Ht' as <-. tauto. }
      rewrite Hgone. symmetry. apply bool_decide_eq_true. unfold cooldown_over in *. lia.
    + assert (Hkept : filter (λ kv : string * Z, ¬ cooldown_over now (cooldown_period m) kv.2)
                        (failed_keys m) !! k = Some t).
      { by apply map_lookup_filter_Some. }
      by rewrite Hkept.
  - assert (Hgone : filter (λ kv : string * Z, ¬ cooldown_over now (cooldown_period m) kv.2)
                      (failed_keys m) !! k = None).
    { apply map_lookup_filter_None. by left. }
    by rewrite Hgone.
Qed.

Lemma status_step_after_call now now' m st i key :
  (now ≤ now')%Z →
  status_step now' (get_next_key now m).2 st i key = status_step now' m st i key.
Proof.
  intros Hle. rewrite !status_step_entry. unfold status_entry.
  rewrite (key_available_after_call now now' m key Hle).
  destruct (key_available now' m key) eqn:Hav; [done |].
  do 4 f_equal. rewrite get_next_key_cooldown_period, get_next_key_failed_keys.
  apply key_available_false in Hav as (t & Ht & Hn).
  rewrite Ht. unfold evict.
  assert (Hkept : filter (λ kv : string * Z, ¬ cooldown_over now (cooldown_period m) kv.2)
                    (failed_keys m) !! key = Some t).
  { apply map_lookup_filter_Some. split; [done |]. simpl. unfold cooldown_over in *. lia. }
  by rewrite Hkept.
Qed.

Lemma status_loop_after_call now now' m keys :
  (now ≤ now')%Z →
  ∀ st i, status_loop now' (get_next_key now m).2 st i keys = status_loop now' m st i keys.
Proof.
  intros Hle. induction keys as [| key keys IH]; intros st i; simpl; [done |].
  by rewrite status_step_after_call, IH.
Qed.

(** X3.  The clean-up of expired cooldowns that [get_next_key] does cannot
    be observed: it records no new failure, and at every clock reading not
    before the one of the call the availability of each key, the count of
    [get_available_key_count] and the report of [get_status] are what they
    would have been without the call. *)
Theorem eviction_is_unobservable now now' m :
  (now ≤ now')%Z →
  let m' := (get_next_key now m).2 in
  failed_keys m' ⊆ failed_keys m
  ∧ (∀ k, key_available now' m' k = key_available now' m k)
  ∧ get_available_key_count now' m' = get_available_key_count now' m
  ∧ get_status now' m' = get_status now' m.
Proof.
  intros Hle m'. subst m'. split; [| split; [| split]].
  - rewrite get_next_key_failed_keys. apply map_filter_subseteq.
  - intros k. by apply key_available_after_call.
  - unfold get_available_key_count. rewrite get_next_key_api_keys.
    f_equal. apply RequestFacts.filter_ext_elem.
    intros k _. by rewrite key_available_after_call.
  - unfold get_status. rewrite get_next_key_api_keys. by apply status_loop_after_call.
Qed.


(** X4.  Without new failures the number of available keys never goes down
    as the clock advances. *)
Theorem available_count_monotone now now' m :
  (now ≤ now')%Z →
  get_available_key_count now m ≤ get_available_key_count now' m.
Proof.
  intros Hle. unfold get_available_key_count. apply filter_length_mono.
  intros k _. unfold key_available. destruct (failed_keys m !! k) as [t|]; [| done].
  rewrite !bool_decide_eq_true. unfold cooldown_over. lia.
Qed.

(** ** Cooldown *)

Lemma key_available_marked t now k m :
  key_available now (mark_key_failed t k m) k
  = bool_decide (now - t > cooldown_period m)%Z.
Proof. unfold key_available, mark_key_failed. simpl. by rewrite lookup_insert_eq. Qed.

(** X5.  A key marked failed at clock reading [t] sits out exactly the
    cooldown period: it counts as available at [now] if and only if
    [now - t > cooldown_period]; until then [get_next_key] never returns
    it, and once the period is over (and the key belongs to the pool)
    [get_next_key] has a key to return. *)
Theorem failed_key_sits_out_cooldown t now k m :
  cursor_ok m →
  (key_available now (mark_key_failed t k m) k = true ↔ (now - t > cooldown_period m)%Z)
  ∧ ((now - t ≤ cooldown_period m)%Z →
     (get_next_key now (mark_key_failed t k m)).1 ≠ Returned (Some k))
  ∧ ((now - t > cooldown_period m)%Z → k ∈ api_keys m →
     ∃ k', (get_next_key now (mark_key_failed t k m)).1 = Returned (Some k')).
Proof.
  intros Hok.
  assert (Hok' : cursor_ok (mark_key_failed t k m)) by done.
  pose proof (key_available_evicted now (mark_key_failed t k m) k) as Hav.
  rewrite key_available_marked in Hav.
  split; [| split].
  - rewrite key_available_marked. apply bool_decide_eq_true.
  - intros Hle Hr.
    destruct (get_next_key_cases now _ Hok') as [(k' & j & Heq & _ & _ & Hfree & _) | [Heq _]];
      rewrite Heq in Hr; simpl in Hr; [| done].
    injection Hr as ->.
    rewrite (bool_decide_eq_true_2 _ Hfree) in Hav.
    apply bool_decide_eq_true in Hav. lia.
  - intros Hgt Hk.
    destruct (get_next_key_cases now _ Hok') as [(k' & j & Heq & _) | [Heq Hall]];
      rewrite Heq; simpl; [by exists k' |].
    exfalso. apply (Hall k Hk).
    rewrite (bool_decide_eq_true_2 _ Hgt) in Hav. symmetry in Hav.
    by apply bool_decide_eq_true in Hav.
Qed.

(** ** A pool without failures *)

Lemma evict_empty now cd : evict now cd ∅ = ∅.
Proof. unfold evict. apply map_filter_empty. Qed.

Lemma get_next_key_no_failures now m key :
  failed_keys m = ∅ →
  api_keys m !! current_index m = Some key →
  get_next_key now m
  = (Returned (Some key),
     mkManager (api_keys m) (cooldown_period m)
       ((current_index m + 1) mod length (api_keys m)) ∅).
Proof.
  intros Hnone Hkey. unfold get_next_key. rewrite Hnone, evict_empty.
  pose proof (lookup_lt_Some _ _ _ Hkey) as Hlt.
  destruct (length (api_keys m)) as [| n] eqn:Hlen; [lia |].
  simpl. rewrite Hkey, Hlen. by rewrite lookup_empty.
Qed.

(** X6.  [reset_all_failures] makes every key available at once, whatever
    the clock reads, and the next [get_next_key] returns the key under the
    cursor and moves the cursor one step. *)
Theorem reset_makes_all_available now m :
  get_available_key_count now (reset_all_failures m) = length (api_keys m)
  ∧ (∀ k, key_available now (reset_all_failures m) k = true)
  ∧ ∀ key, api_keys m !! current_index m = Some key →
      get_next_key now (reset_all_failures m)
      = (Returned (Some key),
         mkManager (api_keys m) (cooldown_period m)
           ((current_index m + 1) mod length (api_keys m)) ∅).
Proof.
  assert (Hall : ∀ k, key_available now (reset_all_failures m) k = true).
  { intros k. unfold key_available, reset_all_failures. simpl. by rewrite lookup_empty. }
  split; [| split; [done |]].
  - unfold get_available_key_count. simpl.
    apply filter_length_all. intros k _. apply Hall.
  - intros key Hkey. by apply (get_next_key_no_failures now (reset_all_failures m) key).
Qed.

Lemma candidate_shift (keys : list string) idx j :
  candidate keys ((idx + 1) mod length keys) j = candidate keys idx (S j).
Proof.
  unfold candidate. f_equal. rewrite Nat.Div0.add_mod_idemp_l. f_equal. lia.
Qed.

Lemma get_next_keys_no_failures nows :
  ∀ m, failed_keys m = ∅ → current_index m < length (api_keys m) →
    get_next_keys nows m
    = ((λ i, Returned (candidate (api_keys m) (current_index m) i)) <$> seq 0 (length nows),
       mkManager (api_keys m) (cooldown_period m)
         ((current_index m + length nows) mod length (api_keys m)) (failed_keys m)).
Proof.
  induction nows as [| now nows IH]; intros m Hnone Hidx.
  - simpl. rewrite Nat.add_0_r. rewrite Nat.mod_small; [| done]. by destruct m.
  - destruct (lookup_lt_is_Some_2 _ _ Hidx) as [key Hkey].
    cbn [get_next_keys]. rewrite (get_next_key_no_failures now m key Hnone Hkey).
    set (m' := mkManager _ _ _ _).
    assert (Hidx' : current_index m' < length (api_keys m')).
    { simpl. apply Nat.mod_upper_bound. lia. }
    rewrite (IH m' eq_refl Hidx'). simpl. rewrite Hnone. f_equal.
    + f_equal.
      * unfold candidate. rewrite Nat.add_0_r, Nat.mod_small by done. by rewrite Hkey.
      * change (list_fmap nat _ ?f ?l) with (f <$> l).
        rewrite <- fmap_S_seq, <- list_fmap_compose. apply list_fmap_ext.
        intros i x _. simpl. by rewrite candidate_shift.
    + f_equal. rewrite Nat.Div0.add_mod_idemp_l. f_equal. lia.
Qed.

(** X7.  Round-robin fairness: on a pool without recorded failures, any
    number of consecutive calls returns the keys in the circular order of
    the pool starting at the cursor, whatever the clock reads; a run of as
    many calls as there are keys returns every key once, in the order of
    the pool rotated to the cursor, and leaves the cursor where it was. *)
Theorem round_robin_cycle nows m :
  failed_keys m = ∅ →
  current_index m < length (api_keys m) →
  (get_next_keys nows m).1
  = (λ i, Returned (candidate (api_keys m) (current_index m) i)) <$> seq 0 (length nows)
  ∧ failed_keys (get_next_keys nows m).2 = ∅
  ∧ (length nows = length (api_keys m) →
     (get_next_keys nows m).1
     = (λ k, Returned (Some k)) <$> rotate (current_index m) (api_keys m)
     ∧ current_index (get_next_keys nows m).2 = current_index m).
Proof.
  intros Hnone Hidx. rewrite (get_next_keys_no_failures nows m Hnone Hidx). simpl.
  split; [done |]. split; [done |]. intros Hlen. rewrite Hlen. split.
  - apply list_eq. intros i. rewrite !list_lookup_fmap.
    destruct (decide (i < length (api_keys m))) as [Hi | Hi].
    + rewrite lookup_seq_lt by done. simpl.
      rewrite lookup_rotate_r by done. unfold candidate, rotate_nat_add.
      rewrite <- Nat2Z.inj_add, <- Nat2Z.inj_mod, Nat2Z.id.
      destruct (lookup_lt_is_Some_2 (api_keys m)
                  ((current_index m + i) mod length (api_keys m))) as [k Hk].
      { apply Nat.mod_upper_bound. lia. }
      by rewrite Hk.
    + rewrite lookup_seq_ge by lia. simpl.
      rewrite lookup_ge_None_2; [done |]. rewrite length_rotate. lia.
  - replace (current_index m + length (api_keys m))
      with (current_index m + 1 * length (api_keys m)) by lia.
    rewrite Nat.Div0.mod_add. by apply Nat.mod_small.
Qed.

(** ** Failures of keys outside the pool *)

Lemma scan_ext keys (failed failed' : gmap string Z) fuel :
  (∀ key, key ∈ keys → (failed !! key = None ↔ failed' !! key = None)) →
  ∀ idx, scan keys failed idx fuel = scan keys failed' idx fuel.
Proof.
  intros Hsame. induction fuel as [| fuel IH]; intros idx; simpl; [done |].
  destruct (keys !! idx) as [key|] eqn:Hkey; [| done].
  destruct (length keys); [done |].
  rewrite (bool_decide_ext _ _ (Hsame key (list_elem_of_lookup_2 _ _ _ Hkey))).
  by rewrite IH.
Qed.

(** X8.  Marking as failed a key that is not in the pool is recorded but
    changes nothing that can be observed: the count of available keys and
    the answer and cursor of the next [get_next_key] stay the same. *)
Theorem unknown_key_failure_is_harmless t now k m :
  k ∉ api_keys m →
  get_available_key_count now (mark_key_failed t k m) = get_available_key_count now m
  ∧ (get_next_key now (mark_key_failed t k m)).1 = (get_next_key now m).1
  ∧ current_index (get_next_key now (mark_key_failed t k m)).2
    = current_index (get_next_key now m).2
  ∧ failed_keys (mark_key_failed t k m) !! k = Some t.
Proof.
  intros Hk.
  assert (Hother : ∀ key, key ∈ api_keys m →
            failed_keys (mark_key_failed t k m) !! key = failed_keys m !! key).
  { intros key Hkey. unfold mark_key_failed. simpl.
    apply lookup_insert_ne. intros ->. done. }
  assert (Hscan : ∀ idx fuel,
            scan (api_keys m) (evict now (cooldown_period m)
                                 (failed_keys (mark_key_failed t k m))) idx fuel
            = scan (api_keys m) (evict now (cooldown_period m) (failed_keys m)) idx fuel).
  { intros idx fuel. apply scan_ext. intros key Hkey.
    rewrite !evict_lookup_None. by rewrite (Hother key Hkey). }
  split; [| split; [| split]].
  - unfold get_available_key_count. simpl. f_equal.
    apply RequestFacts.filter_ext_elem. intros key Hkey.
    unfold key_available. by rewrite (Hother key Hkey).
  - unfold get_next_key. simpl. rewrite Hscan. by destruct (scan _ _ _ _).
  - unfold get_next_key. simpl. rewrite Hscan. by destruct (scan _ _ _ _).
  - unfold mark_key_failed. simpl. by rewrite lookup_insert_eq.
Qed.


Lemma get_next_key_agrees_with_count_witness :
  (get_next_key 110 demo_manager).1 = Returned None
  ↔ get_available_key_count 110 demo_manager = 0.
Proof.
  assert (Hok : cursor_ok demo_manager) by (right; simpl; lia).
  exact (proj1 (get_next_key_agrees_with_count 110 demo_manager Hok)).
Defined.

Lemma eviction_is_unobservable_witness :
  get_available_key_count 500 (get_next_key 450 demo_manager).2
  = get_available_key_count 500 demo_manager.
Proof.
  assert (Hle : (450 ≤ 500)%Z) by lia.
  exact (proj1 (proj2 (proj2 (eviction_is_unobservable 450 500 demo_manager Hle)))).
Defined.

Lemma available_count_monotone_witness :
  get_available_key_count 400 demo_manager ≤ get_available_key_count 401 demo_manager.
Proof.
  assert (Hle : (400 ≤ 401)%Z) by lia.
  exact (available_count_monotone 400 401 demo_manager Hle).
Defined.

Lemma failed_key_sits_out_cooldown_witness :
  (get_next_key 400 (mark_key_failed 100 "sk-a" (init ["sk-a"; "sk-b"] 300))).1
  ≠ Returned (Some "sk-a").
Proof.
  assert (Hok : cursor_ok (init ["sk-a"; "sk-b"] 300)) by (right; simpl; lia).
  assert (Hle : (400 - 100 ≤ cooldown_period (init ["sk-a"; "sk-b"] 300))%Z) by (simpl; lia).
  exact (proj1 (proj2 (failed_key_sits_out_cooldown 100 400 "sk-a" _ Hok)) Hle).
Defined.

Lemma round_robin_cycle_witness :
  (get_next_keys [0; 5; 9]%Z (init ["a"; "b"; "c"] 300)).1
  = (λ k, Returned (Some k)) <$> rotate 0 ["a"; "b"; "c"].
Proof.
  assert (Hnone : failed_keys (init ["a"; "b"; "c"] 300) = ∅) by reflexivity.
  assert (Hidx : current_index (init ["a"; "b"; "c"] 300)
                 < length (api_keys (init ["a"; "b"; "c"] 300))) by (simpl; lia).
  exact (proj1 (proj2 (proj2 (round_robin_cycle [0; 5; 9]%Z _ Hnone Hidx)) eq_refl)).
Defined.

Lemma unknown_key_failure_is_harmless_witness :
  get_available_key_count 110 (mark_key_failed 105 "sk-other" demo_manager)
  = get_available_key_count 110 demo_manager.
Proof.
  assert (Hk : "sk-other" ∉ api_keys demo_manager).
  { simpl. rewrite !elem_of_cons, elem_of_nil. intros [? | [? | ?]]; done. }
  exact (proj1 (unknown_key_failure_is_harmless 105 110 "sk-other" demo_manager Hk)).
Defined.

End KeyManagerLaws.

(* ===================================================================== *)
(** * Dispatch client: further properties *)
(* ===================================================================== *)

Module DispatchLaws.
Import KeyManager KeyManagerFacts Dispatch DispatchFacts.

(** ** The registry of active requests *)

Lemma cancel_request_registry rid c :
  delete rid (active_requests (cancel_request rid c).2) = delete rid (active_requests c).
Proof.
  unfold cancel_request. destruct (active_requests c !! rid); [| done].
  simpl. apply delete_insert_eq.
Qed.

Lemma consume_registry rid chunks ending :
  ∀ c, delete rid (active_requests (consume (Some rid) chunks ending c).2)
       = delete rid (active_requests c).
Proof.
  induction chunks as [| [chunk_json cancel_now] rest IH]; intros c; simpl.
  - by destruct ending.
  - set (c1 := if cancel_now then (cancel_request rid c).2 else c).
    assert (H1 : delete rid (active_requests c1) = delete rid (active_requests c)).
    { subst c1. destruct cancel_now; [apply cancel_request_registry | done]. }
    destruct (negb (String.eqb rid "") && bool_decide (active_requests c1 !! rid = Some true));
      [done |].
    specialize (IH c1). destruct (consume (Some rid) rest ending c1) as [[evs r] c2].
    simpl in *. by rewrite IH.
Qed.

Lemma consume_registry_None chunks ending :
  ∀ c, (consume None chunks ending c).2 = c.
Proof.
  induction chunks as [| [chunk_json cancel_now] rest IH]; intros c; simpl.
  - by destruct ending.
  - specialize (IH c). by destruct (consume None rest ending c) as [[evs r] c2].
Qed.

Lemma registry_kept_refl rid c : registry_kept rid c c.
Proof. by destruct rid. Qed.

Lemma registry_kept_trans rid c c' c'' :
  registry_kept rid c c' → registry_kept rid c' c'' → registry_kept rid c c''.
Proof. destruct rid; simpl; congruence. Qed.

Lemma registry_kept_set_manager rid m c : registry_kept rid c (set_manager m c).
Proof. by destruct rid. Qed.

Lemma consume_registry_kept rid chunks ending c :
  registry_kept rid c (consume rid chunks ending c).2.
Proof.
  destruct rid as [rid|]; simpl.
  - apply consume_registry.
  - by rewrite consume_registry_None.
Qed.

Lemma retry_loop_registry env rid remaining :
  ∀ n c last, registry_kept rid c (retry_loop env rid remaining n c last).2.
Proof.
  induction remaining as [| remaining IH]; intros n c last; simpl.
  - apply registry_kept_refl.
  - destruct (get_next_key (t_select env n) (api_key_manager c)) as [[api_key | pe] m];
      [| apply registry_kept_set_manager].
    destruct api_key as [key |]; [| apply registry_kept_set_manager].
    destruct (truthy (Some key)); [| apply registry_kept_set_manager].
    pose proof (consume_registry_kept rid (a_chunks (upstream env n key))
                  (a_end (upstream env n key)) (set_manager m c)) as Hc.
    destruct (consume rid _ _ (set_manager m c)) as [[evs r0] c0]. simpl in Hc.
    assert (Hc0 : registry_kept rid c c0).
    { eapply registry_kept_trans; [apply registry_kept_set_manager | exact Hc]. }
    destruct r0 as [e |]; [| done].
    destruct (classify e) as [h | h]; [| done].
    specialize (IH (S n) (set_manager (mark_key_failed (t_fail env n) key
                            (api_key_manager c0)) c0) (Some h)).
    destruct (retry_loop env rid remaining (S n) _ (Some h)) as [[evs' r'] c''].
    simpl in *. eapply registry_kept_trans; [exact Hc0 |].
    eapply registry_kept_trans; [apply registry_kept_set_manager | exact IH].
Qed.

Lemma call_loop_registry {R} (env : call_environment R) rid remaining :
  ∀ n c last, active_requests (call_loop env rid remaining n c last).2 = active_requests c.
Proof.
  induction remaining as [| remaining IH]; intros n c last; simpl; [done |].
  destruct (get_next_key (ct_select env n) (api_key_manager c)) as [[api_key | pe] m];
    [| done].
  destruct api_key as [key |]; [| done].
  destruct (truthy (Some key)); [| done].
  destruct (await_completion rid (calls env n key)) as [completion | e]; [done |].
  destruct (classify e) as [h | h]; [| done].
  specialize (IH (S n) (set_manager (mark_key_failed (ct_fail env n) key
                          (api_key_manager (set_manager m c))) (set_manager m c)) (Some h)).
  destruct (call_loop env rid remaining (S n) _ (Some h)) as [[evs' r'] c''].
  simpl in *. by rewrite IH.
Qed.

(** X9.  Whatever happens during the call (success, failure of every key,
    cancellation), both dispatch functions leave the registry of active
    requests as they found it, minus the entry of their own request id: a
    call with a non-empty request id ends with its entry removed and every
    other entry untouched, and a call without request id does not change
    the registry at all. *)
Theorem registry_is_cleaned_up {R} (env : environment) (call_env : call_environment R)
    rid c :
  (rid ≠ EmptyString →
     active_requests (create_chat_completion_stream env (Some rid) c).2
     = delete rid (active_requests c)
     ∧ active_requests (create_chat_completion call_env (Some rid) c).2
       = delete rid (active_requests c))
  ∧ active_requests (create_chat_completion_stream env None c).2 = active_requests c
  ∧ active_requests (create_chat_completion call_env None c).2 = active_requests c.
Proof.
  split; [| split].
  - intros Hrid.
    assert (Htruthy : truthy (Some rid) = true).
    { simpl. apply negb_true_iff. by apply String.eqb_neq. }
    split.
    + unfold create_chat_completion_stream. rewrite Htruthy.
      set (c1 := mkClient (api_key_manager c) (<[rid:=false]> (active_requests c))).
      pose proof (retry_loop_registry env (Some rid)
                    (get_available_key_count (t_start env) (api_key_manager c1)) 0 c1 None)
        as Hloop.
      destruct (retry_loop env (Some rid) _ 0 c1 None) as [[evs r] c2].
      simpl in Hloop. simpl.
      assert (Hfinal : delete rid (active_requests c2) = delete rid (active_requests c)).
      { rewrite Hloop. simpl. apply delete_insert_eq. }
      case_bool_decide as Hin; simpl; [done |].
      rewrite <- Hfinal. symmetry. apply delete_id.
      destruct (active_requests c2 !! rid) eqn:E; [| done]. exfalso. apply Hin. eauto.
    + unfold create_chat_completion. rewrite Htruthy.
      set (c1 := mkClient (api_key_manager c) (<[rid:=false]> (active_requests c))).
      pose proof (call_loop_registry call_env (Some rid)
                    (get_available_key_count (ct_start call_env) (api_key_manager c1))
                    0 c1 None) as Hloop.
      destruct (call_loop call_env (Some rid) _ 0 c1 None) as [[evs r] c2].
      simpl in Hloop. simpl. rewrite Hloop. simpl.
      rewrite lookup_insert_eq. rewrite bool_decide_eq_true_2 by eauto.
      simpl. apply delete_insert_eq.
  - unfold create_chat_completion_stream.
    pose proof (retry_loop_registry env None
                  (get_available_key_count (t_start env) (api_key_manager c)) 0 c None)
      as Hloop.
    by destruct (retry_loop env None _ 0 c None) as [[evs r] c2].
  - unfold create_chat_completion.
    pose proof (call_loop_registry call_env None
                  (get_available_key_count (ct_start call_env) (api_key_manager c)) 0 c None)
      as Hloop.
    by destruct (call_loop call_env None _ 0 c None) as [[evs r] c2].
Qed.


(** ** The two retry loops *)

Lemma call_loop_as_retry_loop {R} (env : call_environment R) rid remaining :
  ∀ n c last,
    retry_loop (as_stream_environment rid env) rid remaining n c last
    = ((call_loop env rid remaining n c last).1.1
       ++ done_marker (call_loop env rid remaining n c last).1.2,
       stream_result (call_loop env rid remaining n c last).1.2,
       (call_loop env rid remaining n c last).2).
Proof.
  induction remaining as [| remaining IH]; intros n c last; simpl; [done |].
  destruct (get_next_key (ct_select env n) (api_key_manager c)) as [[api_key | pe] m];
    [| done].
  destruct api_key as [key |]; [| done].
  destruct (truthy (Some key)); [| done].
  destruct (await_completion rid (calls env n key)) as [completion | e]; simpl; [done |].
  destruct (classify e) as [h | h]; [| done].
  rewrite IH.
  by destruct (call_loop env rid remaining (S n) _ (Some h)) as [[evs' r'] c''].
Qed.

Lemma call_matches_chunkless_stream_trace {R} (env : call_environment R) rid c :
  (create_chat_completion_stream (as_stream_environment rid env) rid c).1.1
  = (create_chat_completion env rid c).1.1
    ++ done_marker (create_chat_completion env rid c).1.2.
Proof.
  unfold create_chat_completion, create_chat_completion_stream. simpl.
  rewrite call_loop_as_retry_loop.
  by destruct (call_loop env rid _ 0 _ None) as [[evs r] c2].
Qed.

(** X10.  The two dispatch functions implement one retry policy: a plain
    call behaves like the streaming call on streams that deliver no chunk
    and end the way the plain attempts end.  The keys tried, the failures
    caught, the keys marked failed, the exception raised and the state of
    the client left behind are the same; where the plain call returns a
    completion the streaming call yields its end marker and returns. *)
Theorem call_matches_chunkless_stream {R} (env : call_environment R) rid c :
  let call := create_chat_completion env rid c in
  let stream := create_chat_completion_stream (as_stream_environment rid env) rid c in
  stream.2 = call.2
  ∧ stream.1.2 = stream_result call.1.2
  ∧ stream.1.1 = call.1.1 ++ done_marker call.1.2.
Proof.
  unfold create_chat_completion, create_chat_completion_stream. simpl.
  set (c1 := match rid with
             | Some rid0 =>
                 if truthy rid
                 then mkClient (api_key_manager c) (<[rid0:=false]> (active_requests c))
                 else c
             | None => c
             end).
  rewrite call_loop_as_retry_loop.
  by destruct (call_loop env rid _ 0 c1 None) as [[evs r] c2].
Qed.

(** ** Dispatches *)

Lemma scan_elem keys (failed : gmap string Z) fuel :
  ∀ idx k idx', scan keys failed idx fuel = (Returned (Some k), idx') → k ∈ keys.
Proof.
  induction fuel as [| fuel IH]; intros idx k idx'; simpl; [done |].
  destruct (keys !! idx) as [key|] eqn:Hkey; [| done].
  destruct (length keys); [done |].
  case_bool_decide.
  - intros [= <- _]. by eapply list_elem_of_lookup_2.
  - apply IH.
Qed.

Lemma get_next_key_elem now m k m' :
  get_next_key now m = (Returned (Some k), m') → k ∈ api_keys m.
Proof.
  unfold get_next_key.
  destruct (scan _ _ _ _) as [r idx] eqn:Hscan. intros [= -> _].
  by eapply scan_elem.
Qed.

Lemma dispatched_app tr tr' : dispatched (tr ++ tr') = dispatched tr ++ dispatched tr'.
Proof. apply omap_app. Qed.

Lemma dispatched_yields evs : Forall is_yield evs → dispatched evs = [].
Proof.
  induction 1 as [| ev evs Hev _ IH]; [done |]. by destruct ev.
Qed.

Lemma retry_loop_dispatched env rid remaining :
  ∀ n c last,
    length (dispatched (retry_loop env rid remaining n c last).1.1) ≤ remaining
    ∧ Forall (λ key, key ∈ api_keys (api_key_manager c))
             (dispatched (retry_loop env rid remaining n c last).1.1).
Proof.
  induction remaining as [| remaining IH]; intros n c last; simpl.
  - split; [done | constructor].
  - destruct (get_next_key (t_select env n) (api_key_manager c)) as [[api_key | pe] m]
      eqn:Hnext; simpl; [| split; [simpl; lia | constructor]].
    destruct api_key as [key |]; [| simpl; split; [simpl; lia | constructor]].
    destruct (truthy (Some key)); [| simpl; split; [simpl; lia | constructor]].
    pose proof (get_next_key_elem _ _ _ _ Hnext) as Hkey.
    pose proof (f_equal snd Hnext) as Hm. simpl in Hm.
    pose proof (get_next_key_api_keys (t_select env n) (api_key_manager c)) as Hkeys.
    rewrite Hm in Hkeys.
    destruct (consume rid _ _ (set_manager m c)) as [[evs r0] c0] eqn:Hcons.
    pose proof (dispatched_yields _ (consume_yields _ _ _ _ _ _ _ Hcons)) as Hys.
    pose proof (consume_manager _ _ _ _ _ _ _ Hcons) as Hm0. simpl in Hm0.
    destruct r0 as [e |].
    + destruct (classify e) as [h | h].
      * specialize (IH (S n) (set_manager (mark_key_failed (t_fail env n) key
                                (api_key_manager c0)) c0) (Some h)).
        destruct (retry_loop env rid remaining (S n) _ (Some h)) as [[evs' r'] c''].
        simpl in *. rewrite dispatched_app, Hys. simpl.
        destruct IH as [Hlen Hall]. split; [simpl; lia |].
        constructor; [done |]. rewrite Hm0, Hkeys in Hall. done.
      * simpl. rewrite dispatched_app, Hys. simpl. split; [simpl; lia |].
        constructor; [done | constructor].
    + simpl. rewrite Hys. split; [simpl; lia |]. constructor; [done | constructor].
Qed.

Lemma dispatched_done_marker {R} tr (r : outcome failure R) :
  dispatched (tr ++ done_marker r) = dispatched tr.
Proof. rewrite dispatched_app. destruct r; simpl; by rewrite app_nil_r. Qed.

(** X11.  A dispatch call sends the request upstream at most as many times
    as there were available keys when it started, and only with keys of
    the pool. *)
Theorem dispatches_are_bounded {R} (env : environment) (call_env : call_environment R)
    rid c :
  let sent := dispatched (create_chat_completion_stream env rid c).1.1 in
  let sent' := dispatched (create_chat_completion call_env rid c).1.1 in
  length sent ≤ get_available_key_count (t_start env) (api_key_manager c)
  ∧ length sent' ≤ get_available_key_count (ct_start call_env) (api_key_manager c)
  ∧ (∀ key, key ∈ sent ∨ key ∈ sent' → key ∈ api_keys (api_key_manager c))
  ∧ length sent ≤ length (api_keys (api_key_manager c))
  ∧ length sent' ≤ length (api_keys (api_key_manager c)).
Proof.
  assert (Hstream : ∀ env : environment,
    let sent := dispatched (create_chat_completion_stream env rid c).1.1 in
    length sent ≤ get_available_key_count (t_start env) (api_key_manager c)
    ∧ ∀ key, key ∈ sent → key ∈ api_keys (api_key_manager c)).
  { intros env0. unfold create_chat_completion_stream.
    set (c1 := match rid with
               | Some rid0 =>
                   if truthy rid
                   then mkClient (api_key_manager c) (<[rid0:=false]> (active_requests c))
                   else c
               | None => c
               end).
    assert (Hm : api_key_manager c1 = api_key_manager c).
    { subst c1. destruct rid; [| done]. by destruct (truthy _). }
    pose proof (retry_loop_dispatched env0 rid
                  (get_available_key_count (t_start env0) (api_key_manager c1)) 0 c1 None)
      as [Hlen Hall].
    destruct (retry_loop env0 rid _ 0 c1 None) as [[evs r] c2]. simpl in *.
    rewrite Hm in *. split; [done |]. by apply Forall_forall. }
  intros sent sent'.
  destruct (Hstream env) as [Hlen Hall].
  destruct (Hstream (as_stream_environment rid call_env)) as [Hlen' Hall'].
  pose proof (call_matches_chunkless_stream_trace call_env rid c) as Htr.
  rewrite Htr, dispatched_done_marker in Hlen', Hall'. simpl in Hlen'.
  assert (Hcount : ∀ now, get_available_key_count now (api_key_manager c)
                          ≤ length (api_keys (api_key_manager c))).
  { intros now. apply length_filter. }
  split; [done |]. split; [done |]. split.
  - intros key [Hk | Hk]; [by apply Hall | by apply Hall'].
  - split.
    + etrans; [exact Hlen | apply Hcount].
    + etrans; [exact Hlen' | apply Hcount].
Qed.


(** ** The end marker *)

Lemma consume_done rid chunks ending :
  ∀ c evs c', consume rid chunks ending c = (evs, None, c') →
              last evs = Some (Yield "data: [DONE]").
Proof.
  induction chunks as [| [chunk_json cancel_now] rest IH]; intros c evs c'; simpl.
  - destruct ending; [done |]. by intros [= <- <-].
  - destruct (cancellation_seen _ _); [done |].
    destruct (consume rid rest ending _) as [[evs0 r0] c0] eqn:E.
    intros [= <- -> <-]. rewrite last_cons. by rewrite (IH _ _ _ E).
Qed.

Lemma retry_loop_last env rid remaining :
  ∀ n c last_exception,
    let run := retry_loop env rid remaining n c last_exception in
    (run.1.2 = Returned () → last run.1.1 = Some (Yield "data: [DONE]"))
    ∧ (run.1.2 ≠ Returned () → ∀ line, last run.1.1 ≠ Some (Yield line)).
Proof.
  induction remaining as [| remaining IH]; intros n c last_exception; simpl.
  - split; [done |]. by intros _ line.
  - destruct (get_next_key (t_select env n) (api_key_manager c)) as [[api_key | pe] m];
      simpl; [| split; [done | by intros _ line]].
    destruct api_key as [key |]; [| split; [done | by intros _ line]].
    destruct (truthy (Some key)); [| split; [done | by intros _ line]].
    destruct (consume rid _ _ (set_manager m c)) as [[evs r0] c0] eqn:Hcons.
    destruct r0 as [e |].
    + destruct (classify e) as [h | h].
      * specialize (IH (S n) (set_manager (mark_key_failed (t_fail env n) key
                                (api_key_manager c0)) c0) (Some h)).
        destruct (retry_loop env rid remaining (S n) _ (Some h)) as [[evs' r'] c''].
        simpl in *. destruct IH as [Hret Hraised].
        replace (Dispatch key :: evs ++ Caught key e :: MarkFailed key :: evs')
          with ((Dispatch key :: evs ++ [Caught key e]) ++ MarkFailed key :: evs')
          by (simpl; by rewrite <- app_assoc).
        rewrite last_app, last_cons. split.
        -- intros Hr. by rewrite (Hret Hr).
        -- intros Hr line. specialize (Hraised Hr).
           destruct (last evs') as [ev |]; [| done]. intros [= ->]. by eapply Hraised.
      * simpl. split; [done |]. intros _ line.
        replace (Dispatch key :: evs ++ [Caught key e])
          with ((Dispatch key :: evs) ++ [Caught key e]) by done.
        by rewrite last_snoc.
    + simpl. split; [| done]. intros _.
      rewrite last_cons. by rewrite (consume_done _ _ _ _ _ _ Hcons).
Qed.

(** X12.  The streaming dispatch call ends with the line [data: [DONE]]
    exactly when it succeeds: after a successful call the last value
    yielded, and the last step of the call, is the end marker; a call that
    raises never ends on a yielded value. *)
Theorem stream_ends_with_done_marker env rid c :
  let run := create_chat_completion_stream env rid c in
  (run.1.2 = Returned () ↔ ∃ line, last run.1.1 = Some (Yield line))
  ∧ (run.1.2 = Returned () → last run.1.1 = Some (Yield "data: [DONE]")).
Proof.
  unfold create_chat_completion_stream.
  set (c1 := match rid with
             | Some rid0 =>
                 if truthy rid
                 then mkClient (api_key_manager c) (<[rid0:=false]> (active_requests c))
                 else c
             | None => c
             end).
  pose proof (retry_loop_last env rid
                (get_available_key_count (t_start env) (api_key_manager c1)) 0 c1 None)
    as [Hret Hraised].
  destruct (retry_loop env rid _ 0 c1 None) as [[evs r] c2]. simpl in *.
  split; [| done]. split.
  - intros Hr. eexists. by apply Hret.
  - intros [line Hline]. destruct r as [[] | f]; [done |].
    exfalso. by apply (Hraised ltac:(done) line).
Qed.

(** ** Cancellation *)

Lemma cancel_request_keeps_flag rid c :
  active_requests c !! rid = Some true →
  active_requests (cancel_request rid c).2 !! rid = Some true.
Proof.
  intros Hflag. unfold cancel_request. rewrite Hflag. simpl. apply lookup_insert_eq.
Qed.

Lemma consume_flag_set rid chunks ending c :
  rid ≠ EmptyString →
  active_requests c !! rid = Some true →
  (∀ line, Yield line ∈ (consume (Some rid) chunks ending c).1.1 → line = "data: [DONE]")
  ∧ active_requests (consume (Some rid) chunks ending c).2 !! rid = Some true.
Proof.
  intros Hrid Hflag. destruct chunks as [| [chunk_json cancel_now] rest]; simpl.
  - destruct ending; simpl; (split; [| done]); intros line Hin.
    + by apply elem_of_nil in Hin.
    + apply list_elem_of_singleton in Hin. by injection Hin.
  - set (c1 := if cancel_now then (cancel_request rid c).2 else c).
    assert (H1 : active_requests c1 !! rid = Some true).
    { subst c1. destruct cancel_now; [by apply cancel_request_keeps_flag | done]. }
    rewrite H1. rewrite bool_decide_eq_true_2 by done.
    rewrite (proj2 (negb_true_iff _)) by by apply String.eqb_neq.
    simpl. split; [| done]. intros line Hin. by apply elem_of_nil in Hin.
Qed.

Lemma retry_loop_flag_set env rid remaining :
  rid ≠ EmptyString →
  ∀ n c last_exception,
    active_requests c !! rid = Some true →
    ∀ line, Yield line ∈ (retry_loop env (Some rid) remaining n c last_exception).1.1 →
            line = "data: [DONE]".
Proof.
  intros Hrid. induction remaining as [| remaining IH];
    intros n c last_exception Hflag line; simpl.
  - intros Hin. by apply elem_of_nil in Hin.
  - destruct (get_next_key (t_select env n) (api_key_manager c)) as [[api_key | pe] m];
      simpl; [| intros Hin; by apply elem_of_nil in Hin].
    destruct api_key as [key |]; [| intros Hin; by apply elem_of_nil in Hin].
    destruct (truthy (Some key)); [| intros Hin; by apply elem_of_nil in Hin].
    pose proof (consume_flag_set rid (a_chunks (upstream env n key))
                  (a_end (upstream env n key)) (set_manager m c) Hrid Hflag)
      as [Hyields Hflag0].
    destruct (consume (Some rid) _ _ (set_manager m c)) as [[evs r0] c0]. simpl in *.
    destruct r0 as [e |].
    + destruct (classify e) as [h | h].
      * specialize (IH (S n) (set_manager (mark_key_failed (t_fail env n) key
                                (api_key_manager c0)) c0) (Some h) Hflag0 line).
        destruct (retry_loop env (Some rid) remaining (S n) _ (Some h)) as [[evs' r'] c''].
        simpl in *. rewrite !elem_of_cons, elem_of_app, !elem_of_cons.
        intros [? | [? | [? | [? | ?]]]]; try done; auto.
      * simpl. rewrite !elem_of_cons, elem_of_app, !elem_of_cons, elem_of_nil.
        intros [? | [? | [? | ?]]]; try done; auto.
    + simpl. rewrite elem_of_cons. intros [? | ?]; [done | auto].
Qed.

Lemma consume_cancelled rid chunks ending :
  ending ≠ Some Cancelled →
  ∀ c evs c', consume rid chunks ending c = (evs, Some Cancelled, c') →
    ∃ rid0, rid = Some rid0 ∧ rid0 ≠ EmptyString
            ∧ active_requests c' !! rid0 = Some true.
Proof.
  intros Hend. induction chunks as [| [chunk_json cancel_now] rest IH];
    intros c evs c'; simpl.
  - destruct ending as [e |]; [| done]. intros [= <- -> <-]. done.
  - destruct (cancellation_seen rid _) eqn:Hseen.
    + intros [= <- <-]. destruct rid as [rid0 |]; [| done]. exists rid0.
      simpl in Hseen. apply andb_true_iff in Hseen as [Hne Hflag].
      split; [done |]. split.
      * apply negb_true_iff in Hne. by apply String.eqb_neq.
      * by apply bool_decide_eq_true in Hflag.
    + destruct (consume rid rest ending _) as [[evs0 r0] c0] eqn:E.
      intros [= <- -> <-]. by eapply IH.
Qed.

Lemma retry_loop_sticky env rid remaining :
  (∀ n key, a_end (upstream env n key) ≠ Some Cancelled) →
  ∀ n c last_exception pre key post,
    (retry_loop env rid remaining n c last_exception).1.1
    = pre ++ Caught key Cancelled :: post →
    ∀ line, Yield line ∈ post → line = "data: [DONE]".
Proof.
  intros Henv. induction remaining as [| remaining IH];
    intros n c last_exception pre key0 post; simpl.
  - intros Heq. by destruct pre.
  - destruct (get_next_key (t_select env n) (api_key_manager c)) as [[api_key | pe] m];
      simpl; [| intros Heq; by destruct pre].
    destruct api_key as [key |]; [| intros Heq; by destruct pre].
    destruct (truthy (Some key)); [| intros Heq; by destruct pre].
    destruct (consume rid _ _ (set_manager m c)) as [[evs r0] c0] eqn:Hcons.
    pose proof (consume_yields _ _ _ _ _ _ _ Hcons) as Hys.
    destruct r0 as [e |].
    + destruct (classify e) as [h | h] eqn:Hcl.
      * pose proof (IH (S n) (set_manager (mark_key_failed (t_fail env n) key
                                (api_key_manager c0)) c0) (Some h)) as IH'.
        pose proof (λ rid0 Hrid Hflag,
                    retry_loop_flag_set env rid0 remaining Hrid (S n)
                      (set_manager (mark_key_failed (t_fail env n) key
                         (api_key_manager c0)) c0) (Some h) Hflag) as Hset.
        destruct (retry_loop env rid remaining (S n) _ (Some h)) as [[evs' r'] c''] eqn:Hloop.
        simpl in *. intros Heq line Hin.
        destruct pre as [| p pre]; [done |]. simpl in Heq. injection Heq as <- Heq.
        apply split_after_yields in Heq as [(-> & -> & <- & ->) | (pre' & -> & Htl)];
          [| | done].
        -- apply consume_cancelled in Hcons as (rid0 & -> & Hrid & Hflag); [| apply Henv].
           apply elem_of_cons in Hin as [? | Hin]; [done |].
           specialize (Hset rid0 Hrid Hflag line). rewrite Hloop in Hset. by apply Hset.
        -- destruct pre' as [| p' pre']; [done |]. simpl in Htl.
           injection Htl as <- Htl. by eapply IH'.
      * simpl. intros Heq line Hin.
        destruct pre as [| p pre]; [done |]. simpl in Heq. injection Heq as <- Heq.
        replace (evs ++ [Caught key e]) with (evs ++ Caught key e :: []) in Heq by done.
        apply split_after_yields in Heq as [(-> & -> & <- & ->) | (pre' & -> & Htl)];
          [| by destruct pre' | done].
        by apply elem_of_nil in Hin.
    + simpl. intros Heq line Hin.
      destruct pre as [| p pre]; [done |]. simpl in Heq. injection Heq as <- Heq.
      exfalso. assert (Hc : Caught key0 Cancelled ∈ evs).
      { rewrite Heq. apply elem_of_app. right. by left. }
      rewrite Forall_forall in Hys. by apply Hys in Hc.
Qed.

(** X13.  Cancellation is sticky.  When the upstream itself raises no
    HTTPException 499, an entry into the handler for the cancellation of
    the request means that the flag of the request was set, and from then
    on no further chunk reaches the consumer: the retry loop may go on to
    the next keys, but whatever it yields after that point is at most the
    end marker of a stream that had no chunk. *)
Theorem cancellation_is_sticky env rid c :
  (∀ n key, a_end (upstream env n key) ≠ Some Cancelled) →
  ∀ pre key post,
    (create_chat_completion_stream env rid c).1.1 = pre ++ Caught key Cancelled :: post →
    ∀ line, Yield line ∈ post → line = "data: [DONE]".
Proof.
  intros Henv pre key post. unfold create_chat_completion_stream.
  set (c1 := match rid with
             | Some rid0 =>
                 if truthy rid
                 then mkClient (api_key_manager c) (<[rid0:=false]> (active_requests c))
                 else c
             | None => c
             end).
  pose proof (retry_loop_sticky env rid
                (get_available_key_count (t_start env) (api_key_manager c1))
                Henv 0 c1 None pre key post) as Hloop.
  by destruct (retry_loop env rid _ 0 c1 None) as [[evs r] c2].
Qed.


(** ** [classify_openai_error] *)

Lemma classify_openai_error_cases s :
  classify_openai_error s = s
  ∨ classify_openai_error s
    = "OpenAI API is not available in your region. Consider using a VPN or Azure OpenAI service."
  ∨ classify_openai_error s
    = "Invalid API key. Please check your OPENAI_API_KEY configuration."
  ∨ classify_openai_error s
    = "Rate limit exceeded. Please wait and try again, or upgrade your API plan."
  ∨ classify_openai_error s
    = "Model not found. Please check your BIG_MODEL and SMALL_MODEL configuration."
  ∨ classify_openai_error s
    = "Billing issue. Please check your OpenAI account billing status.".
Proof.
  unfold classify_openai_error.
  destruct (_ || _); [tauto |].
  destruct (_ || _); [tauto |].
  destruct (_ || _); [tauto |].
  destruct (_ && _); [tauto |].
  destruct (_ || _); tauto.
Qed.

(** X14.  [classify_openai_error] returns its argument or one of five fixed
    messages, it is idempotent (a message it produced is classified as
    itself), and which message it picks depends on the text only up to
    the case of its letters. *)
Theorem classify_openai_error_idempotent s :
  classify_openai_error (classify_openai_error s) = classify_openai_error s
  ∧ (∀ s', lower s' = lower s →
       classify_openai_error s' = classify_openai_error s
       ∨ (classify_openai_error s' = s' ∧ classify_openai_error s = s)).
Proof.
  split.
  - destruct (classify_openai_error_cases s) as [H | [H | [H | [H | [H | H]]]]];
      rewrite H; try (vm_compute; reflexivity). exact H.
  - intros s' Hlower. unfold classify_openai_error. rewrite Hlower.
    destruct (_ || _); [by left |].
    destruct (_ || _); [by left |].
    destruct (_ || _); [by left |].
    destruct (_ && _); [by left |].
    destruct (_ || _); [by left | by right].
Qed.


Lemma cancellation_is_sticky_witness :
  (create_chat_completion_stream demo_cancel_env (Some "req-1") demo_client).1.1
  = [Dispatch "sk-a"; Yield "data: chunk-1"; Caught "sk-a" Cancelled; MarkFailed "sk-a";
     Dispatch "sk-b"; Caught "sk-b" Cancelled; MarkFailed "sk-b"]
  ∧ ∀ line, Yield line ∈ [MarkFailed "sk-a"; Dispatch "sk-b"; Caught "sk-b" Cancelled;
                          MarkFailed "sk-b"] →
            line = "data: [DONE]".
Proof.
  assert (Henv : ∀ n key, a_end (upstream demo_cancel_env n key) ≠ Some Cancelled) by done.
  assert (Htrace :
    (create_chat_completion_stream demo_cancel_env (Some "req-1") demo_client).1.1
    = [Dispatch "sk-a"; Yield "data: chunk-1"] ++ Caught "sk-a" Cancelled
      :: [MarkFailed "sk-a"; Dispatch "sk-b"; Caught "sk-b" Cancelled; MarkFailed "sk-b"])
    by (vm_compute; reflexivity).
  split; [exact Htrace |].
  exact (cancellation_is_sticky demo_cancel_env (Some "req-1") demo_client Henv _ _ _ Htrace).
Defined.

Example plain_call_rotates_keys :
  (create_chat_completion demo_call_env None demo_client).1
  = ([Dispatch "sk-a"; Caught "sk-a" (AuthenticationError "invalid_api_key");
      MarkFailed "sk-a"; Dispatch "sk-b"], Returned "completion").
Proof. vm_compute. reflexivity. Qed.

End DispatchLaws.

(* ===================================================================== *)
(** * Configuration *)
(* ===================================================================== *)

Module SettingsLaws.
Import KeyManager KeyManagerFacts KeyManagerLaws Dispatch Settings.

(** ** [str.strip] *)












(** ** [str.split] and [str.join] *)







(** ** The list of keys *)







(** ** [Config.__init__] *)


(** The primary key of a configuration that loads is its first key. *)
Lemma Config_init_first_key py_int environ cfg :
  Config_init py_int environ = Returned cfg →
  openai_api_keys cfg !! 0 = Some (openai_api_key cfg).
Proof.
  unfold Config_init. intros H. repeat case_match; by simplify_eq/=.
Qed.

(** ** From the configuration to the first key *)

(** X17.  A configuration that loads gives a client that works: building
    the client from the configured keys raises nothing, the client's
    primary key is the configuration's, every configured key counts as
    available, and the first key handed out is the primary key. *)
Theorem configured_client_is_ready py_int environ cfg now :
  Config_init py_int environ = Returned cfg →
  ∃ client,
    client_init (inr (openai_api_keys cfg)) = Returned (client, openai_api_key cfg)
    ∧ cursor_ok (api_key_manager client)
    ∧ active_requests client = ∅
    ∧ get_available_key_count now (api_key_manager client) = get_api_key_count cfg
    ∧ (get_next_key now (api_key_manager client)).1 = Returned (Some (openai_api_key cfg)).
Proof.
  intros Hcfg. pose proof (Config_init_first_key _ _ _ Hcfg) as Hfirst.
  exists (mkClient (init (openai_api_keys cfg) 300) ∅).
  split; [| split; [| split; [| split]]].
  - unfold client_init. by rewrite Hfirst.
  - apply cursor_ok_init.
  - done.
  - unfold get_available_key_count, get_api_key_count. simpl.
    apply filter_length_all. intros k _. unfold key_available. simpl.
    by rewrite lookup_empty.
  - simpl. by rewrite (get_next_key_no_failures now (init (openai_api_keys cfg) 300)
                         (openai_api_key cfg) eq_refl Hfirst).
Qed.

Lemma configured_client_is_ready_witness :
  Config_init demo_int demo_environ = Returned demo_settings
  ∧ ∃ client,
      client_init (inr ["sk-a"; "sk-b"]) = Returned (client, "sk-a")
      ∧ cursor_ok (api_key_manager client)
      ∧ active_requests client = ∅
      ∧ get_available_key_count 0 (api_key_manager client) = 2
      ∧ (get_next_key 0 (api_key_manager client)).1 = Returned (Some "sk-a").
Proof.
  assert (Hcfg : Config_init demo_int demo_environ = Returned demo_settings)
    by (vm_compute; reflexivity).
  split; [exact Hcfg |].
  exact (configured_client_is_ready demo_int demo_environ demo_settings 0 Hcfg).
Defined.

End SettingsLaws.

(* ===================================================================== *)
(** * Request conversion: further properties *)
(* ===================================================================== *)

Module RequestLaws.
Import Constants Request RequestFacts.

Section Laws.

Variable json_dumps : json → string.
Variable json_dumps_dict : block_dict → option string.
Variable py_str : json → option string.
Variable py_str_part : json → string.
Variable py_str_dict : block_dict → string.
Variable map_model : string → string.

(** ** The stand-alone converters *)

Lemma collect_assistant_blocks_spec blocks :
  ∀ text_parts tool_calls,
    collect_assistant_blocks json_dumps blocks text_parts tool_calls
    = (text_parts ++ omap block_text (filter (λ p, is_text_or_image p = true) blocks),
       tool_calls ++ omap (tool_use_call json_dumps) (filter (λ p, is_tool_use p = true) blocks)).
Proof.
  induction blocks as [| block blocks IH]; intros text_parts tool_calls.
  - simpl. by rewrite !app_nil_r.
  - rewrite !filter_cons.
    destruct block; simpl; rewrite IH; simpl; by rewrite <- ?app_assoc.
Qed.

(** X18.  [convert_claude_assistant_message] and the assistant branch of
    [convert_claude_to_openai] are one conversion: on every message with
    the role [assistant] the message that the request converter appends
    is the one the stand-alone function returns. *)
Theorem assistant_converters_agree (m : ClaudeMessage) :
  role m = ROLE_ASSISTANT →
  convert_message json_dumps json_dumps_dict py_str py_str_part py_str_dict m
  = [convert_claude_assistant_message json_dumps (Some (content m))].
Proof.
  intros Hrole. unfold convert_message, convert_claude_assistant_message.
  rewrite Hrole. destruct (content m) as [s | blocks]; [done |].
  simpl. rewrite collect_assistant_blocks_spec. simpl. done.
Qed.

Lemma tool_result_messages_spec blocks :
  tool_result_messages json_dumps_dict py_str py_str_part py_str_dict blocks
  = omap (tool_result_message json_dumps_dict py_str py_str_part py_str_dict)
         (filter (λ p, is_tool_result p = true) blocks).
Proof.
  induction blocks as [| block blocks IH]; [done |].
  rewrite filter_cons. destruct (decide (is_tool_result block = true)) as [Hp | Hp].
  - rewrite StreamingFacts.omap_cons_eq, <- IH. by destruct block.
  - rewrite <- IH. by destruct block.
Qed.

Lemma convert_block_plain (blocks : list ContentBlock) :
  omap convert_block (filter (λ p, is_text_or_image p = true) blocks)
  = omap convert_block blocks.
Proof.
  induction blocks as [| block blocks IH]; [done |].
  rewrite filter_cons. destruct (decide (is_text_or_image block = true)) as [Hp | Hp].
  - by rewrite !StreamingFacts.omap_cons_eq, IH.
  - rewrite (StreamingFacts.omap_cons_eq _ block), IH. by destruct block.
Qed.

(** X19.  [convert_claude_tool_results] and [convert_claude_user_message]
    together are the user branch of [convert_claude_to_openai]: for a user
    message with block content the request converter appends the messages
    of the first function and then, when the message has a text or image
    block, the message of the second; for a user message with string
    content it appends the message of the second alone. *)
Theorem user_converters_agree (c : MessageContent) :
  convert_message json_dumps json_dumps_dict py_str py_str_part py_str_dict
    (mkMessage ROLE_USER c)
  = convert_claude_tool_results json_dumps_dict py_str py_str_part py_str_dict (Some c)
    ++ match c with
       | ContentStr _ => [convert_claude_user_message (Some c)]
       | ContentBlocks blocks =>
           if existsb is_text_or_image blocks
           then [convert_claude_user_message (Some c)]
           else []
       end.
Proof.
  destruct c as [s | blocks]; [done |].
  unfold convert_message, convert_claude_tool_results, convert_claude_user_message. simpl.
  unfold convert_user_blocks. rewrite tool_result_messages_spec. f_equal.
  rewrite <- convert_block_plain.
  assert (Hex : existsb is_text_or_image blocks
                = match filter (λ p, is_text_or_image p = true) blocks with
                  | [] => false | _ => true end).
  { induction blocks as [| block blocks IH]; [done |].
    rewrite filter_cons. simpl. destruct (is_text_or_image block); simpl; [done |].
    by rewrite IH. }
  rewrite Hex.
  destruct (filter (λ p, is_text_or_image p = true) blocks) as [| p plain]; [done |].
  unfold _convert_content_blocks_to_openai.
  by destruct (omap convert_block (p :: plain)) as [| [text flag | url] [| q rest]].
Qed.

(** ** Messages that leave no trace *)

Lemma tool_results_filter blocks :
  tool_results blocks = [] ↔ filter (λ p, is_tool_result p = true) blocks = [].
Proof.
  induction blocks as [| block blocks IH]; [done |].
  rewrite filter_cons. destruct block; simpl; try done.
Qed.

Lemma existsb_plain_blocks blocks :
  existsb is_text_or_image blocks
  = match plain_blocks blocks with [] => false | _ => true end.
Proof. induction blocks as [| block rest IH]; [done |]. destruct block; simpl; auto. Qed.

(** X20.  Which messages vanish in the conversion.  A message given as a
    string always yields one message.  A message given as blocks yields
    nothing exactly when its role is neither [user] nor [assistant], or
    when it is a user message without any tool-result, text or image
    block; an assistant message always yields exactly one message, and a
    user message one per tool result plus one if it has text or images. *)
Theorem messages_left_out (m : ClaudeMessage) :
  let out := convert_message json_dumps json_dumps_dict py_str py_str_part py_str_dict m in
  (out = [] ↔
   ∃ blocks, content m = ContentBlocks blocks
     ∧ ((role m = ROLE_USER ∧ tool_results blocks = [] ∧ plain_blocks blocks = [])
        ∨ (role m ≠ ROLE_USER ∧ role m ≠ ROLE_ASSISTANT)))
  ∧ (∀ s, content m = ContentStr s → length out = 1)
  ∧ (∀ blocks, content m = ContentBlocks blocks → role m = ROLE_ASSISTANT → length out = 1)
  ∧ (∀ blocks, content m = ContentBlocks blocks → role m = ROLE_USER →
       length out = length (tool_results blocks)
                    + (if existsb is_text_or_image blocks then 1 else 0)).
Proof.
  intros out. subst out. unfold convert_message.
  destruct (content m) as [s | blocks] eqn:Hcontent.
  - split; [| split; [done | split; intros ? [=]]].
    split; [done |]. by intros (blocks & [=] & _).
  - destruct (String.eqb (role m) ROLE_USER) eqn:Huser.
    + apply String.eqb_eq in Huser.
      rewrite (convert_user_blocks_spec json_dumps_dict py_str py_str_part py_str_dict).
      pose proof (existsb_plain_blocks blocks) as Hex.
      split; [| split; [done | split]].
      * split.
        -- intros Hnil. apply app_eq_nil in Hnil as [Htr Hplain].
           apply fmap_nil_inv in Htr. exists blocks. split; [done |]. left.
           split; [done |]. split; [done |]. by destruct (plain_blocks blocks).
        -- intros (blocks' & [= <-] & [(_ & -> & ->) | (Hne & _)]); [done |].
           by destruct Hne.
      * intros blocks' _ Hrole. rewrite Huser in Hrole. done.
      * intros blocks' [= <-] _. rewrite length_app, length_fmap, Hex.
        by destruct (plain_blocks blocks).
    + apply String.eqb_neq in Huser.
      destruct (String.eqb (role m) ROLE_ASSISTANT) eqn:Hassistant.
      * apply String.eqb_eq in Hassistant.
        split; [| split; [done | split; [done |]]].
        -- split; [done |].
           intros (blocks' & _ & [(Hrole & _) | (_ & Hne)]); [by destruct Huser | by destruct Hne].
        -- intros blocks' _ Hrole. by destruct Huser.
      * apply String.eqb_neq in Hassistant.
        split; [| split; [done | split]].
        -- split; [| done]. intros _. exists blocks. split; [done |]. by right.
        -- intros blocks' _ Hrole. by destruct Hassistant.
        -- intros blocks' _ Hrole. by destruct Huser.
Qed.

(** ** Tool calls of an assistant message *)

Lemma tool_use_calls_spec blocks :
  omap (tool_use_call json_dumps) (filter (λ p, is_tool_use p = true) blocks)
  = (λ u, mkToolCall u.1.1 u.1.2 (json_dumps u.2)) <$> tool_uses blocks.
Proof.
  induction blocks as [| block blocks IH]; [done |].
  rewrite filter_cons. destruct (decide (is_tool_use block = true)) as [Hp | Hp].
  - rewrite StreamingFacts.omap_cons_eq, IH. by destruct block.
  - rewrite IH. by destruct block.
Qed.

(** X21.  The tool calls of an assistant message are its tool-use blocks,
    one call per block and in the same order, each with the id and the
    name of its block and the serialised input as arguments; the
    [tool_calls] entry is left out, never sent as an empty array, when
    the message has no tool-use block. *)
Theorem assistant_tool_calls (blocks : list ContentBlock) :
  ∃ msg,
    convert_message json_dumps json_dumps_dict py_str py_str_part py_str_dict
      (mkMessage ROLE_ASSISTANT (ContentBlocks blocks)) = [msg]
    ∧ t_role msg = ROLE_ASSISTANT
    ∧ t_tool_calls msg ≠ Some []
    ∧ (t_tool_calls msg = None ↔ tool_uses blocks = [])
    ∧ default [] (t_tool_calls msg)
      = (λ u, mkToolCall u.1.1 u.1.2 (json_dumps u.2)) <$> tool_uses blocks.
Proof.
  eexists. split; [reflexivity |]. simpl. rewrite tool_use_calls_spec.
  destruct (tool_uses blocks) as [| u us]; simpl; repeat split; done.
Qed.

(** ** Tools *)


(** ** The system message *)


End Laws.

Lemma assistant_converters_agree_witness :
  convert_message demo_dumps demo_dumps_dict demo_str demo_part_str demo_str_dict
    (mkMessage ROLE_ASSISTANT
       (ContentBlocks [Text "Let me check"; ToolUse "w1" "get_weather" (JObj [])]))
  = [mkTarget ROLE_ASSISTANT (TStr "Let me check") None
       (Some [mkToolCall "w1" "get_weather" "{}"])].
Proof.
  exact (assistant_converters_agree demo_dumps demo_dumps_dict demo_str demo_part_str
           demo_str_dict
           (mkMessage ROLE_ASSISTANT
              (ContentBlocks [Text "Let me check"; ToolUse "w1" "get_weather" (JObj [])]))
           eq_refl).
Defined.

End RequestLaws.

(* ===================================================================== *)
(** * Response conversion: further properties *)
(* ===================================================================== *)

Module ResponseLaws.
Import Constants Settings Request Response.

(** ** Splitting at a character *)

Lemma after_char_None c s : after_char c s = None ↔ free_of c s = true.
Proof.
  induction s as [| a t IH]; simpl; [done |].
  destruct (Ascii.eqb a c); simpl; [split; intros; done | done].
Qed.

Lemma before_after_char c s t :
  after_char c s = Some t → s = before_char c s +:+ String c t.
Proof.
  induction s as [| a r IH]; simpl; [done |].
  destruct (Ascii.eqb a c) eqn:E.
  - intros [= <-]. apply Ascii.eqb_eq in E. by subst.
  - intros H. change (String a r = String a (before_char c r +:+ String c t)).
    f_equal. by apply IH.
Qed.

Lemma before_char_free c s : free_of c (before_char c s) = true.
Proof.
  induction s as [| a t IH]; simpl; [done |].
  destruct (Ascii.eqb a c) eqn:E; simpl; [done |]. by rewrite E, IH.
Qed.

Lemma before_char_keeps_free c d s : free_of d s = true → free_of d (before_char c s) = true.
Proof.
  induction s as [| a t IH]; simpl; [done |]. intros H.
  apply andb_true_iff in H as [Ha Ht].
  destruct (Ascii.eqb a c); simpl; [done |]. by rewrite Ha, IH.
Qed.

Lemma after_char_app_free c p s :
  free_of c p = true → after_char c (p +:+ s) = after_char c s.
Proof.
  induction p as [| a t IH]; simpl; [done |]. intros H.
  apply andb_true_iff in H as [Ha Ht]. apply negb_true_iff in Ha. rewrite Ha. by apply IH.
Qed.

Lemma before_char_app_free c p s :
  free_of c p = true → before_char c (p +:+ s) = p +:+ before_char c s.
Proof.
  induction p as [| a t IH]; simpl; [done |]. intros H.
  apply andb_true_iff in H as [Ha Ht]. apply negb_true_iff in Ha. rewrite Ha.
  by rewrite IH.
Qed.

Lemma app_empty_r (s : string) : s +:+ EmptyString = s.
Proof.
  induction s as [| a t IH]; [done |].
  change (String a (t +:+ EmptyString) = String a t). by rewrite IH.
Qed.

Lemma prefix_app p s : String.prefix p s = true → ∃ r, s = p +:+ r.
Proof.
  revert s. induction p as [| a t IH]; intros s H.
  - by exists s.
  - destruct s as [| b r]; simpl in H; [done |].
    destruct (ascii_dec a b) as [-> | ?]; [| done].
    destruct (IH _ H) as [r' ->]. by exists r'.
Qed.

Lemma prefix_of_app p r : String.prefix p (p +:+ r) = true.
Proof.
  induction p as [| a t IH]; [by destruct r |].
  change (String.prefix (String a t) (String a (t +:+ r)) = true). simpl.
  by destruct (ascii_dec a a).
Qed.

(** ** Data URLs *)

(** X24.  On a URL that starts with [data:], as the converter calls it, the
    parsing of a data URL fails only for want of a comma: it raises
    [ValueError] exactly when the URL has no comma and never [IndexError];
    when it succeeds the data is everything after the first comma and the
    media type holds no comma, colon or semicolon. *)
Theorem data_url_parsing url :
  String.prefix "data:" url = true →
  parse_data_url url ≠ Raised ParseIndexError
  ∧ (parse_data_url url = Raised ValueError ↔ free_of "," url = true)
  ∧ ∀ media_type data, parse_data_url url = Returned (media_type, data) →
      url = before_char "," url +:+ String "," data
      ∧ free_of "," media_type = true
      ∧ free_of ":" media_type = true
      ∧ free_of ";" media_type = true.
Proof.
  intros Hprefix. apply prefix_app in Hprefix as [r ->].
  unfold parse_data_url.
  destruct (after_char "," ("data:" +:+ r)) as [data |] eqn:Hafter.
  - assert (Hheader : after_char ":" (before_char "," ("data:" +:+ r))
                      = Some (before_char "," r)) by done.
    rewrite Hheader. split; [done |]. split.
    + split; [done |]. intros Hfree. apply after_char_None in Hfree. congruence.
    + intros media_type data' [= <- <-]. split; [by apply before_after_char |].
      split; [| split].
      * apply before_char_keeps_free, before_char_keeps_free, before_char_free.
      * apply before_char_keeps_free, before_char_free.
      * apply before_char_free.
  - split; [done |]. split; [| done]. split; [| done]. intros _.
    by apply after_char_None.
Qed.

(** X25.  The data URL that the request converter writes for a base64 image
    is read back by the response converter as the same media type and the
    same data, provided the media type has no comma, colon or semicolon
    (the data may contain any character). *)
Theorem image_data_url_round_trip py_str_item media_type data :
  free_of "," media_type = true →
  free_of ":" media_type = true →
  free_of ";" media_type = true →
  ∃ url,
    convert_block (Image (mkImageSource (Some "base64") (Some media_type) (Some data)))
    = Some (PImageUrl url)
    ∧ parse_data_url url = Returned (media_type, data)
    ∧ convert_item py_str_item (Some (mkItem (Some "image_url") None (Some url)))
      = [ImageBlock media_type data].
Proof.
  intros Hcomma Hcolon Hsemi.
  exists ("data:" +:+ media_type +:+ ";base64," +:+ data).
  assert (Hparse : parse_data_url ("data:" +:+ media_type +:+ ";base64," +:+ data)
                   = Returned (media_type, data)).
  { unfold parse_data_url.
    assert (Hafter : after_char "," ("data:" +:+ media_type +:+ ";base64," +:+ data)
                     = Some data).
    { change (after_char "," (media_type +:+ ";base64," +:+ data) = Some data).
      by rewrite after_char_app_free. }
    assert (Hheader : before_char "," ("data:" +:+ media_type +:+ ";base64," +:+ data)
                      = "data:" +:+ media_type +:+ ";base64").
    { change ("data:" +:+ before_char "," (media_type +:+ ";base64," +:+ data)
              = "data:" +:+ media_type +:+ ";base64").
      by rewrite before_char_app_free. }
    rewrite Hafter, Hheader.
    change (after_char ":" ("data:" +:+ media_type +:+ ";base64"))
      with (Some (media_type +:+ ";base64")).
    cbv beta iota.
    rewrite (before_char_app_free ":" media_type) by done.
    change (before_char ":" ";base64") with ";base64".
    rewrite (before_char_app_free ";" media_type) by done.
    change (before_char ";" ";base64") with EmptyString.
    by rewrite app_empty_r. }
  split; [done |]. split; [done |].
  unfold convert_item.
  rewrite bool_decide_eq_false_2 by done. rewrite bool_decide_eq_true_2 by done.
  cbn [it_url default from_option id].
  by rewrite prefix_of_app, Hparse.
Qed.

Lemma image_data_url_round_trip_witness :
  parse_data_url "data:image/png;base64,AAAA,BB" = Returned ("image/png", "AAAA,BB").
Proof.
  destruct (image_data_url_round_trip demo_item_str "image/png" "AAAA,BB"
              eq_refl eq_refl eq_refl) as (url & Hurl & Hparse & _).
  injection Hurl as <-. exact Hparse.
Defined.

Lemma data_url_parsing_witness :
  parse_data_url "data:malformed-without-comma" = Raised ValueError.
Proof.
  exact (proj2 (proj1 (proj2 (data_url_parsing "data:malformed-without-comma" eq_refl)))
           eq_refl).
Defined.

(** ** Stop reasons *)

(** The streaming translators and the non-streaming converter map a
    finish reason to the same stop reason, and the result is always one of
    [end_turn], [max_tokens] and [tool_use]: [max_tokens] exactly for
    [length], [tool_use] exactly for [tool_calls] and [function_call], and
    [end_turn] for everything else. *)
Lemma stop_reason_mapping finish_reason :
  Streaming.stream_stop_reason finish_reason = map_stop_reason finish_reason
  ∧ map_stop_reason finish_reason ∈ [STOP_END_TURN; STOP_MAX_TOKENS; STOP_TOOL_USE]
  ∧ (map_stop_reason finish_reason = STOP_MAX_TOKENS ↔ finish_reason = "length")
  ∧ (map_stop_reason finish_reason = STOP_TOOL_USE
     ↔ finish_reason = "tool_calls" ∨ finish_reason = "function_call").
Proof.
  unfold Streaming.stream_stop_reason, map_stop_reason,
    STOP_END_TURN, STOP_MAX_TOKENS, STOP_TOOL_USE.
  destruct (String.eqb_spec finish_reason "stop") as [-> | H1].
  { split; [done |]. split; [set_solver |]. split; split; try done. by intros [|]. }
  destruct (String.eqb_spec finish_reason "length") as [-> | H2].
  { split; [done |]. split; [set_solver |]. split; split; try done. by intros [|]. }
  destruct (String.eqb_spec finish_reason "tool_calls") as [-> | H3].
  { split; [done |]. split; [set_solver |]. split; split; try done. by left. }
  destruct (String.eqb_spec finish_reason "function_call") as [-> | H4].
  { split; [done |]. split; [set_solver |]. split; split; try done. by right. }
  split; [done |]. split; [set_solver |]. split; split; try done. by intros [|].
Qed.

End ResponseLaws.

(* ===================================================================== *)
(** * Streaming translation: further properties *)
(* ===================================================================== *)

Module StreamingLaws.
Import Constants Response Streaming StreamingFacts.

Section Laws.

Variable json_loads : string → parsed.
Variable json_valid : string → bool.
Variable config : Config.
Variable message_id : string.

(** ** Lines that are skipped *)

Lemma process_line_ignored st line :
  ignored_line json_loads line = true →
  process_line json_loads json_valid st line = (st, [], Next).
Proof.
  unfold ignored_line, process_line. intros H.
  destruct (nonempty (strip line)); [| done].
  destruct (String.prefix "data: " line); [| done].
  destruct (String.eqb (strip (string_drop 6 line)) "[DONE]"); [done |].
  by destruct (json_loads (string_drop 6 line)).
Qed.

Lemma process_line_with_usage_ignored st line :
  ignored_line json_loads line = true →
  process_line_with_usage json_loads json_valid config st line = (st, [], Next).
Proof.
  unfold ignored_line, process_line_with_usage. intros H.
  destruct (nonempty (strip line)); [| done].
  destruct (String.prefix "data: " line); [| done].
  destruct (String.eqb (strip (string_drop 6 line)) "[DONE]"); [done |].
  by destruct (json_loads (string_drop 6 line)).
Qed.

Lemma stream_loop_skip st line rest :
  process_line json_loads json_valid st line = (st, [], Next) →
  stream_loop json_loads json_valid st (line :: rest)
  = stream_loop json_loads json_valid st rest.
Proof.
  intros H. simpl. rewrite H.
  by destruct (stream_loop json_loads json_valid st rest) as [[st' evs'] c'].
Qed.

Lemma stream_loop_without_ignored lines :
  ∀ st, stream_loop json_loads json_valid st
          (filter (λ line, ignored_line json_loads line = false) lines)
        = stream_loop json_loads json_valid st lines.
Proof.
  induction lines as [| line rest IH]; intros st; [done |].
  rewrite filter_cons. destruct (ignored_line json_loads line) eqn:Hig.
  - rewrite decide_False by done.
    by rewrite IH, (stream_loop_skip st line rest (process_line_ignored st line Hig)).
  - rewrite decide_True by done. simpl.
    destruct (process_line json_loads json_valid st line) as [[st1 evs1] c1].
    destruct c1; [| done | done]. by rewrite IH.
Qed.

Lemma stream_loop_with_cancellation_without_ignored request_id lines :
  ∀ client st,
    stream_loop_with_cancellation json_loads json_valid config request_id client st
      (filter (λ l, ignored_line json_loads l.1 = false ∨ l.2 = true) lines)
    = stream_loop_with_cancellation json_loads json_valid config request_id client st lines.
Proof.
  induction lines as [| [line disconnected] rest IH]; intros client st; [done |].
  rewrite filter_cons. simpl. destruct disconnected.
  - rewrite decide_True by by right. done.
  - destruct (ignored_line json_loads line) eqn:Hig.
    + rewrite decide_False by (intros [? | ?]; done).
      rewrite (process_line_with_usage_ignored st line Hig), IH.
      by destruct (stream_loop_with_cancellation _ _ _ _ client st rest) as [[[c' st'] evs'] ctl].
    + rewrite decide_True by by left. simpl.
      destruct (process_line_with_usage json_loads json_valid config st line)
        as [[st1 evs1] c1].
      destruct c1; [| done | done]. by rewrite IH.
Qed.

(** X26.  Lines that the translators skip leave no trace.  Blank lines,
    lines that do not start with [data: ] and payloads that are not valid
    JSON can be removed from the upstream stream, or added to it, without
    changing a single event of the translation; for the translator with
    cancellation this holds for the lines at which the client is still
    connected, and the registry of active requests is the same too. *)
Theorem skipped_lines_leave_no_trace lines ending model cancel_lines client request_id :
  convert_openai_streaming_to_claude json_loads json_valid message_id
    (filter (λ line, ignored_line json_loads line = false) lines) ending model
  = convert_openai_streaming_to_claude json_loads json_valid message_id lines ending model
  ∧ convert_openai_streaming_to_claude_with_cancellation json_loads json_valid config
      message_id
      (filter (λ l, ignored_line json_loads l.1 = false ∨ l.2 = true) cancel_lines)
      ending model client request_id
    = convert_openai_streaming_to_claude_with_cancellation json_loads json_valid config
        message_id cancel_lines ending model client request_id.
Proof.
  split.
  - unfold convert_openai_streaming_to_claude. by rewrite stream_loop_without_ignored.
  - unfold convert_openai_streaming_to_claude_with_cancellation.
    by rewrite stream_loop_with_cancellation_without_ignored.
Qed.

(** ** The end marker *)

Lemma stream_loop_app pre rest :
  ∀ st,
    stream_loop json_loads json_valid st (pre ++ rest)
    = match (stream_loop json_loads json_valid st pre).2 with
      | Next =>
          ((stream_loop json_loads json_valid
              (stream_loop json_loads json_valid st pre).1.1 rest).1.1,
           (stream_loop json_loads json_valid st pre).1.2
           ++ (stream_loop json_loads json_valid
                 (stream_loop json_loads json_valid st pre).1.1 rest).1.2,
           (stream_loop json_loads json_valid
              (stream_loop json_loads json_valid st pre).1.1 rest).2)
      | _ => stream_loop json_loads json_valid st pre
      end.
Proof.
  induction pre as [| line pre IH]; intros st.
  - simpl. by destruct (stream_loop json_loads json_valid st rest) as [[st' evs'] c'].
  - simpl. destruct (process_line json_loads json_valid st line) as [[st1 evs1] c1].
    destruct c1; [| done | done]. rewrite IH.
    destruct (stream_loop json_loads json_valid st1 pre) as [[st2 evs2] c2]. simpl.
    destruct c2; [| done | done]. by rewrite app_assoc.
Qed.

Lemma stream_loop_with_cancellation_app request_id pre rest :
  ∀ client st,
    stream_loop_with_cancellation json_loads json_valid config request_id client st
      (pre ++ rest)
    = let run := stream_loop_with_cancellation json_loads json_valid config request_id
                   client st pre in
      match run.2 with
      | Next =>
          let run' := stream_loop_with_cancellation json_loads json_valid config
                        request_id run.1.1.1 run.1.1.2 rest in
          (run'.1.1.1, run'.1.1.2, run.1.2 ++ run'.1.2, run'.2)
      | _ => run
      end.
Proof.
  induction pre as [| [line disconnected] pre IH]; intros client st.
  - simpl. by destruct (stream_loop_with_cancellation _ _ _ _ client st rest)
      as [[[c' st'] evs'] ctl].
  - simpl. destruct disconnected; [done |].
    destruct (process_line_with_usage json_loads json_valid config st line)
      as [[st1 evs1] c1].
    destruct c1; [| done | done]. rewrite IH.
    destruct (stream_loop_with_cancellation _ _ _ _ client st1 pre)
      as [[[c2 st2] evs2] ctl2]. simpl.
    destruct ctl2; [| done | done]. by rewrite app_assoc.
Qed.

Lemma process_line_done st line :
  is_done_line line = true →
  process_line json_loads json_valid st line = (st, [], Break)
  ∧ process_line_with_usage json_loads json_valid config st line = (st, [], Break).
Proof.
  unfold is_done_line, process_line, process_line_with_usage. intros H.
  apply andb_true_iff in H as [H H3]. apply andb_true_iff in H as [H1 H2].
  by rewrite H1, H2, H3.
Qed.

(** X27.  Nothing that follows the end marker matters.  Once a line
    [data: [DONE]] has been read, the translation is the same whatever
    lines follow it and however the upstream iterator ends afterwards
    (exhausted or raising); for the translator with cancellation it is
    also the same whether or not the client disconnects later. *)
Theorem nothing_after_done_matters pre done_line rest ending ending' model
    cancel_pre cancel_rest client request_id :
  is_done_line done_line = true →
  convert_openai_streaming_to_claude json_loads json_valid message_id
    (pre ++ done_line :: rest) ending model
  = convert_openai_streaming_to_claude json_loads json_valid message_id
      (pre ++ [done_line]) ending' model
  ∧ convert_openai_streaming_to_claude_with_cancellation json_loads json_valid config
      message_id (cancel_pre ++ (done_line, false) :: cancel_rest) ending model
      client request_id
    = convert_openai_streaming_to_claude_with_cancellation json_loads json_valid config
        message_id (cancel_pre ++ [(done_line, false)]) ending' model client request_id.
Proof.
  intros Hdone. split.
  - unfold convert_openai_streaming_to_claude. rewrite !stream_loop_app.
    destruct (stream_loop json_loads json_valid initial_state pre) as [[st1 evs1] c1].
    simpl. destruct c1; simpl; [| done | done].
    rewrite (proj1 (process_line_done st1 done_line Hdone)). done.
  - unfold convert_openai_streaming_to_claude_with_cancellation.
    rewrite !stream_loop_with_cancellation_app.
    destruct (stream_loop_with_cancellation _ _ _ _ client initial_state cancel_pre)
      as [[[c1 st1] evs1] ctl1].
    simpl. destruct ctl1; simpl; [| done | done].
    rewrite (proj2 (process_line_done st1 done_line Hdone)). done.
Qed.

(** ** Text *)

Lemma text_deltas_app evs evs' :
  text_deltas (evs ++ evs') = text_deltas evs ++ text_deltas evs'.
Proof. apply omap_app. Qed.

Lemma process_tool_delta_text st tc_delta :
  text_deltas (process_tool_delta json_valid st tc_delta).2 = [].
Proof. unfold process_tool_delta. repeat case_match; by simplify_eq/=. Qed.

Lemma process_tool_deltas_text tcs :
  ∀ st, text_deltas (process_tool_deltas json_valid st tcs).2 = [].
Proof.
  induction tcs as [| tc tcs IH]; intros st; simpl; [done |].
  pose proof (process_tool_delta_text st tc) as H1.
  destruct (process_tool_delta json_valid st tc) as [st1 evs1].
  specialize (IH st1). destruct (process_tool_deltas json_valid st1 tcs) as [st2 evs2].
  simpl in *. by rewrite text_deltas_app, H1, IH.
Qed.

Lemma process_choice_text st choice :
  text_deltas (process_choice json_valid st choice).1.2
  = option_list (d_content (default (mkDelta None None) (sc_delta choice))).
Proof.
  unfold process_choice.
  set (delta := default (mkDelta None None) (sc_delta choice)).
  assert (Htools : ∀ st, text_deltas
            (match d_tool_calls delta with
             | Some tcs => process_tool_deltas json_valid st tcs
             | None => (st, [])
             end).2 = []).
  { intros st0. destruct (d_tool_calls delta); [apply process_tool_deltas_text | done]. }
  specialize (Htools st).
  destruct (match d_tool_calls delta with
            | Some tcs => process_tool_deltas json_valid st tcs
            | None => (st, [])
            end) as [st1 tool_events].
  simpl in Htools.
  destruct (truthy_str (sc_finish_reason choice)); simpl;
    rewrite text_deltas_app, Htools, app_nil_r; by destruct (d_content delta).
Qed.

Lemma process_line_text st line :
  text_deltas (process_line json_loads json_valid st line).1.2
  = option_list (line_text json_loads line)
  ∧ text_deltas (process_line_with_usage json_loads json_valid config st line).1.2
    = option_list (line_text json_loads line).
Proof.
  unfold process_line, process_line_with_usage, line_text.
  destruct (nonempty (strip line)); [| done].
  destruct (String.prefix "data: " line); [| done].
  destruct (String.eqb (strip (string_drop 6 line)) "[DONE]"); [done |]. cbn [andb negb].
  destruct (json_loads (string_drop 6 line)) as [| error_str | chunk]; [done | done |].
  destruct (ch_choices chunk) as [| choice choices];
    [by destruct (usage_truthy (ch_usage chunk)) |].
  split.
  - pose proof (process_choice_text st choice) as H.
    by destruct (process_choice json_valid st choice) as [[st1 evs1] finished].
  - match goal with
    | |- context [process_choice json_valid ?st0 choice] =>
        pose proof (process_choice_text st0 choice) as H;
        by destruct (process_choice json_valid st0 choice) as [[st1 evs1] finished]
    end.
Qed.

Lemma omap_cons_option_list {A B} (f : A → option B) x l :
  omap f (x :: l) = option_list (f x) ++ omap f l.
Proof. rewrite omap_cons_eq. by destruct (f x). Qed.

Lemma stream_loop_text lines :
  ∀ st, ∃ k,
    text_deltas (stream_loop json_loads json_valid st lines).1.2
    = omap (line_text json_loads) (take k lines)
    ∧ ((stream_loop json_loads json_valid st lines).2 = Next → k = length lines).
Proof.
  induction lines as [| line rest IH]; intros st.
  - exists 0. by split.
  - simpl. pose proof (proj1 (process_line_text st line)) as Hline.
    destruct (process_line json_loads json_valid st line) as [[st1 evs1] c1].
    simpl in Hline. destruct c1.
    + destruct (IH st1) as (k & Htext & Hall).
      destruct (stream_loop json_loads json_valid st1 rest) as [[st2 evs2] c2].
      simpl in *. exists (S k). split.
      * cbn [take]. by rewrite omap_cons_option_list, text_deltas_app, Hline, Htext.
      * intros Hc. by rewrite (Hall Hc).
    + exists 1. split; [| done]. cbn [take]. rewrite take_0.
      by rewrite omap_cons_option_list, app_nil_r.
    + exists 1. split; [| done]. cbn [take]. rewrite take_0.
      by rewrite omap_cons_option_list, app_nil_r.
Qed.

Lemma stream_loop_with_cancellation_text request_id lines :
  ∀ client st, ∃ k,
    text_deltas (stream_loop_with_cancellation json_loads json_valid config request_id
                   client st lines).1.2
    = omap (line_text json_loads) (take k lines.*1)
    ∧ ((stream_loop_with_cancellation json_loads json_valid config request_id
          client st lines).2 = Next → k = length lines).
Proof.
  induction lines as [| [line disconnected] rest IH]; intros client st.
  - exists 0. by split.
  - simpl. destruct disconnected; [exists 0; by split |].
    pose proof (proj2 (process_line_text st line)) as Hline.
    destruct (process_line_with_usage json_loads json_valid config st line)
      as [[st1 evs1] c1].
    simpl in Hline. destruct c1.
    + destruct (IH client st1) as (k & Htext & Hall).
      destruct (stream_loop_with_cancellation _ _ _ _ client st1 rest)
        as [[[c2 st2] evs2] ctl2].
      simpl in *. exists (S k). split.
      * cbn [take]. by rewrite omap_cons_option_list, text_deltas_app, Hline, Htext.
      * intros Hc. by rewrite (Hall Hc).
    + exists 1. split; [| done]. cbn [take]. rewrite take_0.
      by rewrite omap_cons_option_list, app_nil_r.
    + exists 1. split; [| done]. cbn [take]. rewrite take_0.
      by rewrite omap_cons_option_list, app_nil_r.
Qed.

Lemma teardown_text st usage : text_deltas (teardown st usage) = [].
Proof.
  unfold teardown. cbn [text_deltas omap list_omap]. fold (text_deltas).
  change (text_deltas (omap tool_stop (current_tool_calls st)
                       ++ [MessageDelta (final_stop_reason st) usage; MessageStop]) = []).
  rewrite text_deltas_app. simpl. rewrite app_nil_r.
  induction (current_tool_calls st) as [| entry d IH]; [done |].
  rewrite omap_cons_eq, tool_stop_started.
  by destruct (started_index entry).
Qed.

(** X28.  The text of the translation is the text of the upstream, in
    order: the text deltas that a translator emits are exactly the
    [content] strings of the first choices of the chunks on the first
    [k] lines of the stream, for some [k], one delta per chunk that
    carries text, with nothing added, dropped in between, merged or
    reordered; when the loop reads the stream to its end, [k] is the
    whole stream. *)
Theorem text_is_forwarded_in_order lines ending model cancel_lines cancel_ending
    client request_id :
  (∃ k,
     text_deltas (convert_openai_streaming_to_claude json_loads json_valid message_id
                    lines ending model)
     = omap (line_text json_loads) (take k lines)
     ∧ ((stream_loop json_loads json_valid initial_state lines).2 = Next →
        k = length lines))
  ∧ (∃ k,
       text_deltas (convert_openai_streaming_to_claude_with_cancellation json_loads
                      json_valid config message_id cancel_lines cancel_ending model
                      client request_id).1.1
       = omap (line_text json_loads) (take k cancel_lines.*1)
       ∧ ((stream_loop_with_cancellation json_loads json_valid config request_id client
             initial_state cancel_lines).2 = Next →
          k = length cancel_lines)).
Proof.
  split.
  - unfold convert_openai_streaming_to_claude.
    destruct (stream_loop_text lines initial_state) as (k & Htext & Hall).
    destruct (stream_loop json_loads json_valid initial_state lines) as [[st evs] c].
    cbn [fst snd] in *. exists k. split; [| done].
    rewrite !text_deltas_app, Htext.
    change (text_deltas (start_events message_id model)) with ([] : list string).
    destruct c; [destruct ending | |]; rewrite ?teardown_text; cbn [text_deltas];
      simpl; by rewrite ?app_nil_r.
  - unfold convert_openai_streaming_to_claude_with_cancellation.
    destruct (stream_loop_with_cancellation_text request_id cancel_lines client
                initial_state) as (k & Htext & Hall).
    destruct (stream_loop_with_cancellation _ _ _ _ client initial_state cancel_lines)
      as [[[c1 st] evs] ctl].
    cbn [fst snd] in *. exists k. split; [| done].
    destruct ctl; [destruct cancel_ending as [[e str | str] |] | |];
      try destruct (status_code e =? 499)%Z; cbn [fst snd];
      rewrite ?text_deltas_app, ?Htext, ?teardown_text;
      change (text_deltas (start_events message_id model)) with ([] : list string);
      simpl; by rewrite ?app_nil_r.
Qed.

(** ** The frame of a translation *)

Lemma body_events_filter (p : sse_event → bool) evs :
  (∀ ev, is_body_event ev → p ev = false) →
  Forall is_body_event evs →
  filter (λ ev, p ev = true) evs = [].
Proof.
  intros Hp. induction 1 as [| ev evs Hev _ IH]; [done |].
  rewrite filter_cons, decide_False; [done |]. by rewrite (Hp ev Hev).
Qed.

Lemma tool_stops_filter (p : sse_event → bool) d :
  (∀ index, p (ContentBlockStop index) = false) →
  filter (λ ev, p ev = true) (omap tool_stop d) = [].
Proof.
  intros Hp. induction d as [| entry d IH]; [done |].
  rewrite omap_cons_eq, tool_stop_started.
  destruct (started_index entry) as [index |]; simpl; [| done].
  rewrite filter_cons, decide_False; [done |]. by rewrite Hp.
Qed.

Lemma body_events_no_reason evs :
  Forall is_body_event evs → reported_stop_reasons evs = [].
Proof.
  induction 1 as [| ev evs Hev _ IH]; [done |].
  unfold reported_stop_reasons. rewrite omap_cons_eq. by destruct ev.
Qed.

Lemma tool_stops_no_reason d : reported_stop_reasons (omap tool_stop d) = [].
Proof.
  induction d as [| entry d IH]; [done |].
  rewrite omap_cons_eq, tool_stop_started.
  destruct (started_index entry) as [index |]; simpl; [| done]. exact IH.
Qed.

Lemma reported_stop_reasons_app evs evs' :
  reported_stop_reasons (evs ++ evs')
  = reported_stop_reasons evs ++ reported_stop_reasons evs'.
Proof. apply omap_app. Qed.

Lemma body_is_not_terminal ev : is_body_event ev → is_terminal ev = false.
Proof. by destruct ev. Qed.

Lemma body_is_not_message_start ev : is_body_event ev → is_message_start ev = false.
Proof. by destruct ev. Qed.

(** The shape that every translation has: the start events, events of
    the loop, and a tail. *)
Lemma framed_with_tail model terminals evs tail :
  Forall is_body_event evs →
  filter (λ ev, is_message_start ev = true) tail = [] →
  length (filter (λ ev, is_terminal ev = true) tail) = terminals →
  (terminals = 1 → ∃ ev, last tail = Some ev ∧ is_terminal ev = true) →
  Forall (λ r, r ∈ [STOP_END_TURN; STOP_MAX_TOKENS; STOP_TOOL_USE])
         (reported_stop_reasons tail) →
  length (reported_stop_reasons tail) ≤ 1 →
  (length (reported_stop_reasons tail) = 1 ↔ last tail = Some MessageStop) →
  well_framed message_id model terminals (start_events message_id model ++ evs ++ tail).
Proof.
  intros Hbody Hstart Hterm Hlast Hreasons Hlen Hcompleted.
  assert (Hs1 : filter (λ ev, is_message_start ev = true) (start_events message_id model)
                = [MessageStart message_id model]) by reflexivity.
  assert (Hs2 : filter (λ ev, is_terminal ev = true) (start_events message_id model) = [])
    by reflexivity.
  assert (Hs3 : reported_stop_reasons (start_events message_id model) = []) by reflexivity.
  unfold well_framed.
  split; [done |]. split; [| split; [| split; [| split; [| split]]]].
  - rewrite !filter_app, !length_app, Hstart, Hs1.
    by rewrite (body_events_filter _ _ body_is_not_message_start Hbody).
  - rewrite !filter_app, !length_app, Hs2.
    by rewrite (body_events_filter _ _ body_is_not_terminal Hbody).
  - intros H1. destruct (Hlast H1) as (ev & Hev & Ht). exists ev. split; [| done].
    rewrite app_assoc, last_app. by rewrite Hev.
  - rewrite !reported_stop_reasons_app, Hs3, (body_events_no_reason _ Hbody). done.
  - rewrite !reported_stop_reasons_app, Hs3, (body_events_no_reason _ Hbody). done.
  - rewrite !reported_stop_reasons_app, Hs3, (body_events_no_reason _ Hbody).
    rewrite !app_nil_l.
    rewrite Hcompleted. unfold completed. rewrite app_assoc, last_app.
    destruct (last tail) as [ev |] eqn:E; [done |].
    split; [done |]. intros Hl. exfalso.
    rewrite last_app in Hl. pose proof (body_events_last _ Hbody) as Hb.
    destruct (last evs); [done | done].
Qed.

Lemma stream_stop_reason_range finish_reason :
  stream_stop_reason finish_reason ∈ [STOP_END_TURN; STOP_MAX_TOKENS; STOP_TOOL_USE].
Proof. unfold stream_stop_reason. repeat case_match; set_solver. Qed.

Lemma framed_teardown model evs st usage :
  Forall is_body_event evs →
  final_stop_reason st ∈ [STOP_END_TURN; STOP_MAX_TOKENS; STOP_TOOL_USE] →
  well_framed message_id model 1
    (start_events message_id model ++ evs ++ teardown st usage).
Proof.
  intros Hbody Hreason.
  assert (Hreasons : reported_stop_reasons (teardown st usage) = [final_stop_reason st]).
  { unfold teardown.
    change (reported_stop_reasons
              (omap tool_stop (current_tool_calls st)
               ++ [MessageDelta (final_stop_reason st) usage; MessageStop])
            = [final_stop_reason st]).
    by rewrite reported_stop_reasons_app, tool_stops_no_reason. }
  apply framed_with_tail; try done.
  - unfold teardown. rewrite filter_cons, decide_False by done.
    rewrite filter_app, (tool_stops_filter is_message_start) by done. done.
  - unfold teardown. rewrite filter_cons, decide_False by done.
    rewrite filter_app, (tool_stops_filter is_terminal) by done. done.
  - intros _. exists MessageStop. by rewrite teardown_last.
  - rewrite Hreasons. by constructor.
  - by rewrite Hreasons.
  - rewrite Hreasons, teardown_last. done.
Qed.

Lemma framed_error model evs error_type message :
  Forall is_body_event evs →
  well_framed message_id model 1
    (start_events message_id model ++ evs ++ [ErrorEvent error_type message]).
Proof.
  intros Hbody. apply framed_with_tail; try done.
  - intros _. by eexists.
  - simpl. lia.
Qed.

Lemma framed_open model evs :
  Forall is_body_event evs →
  well_framed message_id model 0 (start_events message_id model ++ evs).
Proof.
  intros Hbody. rewrite <- (app_nil_r evs). apply framed_with_tail; try done.
  simpl. lia.
Qed.

(** The stop reason kept in the state is one of the source protocol. *)
Lemma process_tool_delta_reason st tc_delta :
  final_stop_reason (process_tool_delta json_valid st tc_delta).1 = final_stop_reason st.
Proof. unfold process_tool_delta. repeat case_match; by simplify_eq/=. Qed.

Lemma process_tool_deltas_reason tcs :
  ∀ st, final_stop_reason (process_tool_deltas json_valid st tcs).1 = final_stop_reason st.
Proof.
  induction tcs as [| tc tcs IH]; intros st; simpl; [done |].
  pose proof (process_tool_delta_reason st tc) as H1.
  destruct (process_tool_delta json_valid st tc) as [st1 evs1].
  specialize (IH st1). destruct (process_tool_deltas json_valid st1 tcs) as [st2 evs2].
  simpl in *. congruence.
Qed.

Lemma process_choice_reason st choice :
  final_stop_reason st ∈ [STOP_END_TURN; STOP_MAX_TOKENS; STOP_TOOL_USE] →
  final_stop_reason (process_choice json_valid st choice).1.1
  ∈ [STOP_END_TURN; STOP_MAX_TOKENS; STOP_TOOL_USE].
Proof.
  intros Hst. unfold process_choice.
  set (delta := default (mkDelta None None) (sc_delta choice)).
  assert (Htools : final_stop_reason
            (match d_tool_calls delta with
             | Some tcs => process_tool_deltas json_valid st tcs
             | None => (st, [])
             end).1 = final_stop_reason st).
  { destruct (d_tool_calls delta); [apply process_tool_deltas_reason | done]. }
  destruct (match d_tool_calls delta with
            | Some tcs => process_tool_deltas json_valid st tcs
            | None => (st, [])
            end) as [st1 tool_events].
  simpl in Htools.
  destruct (truthy_str (sc_finish_reason choice)); simpl.
  - apply stream_stop_reason_range.
  - by rewrite Htools.
Qed.

Lemma process_line_reason st line :
  final_stop_reason st ∈ [STOP_END_TURN; STOP_MAX_TOKENS; STOP_TOOL_USE] →
  final_stop_reason (process_line json_loads json_valid st line).1.1
  ∈ [STOP_END_TURN; STOP_MAX_TOKENS; STOP_TOOL_USE]
  ∧ final_stop_reason (process_line_with_usage json_loads json_valid config st line).1.1
    ∈ [STOP_END_TURN; STOP_MAX_TOKENS; STOP_TOOL_USE].
Proof.
  intros Hst. unfold process_line, process_line_with_usage.
  destruct (nonempty (strip line)); [| done].
  destruct (String.prefix "data: " line); [| done].
  destruct (String.eqb (strip (string_drop 6 line)) "[DONE]"); [done |].
  destruct (json_loads (string_drop 6 line)) as [| error_str | chunk]; [done | done |].
  destruct (ch_choices chunk) as [| choice choices];
    [by destruct (usage_truthy (ch_usage chunk)) |].
  split.
  - pose proof (process_choice_reason st choice Hst) as H.
    by destruct (process_choice json_valid st choice) as [[st1 evs1] finished].
  - match goal with
    | |- context [process_choice json_valid ?st0 choice] =>
        assert (H0 : final_stop_reason st0
                     ∈ [STOP_END_TURN; STOP_MAX_TOKENS; STOP_TOOL_USE])
          by (by destruct (usage_truthy (ch_usage chunk)));
        pose proof (process_choice_reason st0 choice H0) as H;
        by destruct (process_choice json_valid st0 choice) as [[st1 evs1] finished]
    end.
Qed.

Lemma stream_loop_reason lines :
  ∀ st, final_stop_reason st ∈ [STOP_END_TURN; STOP_MAX_TOKENS; STOP_TOOL_USE] →
        final_stop_reason (stream_loop json_loads json_valid st lines).1.1
        ∈ [STOP_END_TURN; STOP_MAX_TOKENS; STOP_TOOL_USE].
Proof.
  induction lines as [| line rest IH]; intros st Hst; simpl; [done |].
  pose proof (proj1 (process_line_reason st line Hst)) as H1.
  destruct (process_line json_loads json_valid st line) as [[st1 evs1] c1].
  simpl in H1. destruct c1; [| done | done].
  specialize (IH st1 H1).
  by destruct (stream_loop json_loads json_valid st1 rest) as [[st2 evs2] c2].
Qed.

Lemma stream_loop_with_cancellation_reason request_id lines :
  ∀ client st,
    final_stop_reason st ∈ [STOP_END_TURN; STOP_MAX_TOKENS; STOP_TOOL_USE] →
    final_stop_reason (stream_loop_with_cancellation json_loads json_valid config
                         request_id client st lines).1.1.2
    ∈ [STOP_END_TURN; STOP_MAX_TOKENS; STOP_TOOL_USE].
Proof.
  induction lines as [| [line disconnected] rest IH]; intros client st Hst; simpl;
    [done |].
  destruct disconnected; [done |].
  pose proof (proj2 (process_line_reason st line Hst)) as H1.
  destruct (process_line_with_usage json_loads json_valid config st line)
    as [[st1 evs1] c1].
  simpl in H1. destruct c1; [| done | done].
  specialize (IH client st1 H1).
  by destruct (stream_loop_with_cancellation _ _ _ _ client st1 rest)
    as [[[c2 st2] evs2] ctl2].
Qed.

Lemma initial_reason :
  final_stop_reason initial_state ∈ [STOP_END_TURN; STOP_MAX_TOKENS; STOP_TOOL_USE].
Proof. by left. Qed.

Lemma step_ok_body st st' evs : step_ok st st' evs → Forall is_body_event evs.
Proof. by intros (_ & _ & H & _). Qed.

(** X29.  Every translation is framed the same way.  It opens with
    [message_start], the start of text block 0 and a ping, and has no
    other [message_start].  The translator without cancellation always
    ends on exactly one terminal event, [message_stop] or an error event,
    and emits nothing after it; so does the translator with cancellation
    unless it re-raises an HTTPException, whose status is then not 499,
    in which case it emits no terminal event at all.  A stop reason is
    reported at most once, exactly in the translations that end with
    [message_stop], and it is always [end_turn], [max_tokens] or
    [tool_use]. *)
Theorem translations_are_framed lines ending model cancel_lines cancel_ending
    client request_id :
  well_framed message_id model 1
    (convert_openai_streaming_to_claude json_loads json_valid message_id lines ending model)
  ∧ match (convert_openai_streaming_to_claude_with_cancellation json_loads json_valid
             config message_id cancel_lines cancel_ending model client request_id).1.2 with
    | Finished =>
        well_framed message_id model 1
          (convert_openai_streaming_to_claude_with_cancellation json_loads json_valid
             config message_id cancel_lines cancel_ending model client request_id).1.1
    | Reraised e =>
        status_code e ≠ 499%Z
        ∧ well_framed message_id model 0
            (convert_openai_streaming_to_claude_with_cancellation json_loads json_valid
               config message_id cancel_lines cancel_ending model client request_id).1.1
    end.
Proof.
  split.
  - unfold convert_openai_streaming_to_claude.
    pose proof (step_ok_body _ _ _ (stream_loop_ok json_loads json_valid lines
                                     initial_state)) as Hbody.
    pose proof (stream_loop_reason lines initial_state initial_reason) as Hreason.
    destruct (stream_loop json_loads json_valid initial_state lines) as [[st evs] c].
    simpl in Hbody, Hreason.
    destruct c; [destruct ending | |];
      first [by apply framed_teardown | by apply framed_error].
  - unfold convert_openai_streaming_to_claude_with_cancellation.
    pose proof (step_ok_body _ _ _
                  (stream_loop_with_cancellation_ok json_loads json_valid config
                     request_id cancel_lines client initial_state)) as Hbody.
    pose proof (stream_loop_with_cancellation_reason request_id cancel_lines client
                  initial_state initial_reason) as Hreason.
    destruct (stream_loop_with_cancellation _ _ _ _ client initial_state cancel_lines)
      as [[[c1 st] evs] ctl].
    simpl in Hbody, Hreason.
    destruct ctl; [destruct cancel_ending as [[e str | str] |] | |];
      try (destruct (status_code e =? 499)%Z eqn:E499); cbn [fst snd];
      first [by apply framed_teardown | by apply framed_error | idtac].
    split; [by apply Z.eqb_neq |]. by apply framed_open.
Qed.

(** ** Argument deltas *)

Lemma dict_set_same_sent key v d :
  sent_index (key, v)
  = match dict_lookup key d with Some old => sent_index (key, old) | None => None end →
  omap sent_index (dict_set key v d) = omap sent_index d.
Proof.
  induction d as [| [k v'] d IH]; cbn [dict_set dict_lookup].
  - intros Heq. by rewrite omap_cons_eq, Heq.
  - destruct (Z.eqb_spec k key) as [-> | Hne]; intros Heq; rewrite !omap_cons_eq.
    + by rewrite Heq.
    + by rewrite (IH Heq).
Qed.

Lemma dict_set_new_sent key v d index :
  match dict_lookup key d with Some old => sent_index (key, old) | None => None end = None →
  sent_index (key, v) = Some index →
  omap sent_index (dict_set key v d) ≡ₚ index :: omap sent_index d.
Proof.
  induction d as [| [k v'] d IH]; cbn [dict_set dict_lookup].
  - intros _ Hnew. by rewrite omap_cons_eq, Hnew.
  - destruct (Z.eqb_spec k key) as [-> | Hne]; intros Hold Hnew; rewrite !omap_cons_eq.
    + by rewrite Hold, Hnew.
    + pose proof (IH Hold Hnew) as Hperm.
      destruct (sent_index (k, v')) as [i |]; [| done].
      rewrite Hperm. apply Permutation_swap.
Qed.

Lemma dict_set_values {V} (P : V → Prop) key v (d : list (Z * V)) :
  P v → Forall P d.*2 → Forall P (dict_set key v d).*2.
Proof.
  intros Hv. induction d as [| [k v'] d IH]; cbn [dict_set].
  - intros _. by repeat constructor.
  - intros Hd. inversion Hd as [| ?? Hv' Hd']; subst.
    destruct (k =? key)%Z; simpl; constructor; auto.
Qed.

Lemma dict_lookup_values {V} (P : V → Prop) key (d : list (Z * V)) old :
  Forall P d.*2 → dict_lookup key d = Some old → P old.
Proof.
  induction d as [| [k v'] d IH]; cbn [dict_lookup]; [done |].
  intros Hd. inversion Hd as [| ?? Hv' Hd']; subst.
  destruct (k =? key)%Z; [by intros [= <-] | by apply IH].
Qed.

Lemma process_tool_delta_json st tc_delta :
  Forall accumulator_ok (current_tool_calls st).*2 →
  Forall accumulator_ok (current_tool_calls (process_tool_delta json_valid st tc_delta).1).*2
  ∧ omap sent_index (current_tool_calls (process_tool_delta json_valid st tc_delta).1)
    ≡ₚ (json_deltas (process_tool_delta json_valid st tc_delta).2).*1
       ++ omap sent_index (current_tool_calls st)
  ∧ Forall (λ p, json_valid p.2 = true)
           (json_deltas (process_tool_delta json_valid st tc_delta).2).
Proof.
  intros Hall. unfold process_tool_delta.
  set (k := default 0%Z (tcd_index tc_delta)).
  set (old := default (mkToolState None None EmptyString false None false)
                      (dict_lookup k (current_tool_calls st))).
  assert (Hok : accumulator_ok old).
  { unfold old. destruct (dict_lookup k (current_tool_calls st)) as [v |] eqn:E; simpl.
    - by eapply dict_lookup_values.
    - by split. }
  assert (Hheld : match dict_lookup k (current_tool_calls st) with
                  | Some v => sent_index (k, v)
                  | None => None
                  end = sent_index (k, old)).
  { unfold old. by destruct (dict_lookup k (current_tool_calls st)). }
  set (tc1 := if truthy_str (tcd_id tc_delta) then _ else old).
  assert (H1 : ts_started tc1 = ts_started old ∧ ts_claude_index tc1 = ts_claude_index old
               ∧ ts_json_sent tc1 = ts_json_sent old).
  { unfold tc1. by destruct (truthy_str (tcd_id tc_delta)). }
  set (fd := default (mkFunctionDelta None None) (tcd_function tc_delta)).
  set (tc2 := if truthy_str (fd_name fd) then _ else tc1).
  assert (H2 : ts_started tc2 = ts_started old ∧ ts_claude_index tc2 = ts_claude_index old
               ∧ ts_json_sent tc2 = ts_json_sent old).
  { unfold tc2. by destruct (truthy_str (fd_name fd)). }
  clearbody tc2. clear tc1 H1.
  destruct H2 as (Hs2 & Hi2 & Hj2). destruct Hok as [Hsent Hstarted].
  assert (Hvalues : ∀ v, accumulator_ok v →
            Forall accumulator_ok (dict_set k v (current_tool_calls st)).*2).
  { intros v Hv. by apply dict_set_values. }
  assert (Hsame : ∀ v, sent_index (k, v) = sent_index (k, old) →
            omap sent_index (dict_set k v (current_tool_calls st))
            ≡ₚ [] ++ omap sent_index (current_tool_calls st)).
  { intros v Hv. rewrite dict_set_same_sent; [done |]. by rewrite Hheld. }
  assert (Hnew : ∀ v index, sent_index (k, old) = None → sent_index (k, v) = Some index →
            omap sent_index (dict_set k v (current_tool_calls st))
            ≡ₚ [index] ++ omap sent_index (current_tool_calls st)).
  { intros v index Ho Hv.
    pose proof (dict_set_new_sent k v (current_tool_calls st) index) as Hperm.
    rewrite Hheld in Hperm. by apply Hperm. }
  destruct (truthy_str (ts_id tc2) && truthy_str (ts_name tc2) && negb (ts_started tc2))
    eqn:Hcond.
  - apply andb_prop in Hcond as [_ Hns]. apply negb_true_iff in Hns.
    assert (Hnot_sent : ts_json_sent old = false).
    { destruct (ts_json_sent old); [| done]. rewrite Hsent in Hs2 by done. congruence. }
    assert (Hold_none : sent_index (k, old) = None).
    { unfold sent_index. simpl. by rewrite Hnot_sent. }
    destruct (fd_arguments fd) as [arguments |]; cbn [ts_started ts_json_sent ts_args_buffer
      ts_claude_index ts_id ts_name];
      [destruct (json_valid _ && negb _) eqn:Hvalid |]; cbn [fst snd current_tool_calls].
    + split; [apply Hvalues; split; simpl; eauto |].
      split; [by apply Hnew |].
      apply andb_prop in Hvalid as [Hvalid _]. by repeat constructor.
    + split; [apply Hvalues; split; simpl; [rewrite Hj2, Hnot_sent; done | eauto] |].
      split; [| by constructor].
      apply Hsame. rewrite Hold_none. unfold sent_index. simpl. by rewrite Hj2, Hnot_sent.
    + split; [apply Hvalues; split; simpl; [rewrite Hj2, Hnot_sent; done | eauto] |].
      split; [| by constructor].
      apply Hsame. rewrite Hold_none. unfold sent_index. simpl. by rewrite Hj2, Hnot_sent.
  - assert (Hkeep : ∀ a b c,
              sent_index (k, mkToolState a b c (ts_json_sent tc2) (ts_claude_index tc2)
                                (ts_started tc2))
              = sent_index (k, old)).
    { intros. unfold sent_index. simpl. by rewrite Hs2, Hi2, Hj2. }
    assert (Hkeep' : sent_index (k, tc2) = sent_index (k, old)).
    { unfold sent_index. simpl. by rewrite Hs2, Hi2, Hj2. }
    assert (Hok2 : ∀ a b c,
              accumulator_ok (mkToolState a b c (ts_json_sent tc2) (ts_claude_index tc2)
                                (ts_started tc2))).
    { intros. split; simpl; rewrite ?Hs2, ?Hi2, ?Hj2; done. }
    assert (Hok2' : accumulator_ok tc2).
    { split; rewrite ?Hs2, ?Hi2, ?Hj2; done. }
    destruct (fd_arguments fd) as [arguments |];
      [destruct (ts_started tc2) eqn:Hst; [destruct (json_valid _ && negb _) eqn:Hvalid |] |];
      cbn [fst snd current_tool_calls].
    + apply andb_prop in Hvalid as [Hvalid Hns]. apply negb_true_iff in Hns.
      rewrite Hj2 in Hns.
      destruct (Hstarted ltac:(congruence)) as [index Hindex].
      split; [apply Hvalues; split; simpl; [done | rewrite Hi2; eauto] |].
      split; [| by repeat constructor].
      rewrite app_nil_l. cbn [json_deltas omap list_omap fmap list_fmap fst].
      rewrite Hi2, Hindex. simpl. apply Hnew.
      * unfold sent_index. simpl. by rewrite Hns.
      * done.
    + split; [apply Hvalues; apply Hok2 |].
      split; [| by constructor]. apply Hsame. apply Hkeep.
    + split; [by apply Hvalues |]. split; [| by constructor]. by apply Hsame.
    + split; [by apply Hvalues |]. split; [| by constructor]. by apply Hsame.
Qed.

Lemma json_deltas_app evs evs' :
  json_deltas (evs ++ evs') = json_deltas evs ++ json_deltas evs'.
Proof. apply omap_app. Qed.

Lemma json_step_ok_refl st : json_step_ok json_valid st st [].
Proof. intros H. by repeat split. Qed.

Lemma json_step_ok_trans st st' st'' evs evs' :
  json_step_ok json_valid st st' evs →
  json_step_ok json_valid st' st'' evs' →
  json_step_ok json_valid st st'' (evs ++ evs').
Proof.
  intros H1 H2 Hst. destruct (H1 Hst) as (Hst' & Hperm1 & Hv1).
  destruct (H2 Hst') as (Hst'' & Hperm2 & Hv2).
  split; [done |]. split.
  - rewrite Hperm2, Hperm1, json_deltas_app, fmap_app.
    rewrite !app_assoc. apply Permutation_app_tail, Permutation_app_comm.
  - rewrite json_deltas_app. by apply Forall_app.
Qed.

Lemma json_step_ok_fields st st' evs stop_reason usage :
  json_step_ok json_valid st st' evs →
  json_step_ok json_valid st
    (mkState (tool_block_counter st') (current_tool_calls st') stop_reason usage) evs.
Proof. done. Qed.

Lemma json_step_ok_fields_l st st' evs stop_reason usage :
  json_step_ok json_valid
    (mkState (tool_block_counter st) (current_tool_calls st) stop_reason usage) st' evs →
  json_step_ok json_valid st st' evs.
Proof. done. Qed.

Lemma process_tool_deltas_json tcs :
  ∀ st, json_step_ok json_valid st (process_tool_deltas json_valid st tcs).1
          (process_tool_deltas json_valid st tcs).2.
Proof.
  induction tcs as [| tc tcs IH]; intros st; simpl; [apply json_step_ok_refl |].
  pose proof (process_tool_delta_json st tc) as H1.
  destruct (process_tool_delta json_valid st tc) as [st1 evs1].
  specialize (IH st1). destruct (process_tool_deltas json_valid st1 tcs) as [st2 evs2].
  simpl in *. by eapply json_step_ok_trans.
Qed.

Lemma process_choice_json st choice :
  json_step_ok json_valid st (process_choice json_valid st choice).1.1
    (process_choice json_valid st choice).1.2.
Proof.
  unfold process_choice.
  set (delta := default (mkDelta None None) (sc_delta choice)).
  assert (Htools : json_step_ok json_valid st
            (match d_tool_calls delta with
             | Some tcs => process_tool_deltas json_valid st tcs
             | None => (st, [])
             end).1
            (match d_tool_calls delta with
             | Some tcs => process_tool_deltas json_valid st tcs
             | None => (st, [])
             end).2).
  { destruct (d_tool_calls delta); [apply process_tool_deltas_json |].
    apply json_step_ok_refl. }
  destruct (match d_tool_calls delta with
            | Some tcs => process_tool_deltas json_valid st tcs
            | None => (st, [])
            end) as [st1 tool_events].
  simpl in Htools.
  assert (Htext : json_step_ok json_valid st st
            match d_content delta with
            | Some text => [ContentBlockDelta text_block_index (TextDelta text)]
            | None => []
            end).
  { intros H. split; [done |]. destruct (d_content delta); by repeat split. }
  destruct (truthy_str (sc_finish_reason choice)); cbn [fst snd].
  - apply json_step_ok_fields. by eapply json_step_ok_trans.
  - by eapply json_step_ok_trans.
Qed.

Lemma process_line_json st line :
  json_step_ok json_valid st (process_line json_loads json_valid st line).1.1
    (process_line json_loads json_valid st line).1.2
  ∧ json_step_ok json_valid st
      (process_line_with_usage json_loads json_valid config st line).1.1
      (process_line_with_usage json_loads json_valid config st line).1.2.
Proof.
  unfold process_line, process_line_with_usage.
  destruct (nonempty (strip line)); [| split; apply json_step_ok_refl].
  destruct (String.prefix "data: " line); [| split; apply json_step_ok_refl].
  destruct (String.eqb (strip (string_drop 6 line)) "[DONE]");
    [split; apply json_step_ok_refl |].
  destruct (json_loads (string_drop 6 line)) as [| error_str | chunk];
    [split; apply json_step_ok_refl | split; apply json_step_ok_refl |].
  destruct (ch_choices chunk) as [| choice choices].
  - split; [apply json_step_ok_refl |].
    destruct (usage_truthy (ch_usage chunk)); cbn [fst snd]; [| apply json_step_ok_refl].
    apply json_step_ok_fields, json_step_ok_refl.
  - split.
    + pose proof (process_choice_json st choice) as H.
      by destruct (process_choice json_valid st choice) as [[st1 evs1] finished].
    + match goal with
      | |- context [process_choice json_valid ?st0 choice] =>
          pose proof (process_choice_json st0 choice) as H;
          destruct (process_choice json_valid st0 choice) as [[st1 evs1] finished]
      end.
      cbn [fst snd] in *.
      destruct (usage_truthy (ch_usage chunk)); [| done].
      by eapply json_step_ok_fields_l.
Qed.

Lemma stream_loop_json lines :
  ∀ st, json_step_ok json_valid st (stream_loop json_loads json_valid st lines).1.1
          (stream_loop json_loads json_valid st lines).1.2.
Proof.
  induction lines as [| line rest IH]; intros st; simpl; [apply json_step_ok_refl |].
  pose proof (proj1 (process_line_json st line)) as H1.
  destruct (process_line json_loads json_valid st line) as [[st1 evs1] c1].
  simpl in H1. destruct c1; [| done | done].
  specialize (IH st1).
  destruct (stream_loop json_loads json_valid st1 rest) as [[st2 evs2] c2].
  simpl in *. by eapply json_step_ok_trans.
Qed.

Lemma stream_loop_with_cancellation_json request_id lines :
  ∀ client st,
    json_step_ok json_valid st
      (stream_loop_with_cancellation json_loads json_valid config request_id client st
         lines).1.1.2
      (stream_loop_with_cancellation json_loads json_valid config request_id client st
         lines).1.2.
Proof.
  induction lines as [| [line disconnected] rest IH]; intros client st; simpl;
    [apply json_step_ok_refl |].
  destruct disconnected; [apply json_step_ok_refl |].
  pose proof (proj2 (process_line_json st line)) as H1.
  destruct (process_line_with_usage json_loads json_valid config st line)
    as [[st1 evs1] c1].
  simpl in H1. destruct c1; [| done | done].
  specialize (IH client st1).
  destruct (stream_loop_with_cancellation _ _ _ _ client st1 rest)
    as [[[c2 st2] evs2] ctl2].
  simpl in *. by eapply json_step_ok_trans.
Qed.

Lemma omap_sublist {A B} (f g : A → option B) (l : list A) :
  (∀ x y, f x = Some y → g x = Some y) →
  omap f l `sublist_of` omap g l.
Proof.
  intros Hfg. induction l as [| x l IH]; [done |].
  rewrite !omap_cons_eq. destruct (f x) as [y |] eqn:E.
  - rewrite (Hfg x y E). by constructor.
  - destruct (g x); [by constructor | done].
Qed.

Lemma sent_is_started entry index :
  sent_index entry = Some index → started_index entry = Some index.
Proof.
  unfold sent_index, started_index.
  destruct (ts_json_sent entry.2), (ts_started entry.2); simpl; try done.
  by intros ->.
Qed.

Lemma teardown_json st usage : json_deltas (teardown st usage) = [].
Proof.
  unfold teardown.
  change (json_deltas (omap tool_stop (current_tool_calls st)
                       ++ [MessageDelta (final_stop_reason st) usage; MessageStop]) = []).
  rewrite json_deltas_app. simpl. rewrite app_nil_r.
  induction (current_tool_calls st) as [| entry d IH]; [done |].
  rewrite omap_cons_eq, tool_stop_started.
  by destruct (started_index entry).
Qed.

(** What the loop of a translation guarantees about the argument deltas
    it emits, from the tables kept for the tool blocks. *)
Lemma loop_json_deltas st evs :
  step_ok initial_state st evs →
  json_step_ok json_valid initial_state st evs →
  NoDup (json_deltas evs).*1
  ∧ ∀ index payload, (index, payload) ∈ json_deltas evs →
      json_valid payload = true ∧ index ∈ tool_starts evs.
Proof.
  intros (Hle & Hstarts & Hbody & Htable) Hjson.
  destruct (Hjson ltac:(constructor)) as (_ & Hperm & Hvalid).
  destruct (Htable table_ok_initial) as [Hindices _].
  simpl in Hperm, Hstarts. rewrite app_nil_r in Hperm.
  rewrite Nat.sub_0_r in Hstarts.
  assert (Hsub : omap sent_index (current_tool_calls st) `sublist_of` started_indices st).
  { apply omap_sublist. intros entry index. apply sent_is_started. }
  split.
  - rewrite <- Hperm. eapply sublist_NoDup; [| exact Hsub].
    rewrite Hindices. apply NoDup_seq.
  - intros index payload Hin. split.
    + rewrite Forall_forall in Hvalid. by apply (Hvalid (index, payload)).
    + assert (Hi : index ∈ (json_deltas evs).*1).
      { apply list_elem_of_fmap. by exists (index, payload). }
      rewrite <- Hperm in Hi. rewrite Hstarts, <- Hindices.
      eapply elem_of_submseteq; [exact Hi | by apply sublist_submseteq].
Qed.

(** X30.  The arguments of a tool call are delivered at most once.  In
    every translation, each tool block receives at most one
    [input_json_delta]; the delta carries the whole argument text
    accumulated so far, which [json.loads] accepts, and it belongs to a
    tool block that the translation has opened. *)
Theorem tool_arguments_sent_once lines ending model cancel_lines cancel_ending
    client request_id :
  let out := convert_openai_streaming_to_claude json_loads json_valid message_id lines
               ending model in
  let out' := (convert_openai_streaming_to_claude_with_cancellation json_loads json_valid
                 config message_id cancel_lines cancel_ending model client request_id).1.1 in
  (NoDup (json_deltas out).*1
   ∧ ∀ index payload, (index, payload) ∈ json_deltas out →
       json_valid payload = true ∧ index ∈ tool_starts out)
  ∧ (NoDup (json_deltas out').*1
     ∧ ∀ index payload, (index, payload) ∈ json_deltas out' →
         json_valid payload = true ∧ index ∈ tool_starts out').
Proof.
  assert (Hframe : ∀ evs tail,
            json_deltas tail = [] → tool_starts tail = [] →
            json_deltas (start_events message_id model ++ evs ++ tail) = json_deltas evs
            ∧ tool_starts (start_events message_id model ++ evs ++ tail) = tool_starts evs).
  { intros evs tail Hj Ht. split.
    - rewrite !json_deltas_app, Hj, app_nil_r. done.
    - unfold tool_starts. rewrite !omap_app. fold (tool_starts tail).
      rewrite Ht, app_nil_r. done. }
  split.
  - unfold convert_openai_streaming_to_claude.
    pose proof (stream_loop_ok json_loads json_valid lines initial_state) as Hok.
    pose proof (stream_loop_json lines initial_state) as Hjson.
    destruct (stream_loop json_loads json_valid initial_state lines) as [[st evs] c].
    cbn [fst snd] in *. pose proof (loop_json_deltas st evs Hok Hjson) as Hloop.
    destruct c; [destruct ending | |];
      match goal with
      | |- context [start_events message_id model ++ evs ++ ?tail] =>
          destruct (Hframe evs tail) as [-> ->];
          [first [apply teardown_json | done] | first [apply teardown_starts | done] | done]
      end.
  - unfold convert_openai_streaming_to_claude_with_cancellation.
    pose proof (stream_loop_with_cancellation_ok json_loads json_valid config request_id
                  cancel_lines client initial_state) as Hok.
    pose proof (stream_loop_with_cancellation_json request_id cancel_lines client
                  initial_state) as Hjson.
    destruct (stream_loop_with_cancellation _ _ _ _ client initial_state cancel_lines)
      as [[[c1 st] evs] ctl].
    cbn [fst snd] in *. pose proof (loop_json_deltas st evs Hok Hjson) as Hloop.
    assert (Hbare : start_events message_id model ++ evs
                    = start_events message_id model ++ evs ++ []).
    { by rewrite app_nil_r. }
    destruct ctl; [destruct cancel_ending as [[e str | str] |] | |];
      try destruct (status_code e =? 499)%Z; cbn [fst snd];
      rewrite ?Hbare;
      match goal with
      | |- context [start_events message_id model ++ evs ++ ?tail] =>
          destruct (Hframe evs tail) as [-> ->];
          [first [apply teardown_json | done] | first [apply teardown_starts | done]
          | done]
      end.
Qed.

End Laws.

Lemma nothing_after_done_matters_witness :
  is_done_line "data: [DONE]" = true
  ∧ demo_plain ["data: chunk-hello"; "data: [DONE]"; "data: chunk-tool"] None
    = demo_plain ["data: chunk-hello"; "data: [DONE]"] (Some (StreamException "reset")).
Proof.
  split; [reflexivity |].
  apply (nothing_after_done_matters demo_loads demo_valid demo_config "msg_0000"
           ["data: chunk-hello"] "data: [DONE]" ["data: chunk-tool"] None
           (Some (StreamException "reset")) "claude-3-5-sonnet-20241022"
           [] [] demo_registry "req-1").
  reflexivity.
Defined.

End StreamingLaws.
